(** * The timestamp proof engine of python-opentimestamps

    A shallow embedding of [opentimestamps/core/timestamp.py]: the operation
    map [OpSet], the [Timestamp] tree with equality, merge and the byte codec,
    the [DetachedTimestampFile] envelope, and the Merkle aggregation
    functions.

    Two views of the same objects are used.  Read-only code and code that
    builds fresh objects ([__eq__], [serialize], [deserialize], and [merge] of
    two timestamps that share no node) is embedded over timestamp trees.
    Code whose behaviour depends on object identity ([OpSet.add],
    [OpSet.__setitem__], in-place [merge], [cat_then_unary_op],
    [make_merkle_tree]) is embedded over a store of objects addressed by
    references, in module [Store]. *)

From Stdlib Require Import Strings.Byte.
From stdpp Require Import base option list sorting gmap.

Abbreviation bytes := (list byte).

#[global] Instance byte_eq_decision : EqDecision byte := byte_eq_dec.

(** ** Exceptions and results *)

(** The exceptions the module raises.  [DeserializationError] stands for the
    errors of the serialization context and of the tag registries (truncated
    input, unknown tag); [IndexError] is Python's error for [l[-1]] on an
    empty list; [RuntimeError] is raised by a dict iterator whose dict changed
    size; [RecursionError] marks an exhausted recursion budget;
    [ReferenceError] marks the use of a reference that the store does not
    hold, which no Python program can form. *)
Inductive exn :=
  | ValueError
  | TypeError
  | IndexError
  | RuntimeError
  | DeserializationError
  | RecursionError
  | ReferenceError.

#[global] Instance exn_eq_decision : EqDecision exn.
Proof. solve_decision. Defined.

Inductive result (A : Type) :=
  | Ok (a : A)
  | Raise (e : exn).
Arguments Ok {A} a.
Arguments Raise {A} e.

#[global] Instance result_ret : MRet result := fun A a => Ok a.

#[global] Instance result_bind : MBind result := fun A B k r =>
  match r with
  | Ok a => k a
  | Raise e => Raise e
  end.

Definition is_raise {A} (r : result A) : bool :=
  match r with Ok _ => false | Raise _ => true end.

(** ** Python containers *)

Section containers.
Context {K V : Type} `{EqDecision K}.

(** [d[k]] on a dict kept in insertion order; [None] is [KeyError]. *)
Fixpoint dict_get (k : K) (d : list (K * V)) : option V :=
  match d with
  | [] => None
  | (k', v) :: d' => if decide (k = k') then Some v else dict_get k d'
  end.

(** [dict.__setitem__(d, k, v)]: an existing key keeps its position. *)
Fixpoint dict_set (k : K) (v : V) (d : list (K * V)) : list (K * V) :=
  match d with
  | [] => [(k, v)]
  | (k', v') :: d' =>
      if decide (k = k') then (k, v) :: d' else (k', v') :: dict_set k v d'
  end.

(** [d1 == d2] on dicts, given the [==] of the values. *)
Definition dict_eq (eqv : V -> V -> bool) (d1 d2 : list (K * V)) : bool :=
  bool_decide (length d1 = length d2)
  && forallb (fun kv => match dict_get kv.1 d2 with
                        | Some v' => eqv kv.2 v'
                        | None => false
                        end) d1.

(** [s.add(x)] and [s.update(other)] on a set kept as a duplicate-free
    list. *)
Definition set_add (x : K) (s : list K) : list K :=
  if decide (x ∈ s) then s else s ++ [x].

Definition set_update (s other : list K) : list K :=
  foldl (fun acc x => set_add x acc) s other.

(** [s1 == s2] on sets. *)
Definition set_eq (s1 s2 : list K) : bool :=
  bool_decide (length s1 = length s2)
  && forallb (fun x => bool_decide (x ∈ s2)) s1.
End containers.

Section sorted.
Context {A K : Type} (key : A -> K) (lt : K -> K -> bool).

(** [sorted(l, key=key)]: a stable sort that only uses [<] on the keys. *)
Fixpoint sorted_insert (x : A) (l : list A) : list A :=
  match l with
  | [] => [x]
  | y :: l' =>
      if lt (key y) (key x) then y :: sorted_insert x l' else x :: y :: l'
  end.

Definition sorted (l : list A) : list A := foldr sorted_insert [] l.

(** The order that [sorted] establishes. *)
Definition key_lt (x y : A) : Prop := lt (key x) (key y) = true.
End sorted.

(** ** The operation and attestation interfaces

    [opentimestamps.core.op] and [opentimestamps.core.notary] are imported by
    the module; the interfaces below are what [timestamp.py] uses of them. *)

(** Modelled from the spec: the operation catalogue of
    [opentimestamps.core.op] (section 4.A): application to a message, the
    total order used by [sorted], the bytes written by [op.serialize(ctx)]
    and the parse of [Op.deserialize_from_tag(ctx, tag)], which returns the
    operation and the unread input.  [OpSHA256], [OpAppend] and [OpPrepend]
    are the three operations the module names. *)
Class OpCatalogue (Op : Type) := {
  op_eq_dec :: EqDecision Op;
  op_call : Op -> bytes -> bytes;
  op_lt : Op -> Op -> bool;
  op_serialize : Op -> bytes;
  op_deserialize_from_tag : byte -> bytes -> option (Op * bytes);
  OpSHA256 : Op;
  OpAppend : bytes -> Op;
  OpPrepend : bytes -> Op;
}.

(** Modelled from the spec: the attestation interface of
    [opentimestamps.core.notary] (section 4.B): the total order used by
    [sorted], the bytes written by [attestation.serialize(ctx)] and the parse
    of [TimeAttestation.deserialize(ctx)]. *)
Class AttestationCatalogue (Att : Type) := {
  att_eq_dec :: EqDecision Att;
  att_lt : Att -> Att -> bool;
  att_serialize : Att -> bytes;
  att_deserialize : bytes -> option (Att * bytes);
}.

(** ** Timestamp trees *)

Section timestamp.
Context {Op Att : Type} `{OpCatalogue Op} `{AttestationCatalogue Att}.

#[warnings="-register-all"]
(** The slots of a [Timestamp]: [__msg], [attestations] (a set) and [ops]
    (an [OpSet], a dict from operations to timestamps). *)
Inductive Timestamp := mkTimestamp {
  msg : bytes;
  attestations : list Att;
  ops : list (Op * Timestamp);
}.

(** Values passed where a [Timestamp] is expected and tested with
    [isinstance]. *)
Inductive value :=
  | VTimestamp (t : Timestamp)
  | VBytes (b : bytes).

(** [Timestamp.__init__] *)
Definition new (m : bytes) : Timestamp := mkTimestamp m [] [].

(** [OpSet.__setitem__]; [msg_of] reads the [msg] of a stored timestamp. *)
Definition OpSet_setitem {T : Type} (msg_of : T -> bytes)
    (self : list (Op * T)) (op : Op) (new_timestamp : T)
    : result (list (Op * T)) :=
  match dict_get op self with
  | None => Ok (dict_set op new_timestamp self)
  | Some existing_timestamp =>
      if decide (msg_of existing_timestamp ≠ msg_of new_timestamp)
      then Raise ValueError
      else Ok (dict_set op new_timestamp self)
  end.

(** [OpSet.add] for the op set of a timestamp with message [m], whose
    factory is [lambda op: Timestamp(op(msg))].  Returns the value and the
    op set. *)
Definition OpSet_add (m : bytes) (self : list (Op * Timestamp)) (key : Op)
    : result (Timestamp * list (Op * Timestamp)) :=
  match dict_get key self with
  | Some v => Ok (v, self)
  | None =>
      let value := new (op_call key m) in
      self' ← OpSet_setitem msg self key value;
      Ok (value, self')
  end.

(** [Timestamp.__eq__] on two timestamps: [msg] and [ops] are compared,
    the latter with the [==] of dicts. *)
Fixpoint timestamp_eq (self other : Timestamp) : bool :=
  match self with
  | mkTimestamp m _ o =>
      bool_decide (m = msg other) && dict_eq timestamp_eq o (ops other)
  end.

(** [Timestamp.__eq__] *)
Definition eq_value (self : Timestamp) (other : value) : bool :=
  match other with
  | VTimestamp other => timestamp_eq self other
  | VBytes _ => false
  end.

(** The loop [for other_op, other_op_stamp in other.ops.items()] of
    [Timestamp.merge], over the items that are left; [merge] is the
    recursive call.  The child that the call changed in place is put back
    under its key. *)
Fixpoint merge_items
    (merge : Timestamp -> Timestamp -> Timestamp * result unit)
    (items : list (Op * Timestamp)) (self : Timestamp)
    : Timestamp * result unit :=
  match items with
  | [] => (self, Ok ())
  | (other_op, other_op_stamp) :: items' =>
      match OpSet_add (msg self) (ops self) other_op with
      | Raise e => (self, Raise e)
      | Ok (our_op_stamp, ops') =>
          let '(our_op_stamp', r) := merge our_op_stamp other_op_stamp in
          let self' := mkTimestamp (msg self) (attestations self)
                         (dict_set other_op our_op_stamp' ops') in
          match r with
          | Ok _ => merge_items merge items' self'
          | Raise e => (self', Raise e)
          end
      end
  end.

(** [Timestamp.merge] of two timestamps that share no node.  [self] is
    changed in place: the first component is [self] when the call returns
    or raises. *)
Fixpoint merge_timestamp (self other : Timestamp) {struct other}
    : Timestamp * result unit :=
  match other with
  | mkTimestamp other_msg other_attestations other_ops =>
      if decide (msg self ≠ other_msg) then (self, Raise ValueError) else
      merge_items (fun our_op_stamp other_op_stamp =>
                     merge_timestamp our_op_stamp other_op_stamp)
        other_ops
        (mkTimestamp (msg self)
           (set_update (attestations self) other_attestations) (ops self))
  end.

(** [Timestamp.merge] *)
Definition merge (self : Timestamp) (other : value)
    : Timestamp * result unit :=
  match other with
  | VTimestamp other => merge_timestamp self other
  | VBytes _ => (self, Raise TypeError)
  end.

(** *** Serialization *)

(** A serialization context that is written to: the bytes written, and
    whether the writer returned or raised. *)
Definition writer : Type := bytes * result unit.

Definition write_bytes (b : bytes) : writer := (b, Ok ()).

Definition writer_raise (e : exn) : writer := ([], Raise e).

Definition writer_seq (w1 w2 : writer) : writer :=
  match w1 with
  | (b1, Ok _) => (b1 ++ w2.1, w2.2)
  | (b1, Raise e) => (b1, Raise e)
  end.

Definition writer_for {A} (l : list A) (body : A -> writer) : writer :=
  foldr (fun x w => writer_seq (body x) w) (write_bytes []) l.

(** [Timestamp.serialize].  The writers of the children are formed before
    the items are sorted, so that the recursion is structural; a writer is a
    value, and nothing is written before it is sequenced. *)
Fixpoint serialize (self : Timestamp) : writer :=
  match self with
  | mkTimestamp _ self_attestations self_ops =>
      if bool_decide (length self_attestations = 0)
         && bool_decide (length self_ops = 0)
      then writer_raise ValueError
      else
        let sorted_attestations := sorted id att_lt self_attestations in
        writer_seq
          (if bool_decide (1 < length sorted_attestations)
           then writer_for (removelast sorted_attestations) (fun attestation =>
                  writer_seq (write_bytes [xff; x00])
                             (write_bytes (att_serialize attestation)))
           else write_bytes [])
          (if bool_decide (length self_ops = 0)
           then
             writer_seq (write_bytes [x00])
               (match last sorted_attestations with
                | Some attestation => write_bytes (att_serialize attestation)
                | None => writer_raise IndexError
                end)
           else
             writer_seq
               (if bool_decide (0 < length sorted_attestations)
                then
                  writer_seq (write_bytes [xff; x00])
                    (match last sorted_attestations with
                     | Some attestation =>
                         write_bytes (att_serialize attestation)
                     | None => writer_raise IndexError
                     end)
                else write_bytes [])
               (let sorted_ops :=
                  sorted fst op_lt
                    ((fun item => (item.1, serialize item.2)) <$> self_ops) in
                writer_seq
                  (writer_for (removelast sorted_ops) (fun item =>
                     writer_seq (write_bytes [xff])
                       (writer_seq (write_bytes (op_serialize item.1))
                                   item.2)))
                  (match last sorted_ops with
                   | Some (last_op, last_stamp) =>
                       writer_seq (write_bytes (op_serialize last_op))
                                  last_stamp
                   | None => writer_raise IndexError
                   end)))
  end.

(** *** Deserialization *)

(** [ctx.read_bytes(1)] on the unread input. *)
Definition read_byte (ctx : bytes) : result (byte * bytes) :=
  match ctx with
  | [] => Raise DeserializationError
  | b :: ctx' => Ok (b, ctx')
  end.

Definition of_option {A} (o : option A) : result A :=
  match o with
  | Some a => Ok a
  | None => Raise DeserializationError
  end.

(** [do_tag_or_attestation], the local function of
    [Timestamp.deserialize]: reads one attestation, or one operation and
    its subtree, into [self].  [deserialize] is the recursive call. *)
Definition do_tag_or_attestation
    (deserialize : bytes -> bytes -> result (Timestamp * bytes))
    (initial_msg : bytes) (tag : byte) (self : Timestamp) (ctx : bytes)
    : result (Timestamp * bytes) :=
  if decide (tag = x00) then
    '(attestation, ctx) ← of_option (att_deserialize ctx);
    Ok (mkTimestamp (msg self)
          (set_add attestation (attestations self)) (ops self), ctx)
  else
    '(op, ctx) ← of_option (op_deserialize_from_tag tag ctx);
    '(stamp, ctx) ← deserialize ctx (op_call op initial_msg);
    ops' ← OpSet_setitem msg (ops self) op stamp;
    Ok (mkTimestamp (msg self) (attestations self) ops', ctx).

(** The body of [Timestamp.deserialize] after [self = cls(initial_msg)]:
    the [while tag == b'\xff'] loop and the last call of
    [do_tag_or_attestation].  [turns] bounds the turns of the loop. *)
Fixpoint read_items
    (do_tag : byte -> Timestamp -> bytes -> result (Timestamp * bytes))
    (turns : nat) (self : Timestamp) (ctx : bytes)
    : result (Timestamp * bytes) :=
  '(tag, ctx) ← read_byte ctx;
  if decide (tag = xff) then
    match turns with
    | 0 => Raise RecursionError
    | S turns' =>
        '(tag, ctx) ← read_byte ctx;
        '(self, ctx) ← do_tag tag self ctx;
        read_items do_tag turns' self ctx
    end
  else do_tag tag self ctx.

(** [Timestamp.deserialize].  [depth] bounds the recursion depth; the
    loop is bounded by the length of the unread input, since every turn
    reads at least two bytes.  Returns the timestamp and the unread
    input. *)
Fixpoint deserialize_depth (depth : nat) (ctx : bytes) (initial_msg : bytes)
    : result (Timestamp * bytes) :=
  match depth with
  | 0 => Raise RecursionError
  | S depth' =>
      read_items
        (do_tag_or_attestation (deserialize_depth depth') initial_msg)
        (length ctx) (new initial_msg) ctx
  end.

Definition deserialize (ctx : bytes) (initial_msg : bytes)
    : result (Timestamp * bytes) :=
  deserialize_depth (S (length ctx)) ctx initial_msg.
End timestamp.

Arguments Timestamp : clear implicits.
Arguments value : clear implicits.

Section all_attestations.
Context {Op Att : Type} `{OpCatalogue Op} `{AttestationCatalogue Att}.

(** [Timestamp.all_attestations]: the pairs that the generator yields, in
    the order in which it yields them: the attestations of the node with
    its message, then those of the children.  The sets and dicts are read
    in the order of the lists that stand for them. *)
Fixpoint all_attestations (self : Timestamp Op Att) : list (bytes * Att) :=
  match self with
  | mkTimestamp m a o =>
      ((fun attestation => (m, attestation)) <$> a)
      ++ mjoin ((fun item => all_attestations item.2) <$> o)
  end.
End all_attestations.

(** ** Serialization contexts *)

(** Modelled from the spec: [ctx.read_bytes(n)] (section 6), the next [n]
    bytes of the unread input, and an error when fewer are left. *)
Definition read_bytes (n : nat) (ctx : bytes) : result (bytes * bytes) :=
  if decide (length ctx < n) then Raise DeserializationError
  else Ok (take n ctx, drop n ctx).

Definition byte_of_nat (n : nat) : byte := default x00 (Byte.of_nat n).

(** Modelled from the spec: the base-128 varint of a length (section 6):
    groups of seven bits, the least significant group first, one group to
    a byte, and the high bit set on every byte but the last.  A number
    has fewer groups than [groups]. *)
Fixpoint write_varuint_groups (groups value : nat) : bytes :=
  match groups with
  | 0 => []
  | S groups' =>
      if decide (value < 128) then [byte_of_nat value]
      else byte_of_nat (128 + value `mod` 128)
           :: write_varuint_groups groups' (value `div` 128)
  end.

Definition write_varuint (value : nat) : bytes :=
  write_varuint_groups (S value) value.

(** Modelled from the spec: the parse of a varint (section 6), with the
    groups read so far in [value] and the weight of the next group in
    [scale]. *)
Fixpoint read_varuint_from (value scale : nat) (ctx : bytes)
    : result (nat * bytes) :=
  match ctx with
  | [] => Raise DeserializationError
  | b :: ctx' =>
      let value := value + (Byte.to_nat b `mod` 128) * scale in
      if decide (Byte.to_nat b < 128) then Ok (value, ctx')
      else read_varuint_from value (scale * 128) ctx'
  end.

Definition read_varuint (ctx : bytes) : result (nat * bytes) :=
  read_varuint_from 0 1 ctx.

(** Modelled from the spec: [ctx.write_varbytes(value)] (section 6), the
    varint of the length and then the bytes. *)
Definition write_varbytes (value : bytes) : bytes :=
  write_varuint (length value) ++ value.

(** Modelled from the spec: [ctx.read_varbytes(max_len, min_len)] (section
    6): a length outside the bounds is an error. *)
Definition read_varbytes (max_len min_len : nat) (ctx : bytes)
    : result (bytes * bytes) :=
  '(l, ctx) ← read_varuint ctx;
  if decide (max_len < l) then Raise DeserializationError else
  if decide (l < min_len) then Raise DeserializationError else
  read_bytes l ctx.

(** Modelled from the spec: the crypto operations of
    [opentimestamps.core.op] (sections 4.F and 6): [isinstance(op, CryptOp)]
    and the parse of [CryptOp.deserialize(ctx)]. *)
Class CryptOpCatalogue (Op : Type) := {
  is_crypt_op : Op -> bool;
  crypt_op_deserialize : bytes -> option (Op * bytes);
}.

(** ** Detached timestamp files *)

Module Detached.

(** What [DetachedTimestampFile.deserialize] does: it returns, raises
    [BadMagicError(expected, actual)], or raises what the context or
    [Timestamp.deserialize] raised. *)
Inductive outcome (A : Type) :=
  | Return (a : A)
  | BadMagicError (expected actual : bytes)
  | Failure (e : exn).
Arguments Return {A} a.
Arguments BadMagicError {A} expected actual.
Arguments Failure {A} e.

#[global] Instance outcome_ret : MRet outcome := fun A a => Return a.

#[global] Instance outcome_bind : MBind outcome := fun A B k r =>
  match r with
  | Return a => k a
  | BadMagicError expected actual => BadMagicError expected actual
  | Failure e => Failure e
  end.

Definition lift {A} (r : result A) : outcome A :=
  match r with
  | Ok a => Return a
  | Raise e => Failure e
  end.

Section detached.
Context {Op Att : Type} `{OpCatalogue Op} `{AttestationCatalogue Att}.
Context `{CryptOpCatalogue Op}.

(** The slots of a [DetachedTimestampFile]. *)
Record DetachedTimestampFile := mkDetachedTimestampFile {
  file_hash_op : Op;
  timestamp : Timestamp Op Att;
}.

Definition HEADER_MAGIC : bytes :=
  [x00; x4f; x70; x65; x6e; x54; x69; x6d; x65; x73; x74; x61; x6d; x70;
   x73; x00; x00; x50; x72; x6f; x6f; x66; x00; xbf; x89; xe2; xe8; x84;
   xe8; x92; x94; x00].

Definition MIN_FILE_DIGEST_LENGTH : nat := 20.
Definition MAX_FILE_DIGEST_LENGTH : nat := 32.

(** [file_digest] *)
Definition file_digest (self : DetachedTimestampFile) : bytes :=
  msg (timestamp self).

(** Modelled from the spec: [file_hash_op.hash_fd(fd)], the digest under
    the operation of the bytes that [fd] yields (section 3). *)
Definition hash_fd (file_hash_op : Op) (fd : bytes) : bytes :=
  op_call file_hash_op fd.

(** [DetachedTimestampFile.from_fd] *)
Definition from_fd (file_hash_op : Op) (fd : bytes) : DetachedTimestampFile :=
  let fd_hash := hash_fd file_hash_op fd in
  mkDetachedTimestampFile file_hash_op (new fd_hash).

(** [DetachedTimestampFile.serialize] *)
Definition serialize (self : DetachedTimestampFile) : writer :=
  writer_seq (write_bytes HEADER_MAGIC)
    (writer_seq (write_bytes (write_varbytes (msg (timestamp self))))
       (writer_seq (write_bytes (op_serialize (file_hash_op self)))
          (serialize (timestamp self)))).

(** [DetachedTimestampFile.deserialize] *)
Definition deserialize (ctx : bytes)
    : outcome (DetachedTimestampFile * bytes) :=
  '(header_magic, ctx) ← lift (read_bytes (length HEADER_MAGIC) ctx);
  if decide (header_magic ≠ HEADER_MAGIC)
  then BadMagicError HEADER_MAGIC header_magic else
  '(file_hash, ctx) ← lift (read_varbytes MAX_FILE_DIGEST_LENGTH
                              MIN_FILE_DIGEST_LENGTH ctx);
  '(file_hash_op, ctx) ← lift (of_option (crypt_op_deserialize ctx));
  '(timestamp, ctx) ← lift (deserialize ctx file_hash);
  mret (mkDetachedTimestampFile file_hash_op timestamp, ctx).
End detached.

Arguments DetachedTimestampFile : clear implicits.
End Detached.

(** ** Timestamps as objects in a store *)

Module Store.
(** A reference to a [Timestamp] object. *)
Abbreviation ref := nat.

Section store.
Context {Op Att : Type} `{OpCatalogue Op} `{AttestationCatalogue Att}.

(** A [Timestamp] object: its [ops] hold references to the children. *)
Record object := mkObject {
  obj_msg : bytes;
  obj_attestations : list Att;
  obj_ops : list (Op * ref);
}.

(** The store: every object ever created, in order of creation. *)
#[local] Abbreviation store := (list object).

(** An argument that is a [Timestamp] or [bytes], told apart with
    [isinstance]. *)
Inductive arg :=
  | ATimestamp (r : ref)
  | ABytes (b : bytes).

(** Code that changes the store and returns or raises; the store survives
    an exception. *)
Definition state (A : Type) : Type := store -> store * result A.

#[global] Instance state_ret : MRet state := fun A a h => (h, Ok a).

#[global] Instance state_bind : MBind state := fun A B k c h =>
  match c h with
  | (h', Ok a) => k a h'
  | (h', Raise e) => (h', Raise e)
  end.

Definition raise {A} (e : exn) : state A := fun h => (h, Raise e).

Definition get (r : ref) : state object := fun h =>
  match h !! r with
  | Some o => (h, Ok o)
  | None => (h, Raise ReferenceError)
  end.

Definition put (r : ref) (o : object) : state unit := fun h =>
  (<[r := o]> h, Ok ()).

Definition alloc (o : object) : state ref := fun h =>
  (h ++ [o], Ok (length h)).

(** [t.msg] of the timestamp at [r]. *)
Definition msg_of (h : store) (r : ref) : bytes :=
  from_option obj_msg [] (h !! r).

(** [Timestamp(msg)] *)
Definition new (m : bytes) : state ref := alloc (mkObject m [] []).

(** [self.attestations.add(attestation)] *)
Definition attestations_add (self : ref) (attestation : Att) : state unit :=
  o ← get self;
  put self (mkObject (obj_msg o) (set_add attestation (obj_attestations o))
              (obj_ops o)).

(** [self.ops[op] = new_timestamp], that is [OpSet.__setitem__] on the op
    set of the timestamp at [self]. *)
Definition setitem (self : ref) (op : Op) (new_timestamp : ref)
    : state unit := fun h =>
  match h !! self with
  | None => (h, Raise ReferenceError)
  | Some o =>
      match OpSet_setitem (msg_of h) (obj_ops o) op new_timestamp with
      | Raise e => (h, Raise e)
      | Ok ops' =>
          (<[self := mkObject (obj_msg o) (obj_attestations o) ops']> h,
           Ok ())
      end
  end.

(** [self.ops.add(key)], that is [OpSet.add] on the op set of the timestamp
    at [self], whose factory is [lambda op: Timestamp(op(msg))]. *)
Definition add (self : ref) (key : Op) : state ref :=
  o ← get self;
  match dict_get key (obj_ops o) with
  | Some v => mret v
  | None =>
      value ← new (op_call key (obj_msg o));
      _ ← setitem self key value;
      mret value
  end.

(** The loop [for other_op, other_op_stamp in other.ops.items()] of
    [Timestamp.merge], with [todo] of the [size] items left.  The items
    are read from the live dict: the iterator raises when the dict has
    changed size since the loop began.  [merge] is the recursive call. *)
Fixpoint merge_items (merge : ref -> ref -> state unit)
    (self other : ref) (size todo : nat) : state unit :=
  o ← get other;
  if decide (length (obj_ops o) ≠ size) then raise RuntimeError else
  match todo with
  | 0 => mret ()
  | S todo' =>
      match obj_ops o !! (size - todo) with
      | None => mret ()
      | Some (other_op, other_op_stamp) =>
          our_op_stamp ← add self other_op;
          _ ← merge our_op_stamp other_op_stamp;
          merge_items merge self other size todo'
      end
  end.

(** [Timestamp.merge] in place.  [depth] bounds the recursion depth. *)
Fixpoint merge_timestamp (depth : nat) (self other : ref) : state unit :=
  match depth with
  | 0 => raise RecursionError
  | S depth' =>
      s ← get self;
      o ← get other;
      if decide (obj_msg s ≠ obj_msg o) then raise ValueError else
      _ ← put self (mkObject (obj_msg s)
                      (set_update (obj_attestations s) (obj_attestations o))
                      (obj_ops s));
      o ← get other;
      merge_items (merge_timestamp depth') self other
        (length (obj_ops o)) (length (obj_ops o))
  end.

(** [Timestamp.merge] *)
Definition merge (depth : nat) (self : ref) (other : arg) : state unit :=
  match other with
  | ATimestamp other => merge_timestamp depth self other
  | ABytes _ => raise TypeError
  end.

(** The objects of the children of a tree built afresh; [allocate] is the
    recursive call. *)
Fixpoint allocate_items (allocate : Timestamp Op Att -> state ref)
    (l : list (Op * Timestamp Op Att)) : state (list (Op * ref)) :=
  match l with
  | [] => mret []
  | (op, child) :: l' =>
      r ← allocate child;
      rs ← allocate_items allocate l';
      mret ((op, r) :: rs)
  end.

(** The objects of a timestamp tree built afresh. *)
Fixpoint allocate (t : Timestamp Op Att) : state ref :=
  match t with
  | mkTimestamp m a o =>
      children ← allocate_items (fun child => allocate child) o;
      alloc (mkObject m a children)
  end.

(** [Timestamp.deserialize]: the objects of the decoded tree are new. *)
Definition deserialize (ctx : bytes) (initial_msg : bytes)
    : state (ref * bytes) :=
  match deserialize ctx initial_msg with
  | Ok (t, ctx') => r ← allocate t; mret (r, ctx')
  | Raise e => raise e
  end.

(** [if not isinstance(x, Timestamp): x = Timestamp(x)] *)
Definition as_timestamp (x : arg) : state ref :=
  match x with
  | ATimestamp r => mret r
  | ABytes b => new b
  end.

(** The body of [cat_then_unary_op] once [left] and [right] are
    timestamps; [unary_op] is the operation [unary_op_cls()]. *)
Definition cat_timestamps (unary_op : Op) (left right : ref) : state ref :=
  r ← get right;
  left_append_stamp ← add left (OpAppend (obj_msg r));
  l ← get left;
  right_prepend_stamp ← add right (OpPrepend (obj_msg l));
  r ← get right;
  _ ← setitem left (OpAppend (obj_msg r)) right_prepend_stamp;
  add right_prepend_stamp unary_op.

(** [cat_then_unary_op] *)
Definition cat_then_unary_op (unary_op : Op) (left right : arg)
    : state ref :=
  left ← as_timestamp left;
  right ← as_timestamp right;
  cat_timestamps unary_op left right.

Definition cat_sha256 (left right : arg) : state ref :=
  cat_then_unary_op OpSHA256 left right.

Definition cat_sha256d (left right : arg) : state ref :=
  sha256_timestamp ← cat_sha256 left right;
  add sha256_timestamp OpSHA256.

(** The [for stamp in stamps] loop of [make_merkle_tree], from the current
    [next_stamps] and [prev_stamp]. *)
Fixpoint pair_stamps (stamps : list arg) (next_stamps : list arg)
    (prev_stamp : option arg) : state (list arg * option arg) :=
  match stamps with
  | [] => mret (next_stamps, prev_stamp)
  | stamp :: stamps' =>
      match prev_stamp with
      | Some prev =>
          t ← cat_sha256 prev stamp;
          pair_stamps stamps' (next_stamps ++ [ATimestamp t]) None
      | None => pair_stamps stamps' next_stamps (Some stamp)
      end
  end.

(** [make_merkle_tree]; the body calls [cat_sha256] and never reads its
    [binop] argument.  [rounds] bounds the turns of the [while True] loop.
    The result is [prev_stamp], which is [None] or a timestamp. *)
Fixpoint make_merkle_tree_rounds (rounds : nat) (stamps : list arg)
    : state (option arg) :=
  match rounds with
  | 0 => raise RecursionError
  | S rounds' =>
      match stamps with
      | [] => raise ValueError
      | prev_stamp :: stamps =>
          '(next_stamps, prev_stamp) ←
            pair_stamps stamps [] (Some prev_stamp);
          match next_stamps with
          | [] => mret prev_stamp
          | _ :: _ =>
              make_merkle_tree_rounds rounds'
                (match prev_stamp with
                 | Some prev => next_stamps ++ [prev]
                 | None => next_stamps
                 end)
          end
      end
  end.

Definition make_merkle_tree (timestamps : list arg) : state (option arg) :=
  make_merkle_tree_rounds (S (length timestamps)) timestamps.
End store.

Arguments object : clear implicits.
Arguments state : clear implicits.

(** The store: every object ever created, in order of creation. *)
Abbreviation store Op Att := (list (object Op Att)).
End Store.

(** ** Properties of timestamp trees *)

Section properties.
Context {Op Att : Type} `{OpCatalogue Op} `{AttestationCatalogue Att}.

(** The lists of a tree stand for a Python set and a Python dict: no
    attestation and no key occurs twice, at any depth. *)
Fixpoint containers_ok (t : Timestamp Op Att) : bool :=
  match t with
  | mkTimestamp _ a o =>
      bool_decide (NoDup a) && bool_decide (NoDup o.*1)
      && forallb (fun item => containers_ok item.2) o
  end.

(** The child-message invariant: every child of every node carries the
    message [op(msg)] of its parent. *)
Fixpoint child_msgs_ok (t : Timestamp Op Att) : bool :=
  match t with
  | mkTimestamp m _ o =>
      forallb (fun item => bool_decide (msg item.2 = op_call item.1 m)
                           && child_msgs_ok item.2) o
  end.

(** A timestamp of the data model: its containers are a set and a dict,
    and the child-message invariant holds. *)
Definition well_formed (t : Timestamp Op Att) : bool :=
  containers_ok t && child_msgs_ok t.

(** Every node has an attestation or an operation. *)
Fixpoint nonempty_ok (t : Timestamp Op Att) : bool :=
  match t with
  | mkTimestamp _ a o =>
      negb (bool_decide (a = []) && bool_decide (o = []))
      && forallb (fun item => nonempty_ok item.2) o
  end.

(** Modelled from the spec: the equality of section 4.D, which compares
    [msg], the attestation sets and the op maps at every level.  It is the
    property that equality claims are stated with; [timestamp_eq] is the
    code. *)
Fixpoint equals (self other : Timestamp Op Att) : bool :=
  match self with
  | mkTimestamp m a o =>
      bool_decide (m = msg other)
      && set_eq a (attestations other)
      && dict_eq equals o (ops other)
  end.

(** The tree with its attestations and operations in sorted order, at every
    level. *)
Fixpoint normalize (t : Timestamp Op Att) : Timestamp Op Att :=
  match t with
  | mkTimestamp m a o =>
      mkTimestamp m (sorted id att_lt a)
        (sorted fst op_lt ((fun item => (item.1, normalize item.2)) <$> o))
  end.

(** The items of a node in the order of the byte stream: the sorted
    attestations, then the sorted operations with their children. *)
Definition items (t : Timestamp Op Att)
    : list (Att + Op * Timestamp Op Att) :=
  (inl <$> sorted id att_lt (attestations t))
  ++ (inr <$> sorted fst op_lt (ops t)).

(** The bytes of an item after its [ff], if any. *)
Definition item_bytes (i : Att + Op * Timestamp Op Att) : bytes :=
  match i with
  | inl a => x00 :: att_serialize a
  | inr (op, child) => op_serialize op ++ (serialize child).1
  end.

(** The byte stream of the items of a node: every item but the last
    comes after [ff]. *)
Definition items_bytes (its : list (Att + Op * Timestamp Op Att)) : bytes :=
  mjoin ((fun i => xff :: item_bytes i) <$> removelast its)
  ++ from_option item_bytes [] (last its).

(** What reading an item does to the timestamp being built. *)
Definition read_item (self : Timestamp Op Att)
    (i : Att + Op * Timestamp Op Att) : Timestamp Op Att :=
  match i with
  | inl a =>
      mkTimestamp (msg self) (set_add a (attestations self)) (ops self)
  | inr (op, child) =>
      mkTimestamp (msg self) (attestations self)
        (dict_set op (normalize child) (ops self))
  end.

(** An item that [do_tag_or_attestation] can read into a timestamp with
    message [m], given the recursive call [des]. *)
Definition readable
    (des : bytes -> bytes -> result (Timestamp Op Att * bytes))
    (m : bytes) (i : Att + Op * Timestamp Op Att) : Prop :=
  match i with
  | inl _ => True
  | inr (op, child) =>
      msg child = op_call op m
      ∧ ∀ rest, des ((serialize child).1 ++ rest) (op_call op m)
                = Ok (normalize child, rest)
  end.

(** The children of [self] carry the messages of the operations on [m]. *)
Definition ops_on (m : bytes) (self : Timestamp Op Att) : Prop :=
  Forall (fun item => msg item.2 = op_call item.1 m) (ops self).

(** A recursive call that returns and keeps the message and the data
    model. *)
Definition merges_well
    (merge : Timestamp Op Att -> Timestamp Op Att
             -> Timestamp Op Att * result unit) other : Prop :=
  ∀ our, well_formed our = true -> msg our = msg other ->
    (merge our other).2 = Ok ()
    ∧ msg (merge our other).1 = msg our
    ∧ well_formed (merge our other).1 = true.

(** The child under [op] after merging the child [c] of the other side. *)
Definition merged_child
    (merge : Timestamp Op Att -> Timestamp Op Att
             -> Timestamp Op Att * result unit)
    (m : bytes) d (op : Op) (c : Timestamp Op Att) : Timestamp Op Att :=
  (merge (default (new (op_call op m)) (dict_get op d)) c).1.

(** Modelled from the spec: the canonical encoding of a node of section
    4.E, from [A = sort(attestations)], [O = sort_by_op(ops)], [n = |A|] and
    [m = |O|]: [n'] attestations in the form [ff 00 payload], [m - 1]
    operations in the form [ff op child], and the terminal item. *)
Definition canonical_encoding (t : Timestamp Op Att) : writer :=
  let A := sorted id att_lt (attestations t) in
  let O := sorted fst op_lt (ops t) in
  let n := length A in
  let m := length O in
  if bool_decide (n + m = 0) then writer_raise ValueError else
  let n' := if bool_decide (0 < m) then n else n - 1 in
  writer_seq
    (writer_for (take n' A) (fun a =>
       write_bytes ([xff; x00] ++ att_serialize a)))
    (writer_seq
       (writer_for (take (m - 1) O) (fun item =>
          writer_seq (write_bytes ([xff] ++ op_serialize item.1))
                     (serialize item.2)))
       (if bool_decide (0 < m) then
          match last O with
          | Some (op, child) =>
              writer_seq (write_bytes (op_serialize op)) (serialize child)
          | None => writer_raise IndexError
          end
        else
          match last A with
          | Some a => write_bytes ([x00] ++ att_serialize a)
          | None => writer_raise IndexError
          end)).

(** The tree without its attestations, at every level. *)
Fixpoint without_attestations (t : Timestamp Op Att) : Timestamp Op Att :=
  match t with
  | mkTimestamp m _ o =>
      mkTimestamp m []
        ((fun item => (item.1, without_attestations item.2)) <$> o)
  end.

(** The node reached from [t] along the operations of [path]. *)
Fixpoint walk (t : Timestamp Op Att) (path : list Op)
    : option (Timestamp Op Att) :=
  match path with
  | [] => Some t
  | op :: path' => child ← dict_get op (ops t); walk child path'
  end.

(** The message that the operations of [path] compute from [m]. *)
Definition apply_path (m : bytes) (path : list Op) : bytes :=
  foldl (fun acc op => op_call op acc) m path.

(** A timestamp under construction for the message [m]: it is in the data
    model, and its children have no empty node. *)
Definition building (m : bytes) (self : Timestamp Op Att) : Prop :=
  msg self = m ∧ well_formed self = true
  ∧ Forall (fun item => nonempty_ok item.2 = true) (ops self).
(** The number of levels of a tree. *)
Fixpoint levels (t : Timestamp Op Att) : nat :=
  match t with
  | mkTimestamp _ _ o => S (max_list ((fun item => levels item.2) <$> o))
  end.

End properties.

(** ** Properties of stores *)

Section store_properties.
Context {Op Att : Type} `{OpCatalogue Op} `{AttestationCatalogue Att}.
Import Store.

(** The child-message invariant on objects: every entry of every op set
    refers to an object of the store whose message is [op(msg)] of the
    owner. *)
Definition store_ok (h : store Op Att) : bool :=
  forallb (fun o =>
    forallb (fun item =>
      match h !! item.2 with
      | Some child =>
          bool_decide (obj_msg child = op_call item.1 (obj_msg o))
      | None => false
      end) (obj_ops o)) h.

(** The entries of the op set of [o] refer to objects of [h] with the
    message [op(msg)]. *)
Definition entries_ok (h : store Op Att) (o : object Op Att) : Prop :=
  Forall (fun item =>
    ∃ child, h !! item.2 = Some child
             ∧ obj_msg child = op_call item.1 (obj_msg o)) (obj_ops o).

(** [store_ok] as a proposition. *)
Definition store_inv (h : store Op Att) : Prop := Forall (entries_ok h) h.

(** Objects stay, and keep their message. *)
Definition extends (h h' : store Op Att) : Prop :=
  ∀ r o, h !! r = Some o -> ∃ o', h' !! r = Some o' ∧ obj_msg o' = obj_msg o.

(** [t.ops[k]] for the timestamp at [r]. *)
Definition child_of (h : store Op Att) (r : ref) (k : Op) : option ref :=
  o ← h !! r; dict_get k (obj_ops o).

(** Objects stay, keep their message, and keep the entries of their op
    sets. *)
Definition grows (h h' : store Op Att) : Prop :=
  extends h h'
  ∧ ∀ r k c, child_of h r k = Some c -> child_of h' r k = Some c.

(** Running [c] in [h] keeps the invariant and the objects, a returned
    value satisfies [Q] in the store that results, and [c] returns when
    [V] holds. *)
Definition sound {A} (V : Prop) (h : store Op Att) (c : state Op Att A)
    (Q : A -> store Op Att -> Prop) : Prop :=
  store_inv (c h).1 ∧ extends h (c h).1
  ∧ (∀ a, (c h).2 = Ok a -> Q a (c h).1)
  ∧ (V -> ∃ a, (c h).2 = Ok a).

(** The outcome of [c] in [h] is not the exception [e]. *)
Definition never {A} (e : exn) (c : state Op Att A) (h : store Op Att)
    : Prop :=
  (c h).2 ≠ Raise e.

(** The message of an argument that is a timestamp or bytes. *)
Definition arg_msg (h : store Op Att) (x : arg) : option bytes :=
  match x with
  | ATimestamp r => obj_msg <$> h !! r
  | ABytes b => Some b
  end.

(** The object reached from [r] along the operations of [path]. *)
Fixpoint descend (h : store Op Att) (r : ref) (path : list Op) : option ref :=
  match path with
  | [] => Some r
  | op :: path' =>
      o ← h !! r;
      child ← dict_get op (obj_ops o);
      descend h child path'
  end.

(** The tree below the timestamp at [r], when it has fewer than [depth]
    levels; a shared object is read once for each path that reaches
    it. *)
Fixpoint tree_of (depth : nat) (h : store Op Att) (r : ref)
    : option (Timestamp Op Att) :=
  match depth with
  | 0 => None
  | S depth' =>
      o ← h !! r;
      children ← mapM (fun item : Op * ref =>
                         child ← tree_of depth' h item.2;
                         Some (item.1, child)) (obj_ops o);
      Some (mkTimestamp (obj_msg o) (obj_attestations o) children)
  end.

(** [q] is reached from [r] along some path of operations. *)
Definition reaches (h : store Op Att) (r q : ref) : Prop :=
  ∃ path, descend h r path = Some q.

(** [u] reaches one of the timestamps of the list [W]. *)
Definition covers (h : store Op Att) (W : list arg) (u : ref) : Prop :=
  ∃ q, ATimestamp q ∈ W ∧ reaches h u q.

(** The messages of the loop of [make_merkle_tree] that pairs the
    elements: what [pair_stamps] does, on messages alone. *)
Fixpoint pair_msgs (stamps next_stamps : list bytes)
    (prev_stamp : option bytes) : list bytes * option bytes :=
  match stamps with
  | [] => (next_stamps, prev_stamp)
  | stamp :: stamps' =>
      match prev_stamp with
      | Some prev =>
          pair_msgs stamps'
            (next_stamps ++ [op_call OpSHA256 (prev ++ stamp)]) None
      | None => pair_msgs stamps' next_stamps (Some stamp)
      end
  end.

(** The message of the tip of the Merkle mountain range over the messages
    [msgs]: what [make_merkle_tree] does, on messages alone. *)
Fixpoint merkle_msg_rounds (rounds : nat) (msgs : list bytes)
    : option bytes :=
  match rounds with
  | 0 => None
  | S rounds' =>
      match msgs with
      | [] => None
      | prev_stamp :: stamps =>
          let '(next_stamps, prev_stamp) :=
            pair_msgs stamps [] (Some prev_stamp) in
          match next_stamps with
          | [] => prev_stamp
          | _ :: _ =>
              merkle_msg_rounds rounds'
                (match prev_stamp with
                 | Some prev => next_stamps ++ [prev]
                 | None => next_stamps
                 end)
          end
      end
  end.

Definition merkle_msg (msgs : list bytes) : option bytes :=
  merkle_msg_rounds (S (length msgs)) msgs.

(** Every timestamp of [h] is in [h'] with its message, its attestations
    and the entries of its op set. *)
Definition keeps (h h' : store Op Att) : Prop :=
  ∀ r o, h !! r = Some o ->
    ∃ o', h' !! r = Some o' ∧ obj_msg o' = obj_msg o
          ∧ (∀ a, a ∈ obj_attestations o -> a ∈ obj_attestations o')
          ∧ ∀ k c, dict_get k (obj_ops o) = Some c
                   -> dict_get k (obj_ops o') = Some c.

(** Code that keeps what the timestamps hold, whether it returns or
    raises. *)
Definition keeping {A} (c : state Op Att A) : Prop :=
  ∀ h, keeps h (c h).1.

(** The objects of the children of a timestamp whose op set [l] holds the
    trees [o] under the same keys, in the same order; [footprint] is the
    recursive call. *)
Fixpoint footprint_items
    (footprint : Timestamp Op Att -> ref -> option (list ref))
    (o : list (Op * Timestamp Op Att)) (l : list (Op * ref))
    : option (list ref) :=
  match o, l with
  | [], [] => Some []
  | (op, t) :: o', (op', r) :: l' =>
      if decide (op = op') then
        F1 ← footprint t r;
        F2 ← footprint_items footprint o' l';
        Some (F1 ++ F2)
      else None
  | _, _ => None
  end.

(** [footprint h t r] is [Some F] when the timestamp at [r] in [h] is the
    tree [t]: the same message and attestations, and under each operation
    a timestamp that is the child of [t].  [F] lists the objects of the
    nodes, one entry for every path from [r], so it has no duplicates
    exactly when no object is shared. *)
Fixpoint footprint (h : store Op Att) (t : Timestamp Op Att) (r : ref)
    : option (list ref) :=
  match t with
  | mkTimestamp m a o =>
      obj ← h !! r;
      if decide (obj_msg obj = m ∧ obj_attestations obj = a) then
        F ← footprint_items (fun child => footprint h child) o (obj_ops obj);
        Some (r :: F)
      else None
  end.
(** A run from [h] with the outcome [res] has turned the timestamp at [a],
    whose objects were [F], into the tree [t'], on objects of [F] and new
    objects, and has left the other objects of [h] as they were. *)
Definition turns_into (run : store Op Att * result unit) (h : store Op Att)
    (a : ref) (F : list ref) (t' : Timestamp Op Att) (res : result unit)
    : Prop :=
  ∃ h' F',
    run = (h', res) ∧ footprint h' t' a = Some F' ∧ NoDup F'
    ∧ (∀ x, x ∈ F' -> x ∈ F ∨ length h ≤ x)
    ∧ (∀ x, x < length h -> x ∉ F -> h' !! x = h !! x)
    ∧ length h ≤ length h'.
(** The public operations that build and change timestamps. *)
Inductive call :=
  | CallNew (m : bytes)
  | CallAttestationsAdd (self : ref) (attestation : Att)
  | CallOpsAdd (self : ref) (key : Op)
  | CallMerge (depth : nat) (self : ref) (other : arg)
  | CallDeserialize (ctx : bytes) (initial_msg : bytes)
  | CallCatThenUnaryOp (unary_op : Op) (left right : arg)
  | CallCatSha256 (left right : arg)
  | CallCatSha256d (left right : arg)
  | CallMakeMerkleTree (timestamps : list arg).

(** The store after a call, whether it returned or raised. *)
Definition run (h : store Op Att) (c : call) : store Op Att :=
  match c with
  | CallNew m => (new m h).1
  | CallAttestationsAdd self a => (attestations_add self a h).1
  | CallOpsAdd self key => (add self key h).1
  | CallMerge depth self other => (merge depth self other h).1
  | CallDeserialize ctx m => (deserialize ctx m h).1
  | CallCatThenUnaryOp u l r => (cat_then_unary_op u l r h).1
  | CallCatSha256 l r => (cat_sha256 l r h).1
  | CallCatSha256d l r => (cat_sha256d l r h).1
  | CallMakeMerkleTree l => (make_merkle_tree l h).1
  end.

(** The store after a program of calls that starts with no object. *)
Definition run_all (cs : list call) : store Op Att := foldl run [] cs.
End store_properties.

(** ** The contracts of the interfaces *)

(** A strict total order, as [sorted] needs it for a canonical result. *)
Class StrictTotal {A : Type} (lt : A -> A -> bool) : Prop := {
  lt_irrefl x : lt x x = false;
  lt_trans x y z : lt x y = true -> lt y z = true -> lt x z = true;
  lt_total x y : x ≠ y -> lt x y = true ∨ lt y x = true;
}.

(** Modelled from the spec: the codec contract of operations (sections 4.A
    and 6): an operation is written as a tag byte other than [00] and [ff],
    then its payload, and [deserialize_from_tag] is the inverse given the
    tag. *)
Class OpCodec {Op : Type} `{OpCatalogue Op} : Prop := {
  op_codec op rest :
    ∃ tag payload,
      op_serialize op = tag :: payload ∧ tag ≠ x00 ∧ tag ≠ xff
      ∧ op_deserialize_from_tag tag (payload ++ rest) = Some (op, rest);
}.

(** Modelled from the spec: append and prepend concatenate their payload on
    one side of the message (section 3). *)
Class OpConcat {Op : Type} `{OpCatalogue Op} : Prop := {
  op_call_append b m : op_call (OpAppend b) m = m ++ b;
  op_call_prepend b m : op_call (OpPrepend b) m = b ++ m;
}.

(** Modelled from the spec: the codec contract of attestations (section
    4.B): [deserialize] is the inverse of [serialize]. *)
Class AttCodec {Att : Type} `{AttestationCatalogue Att} : Prop := {
  att_codec a rest : att_deserialize (att_serialize a ++ rest) = Some (a, rest);
}.

(** Modelled from the spec: the codec contract of crypto operations
    (sections 4.F and 6): [CryptOp.deserialize] reads what a crypto
    operation writes, and returns crypto operations only. *)
Class CryptOpCodec {Op : Type} `{OpCatalogue Op} `{CryptOpCatalogue Op}
    : Prop := {
  crypt_op_codec op rest :
    is_crypt_op op = true ->
    crypt_op_deserialize (op_serialize op ++ rest) = Some (op, rest);
  crypt_op_deserialize_crypt ctx op rest :
    crypt_op_deserialize ctx = Some (op, rest) -> is_crypt_op op = true;
}.

(** ** A small catalogue

    Three operations and one-byte attestations, on which the statements
    below are exercised.  Payloads are written byte by byte, each after
    [01], and closed by [00]. *)

Module Demo.
Inductive op :=
  | SHA256
  | Append (b : bytes)
  | Prepend (b : bytes).

#[global] Instance op_eq_decision : EqDecision op.
Proof. solve_decision. Defined.

#[global] Instance byte_countable : Countable byte :=
  inj_countable Byte.to_N Byte.of_N Byte.of_to_N.

#[global] Instance op_countable : Countable op :=
  inj_countable'
    (fun o => match o with
              | SHA256 => inl ()
              | Append b => inr (inl b)
              | Prepend b => inr (inr b)
              end)
    (fun s => match s with
              | inl _ => SHA256
              | inr (inl b) => Append b
              | inr (inr b) => Prepend b
              end)
    (fun o => match o with
              | SHA256 => eq_refl
              | Append _ => eq_refl
              | Prepend _ => eq_refl
              end).

(** A stand-in for the digest: any function of the message will do. *)
Definition digest (m : bytes) : bytes := x08 :: rev m.

Definition write_payload (b : bytes) : bytes :=
  mjoin ((fun x => [x01; x]) <$> b) ++ [x00].

Fixpoint read_payload (ctx : bytes) : option (bytes * bytes) :=
  match ctx with
  | x00 :: rest => Some ([], rest)
  | x01 :: x :: ctx' =>
      match read_payload ctx' with
      | Some (b, rest) => Some (x :: b, rest)
      | None => None
      end
  | _ => None
  end.

#[global] Instance op_catalogue : OpCatalogue op := {|
  op_call o m :=
    match o with
    | SHA256 => digest m
    | Append b => m ++ b
    | Prepend b => b ++ m
    end;
  op_lt x y := bool_decide (encode x < encode y)%positive;
  op_serialize o :=
    match o with
    | SHA256 => [x08]
    | Append b => xf0 :: write_payload b
    | Prepend b => xf1 :: write_payload b
    end;
  op_deserialize_from_tag tag ctx :=
    if decide (tag = x08) then Some (SHA256, ctx)
    else if decide (tag = xf0) then
      '(b, rest) ← read_payload ctx; Some (Append b, rest)
    else if decide (tag = xf1) then
      '(b, rest) ← read_payload ctx; Some (Prepend b, rest)
    else None;
  OpSHA256 := SHA256;
  OpAppend := Append;
  OpPrepend := Prepend;
|}.

#[global] Instance att_catalogue : AttestationCatalogue byte := {|
  att_lt x y := bool_decide (encode x < encode y)%positive;
  att_serialize a := [a];
  att_deserialize ctx :=
    match ctx with
    | a :: rest => Some (a, rest)
    | [] => None
    end;
|}.
#[global] Instance crypt_op_catalogue : CryptOpCatalogue op := {|
  is_crypt_op o := match o with SHA256 => true | _ => false end;
  crypt_op_deserialize ctx :=
    match ctx with
    | x08 :: rest => Some (SHA256, rest)
    | _ => None
    end;
|}.


(** Timestamps and stores for the examples. *)
Definition leaf (m : bytes) (a : list byte) : Timestamp op byte :=
  mkTimestamp m a [].

Definition tree : Timestamp op byte :=
  mkTimestamp [x01] [x62; x61]
    [(Append [x02], leaf [x01; x02] [x63]);
     (SHA256, mkTimestamp (digest [x01]) [x64]
                [(Prepend [x05], leaf [x05; x08; x01] [x65])])].

Definition tree' : Timestamp op byte :=
  mkTimestamp [x01] [x61; x66]
    [(SHA256, leaf (digest [x01]) [x67]);
     (Prepend [x03], leaf [x03; x01] [x68])].

(** Two leaf objects, with the messages [01] and [02]. *)
Definition two_leaves : Store.store op byte :=
  [Store.mkObject [x01] [] []; Store.mkObject [x02] [] []].

(** Two leaf objects, the second of which does not carry the digest of
    the message of the first. *)
Definition parent_and_stranger : Store.store op byte :=
  [Store.mkObject [x01] [] []; Store.mkObject [x09] [] []].

(** A program of public calls: two leaves, their concatenation, an
    attestation on the tip, a decoded timestamp and a merge. *)
Definition program : list (call (Op := op) (Att := byte)) :=
  [CallNew [x01]; CallNew [x02];
   CallCatSha256 (Store.ATimestamp 0) (Store.ATimestamp 1);
   CallAttestationsAdd 4 x61;
   CallDeserialize [x08; x00; x62] [x01];
   CallMerge 8 0 (Store.ATimestamp 6)].
(** [tree] and [tree'] built as objects, and the first merged with the
    second. *)
Definition merged_objects : Store.store op byte * result Store.ref :=
  (a ← Store.allocate tree;
   b ← Store.allocate tree';
   _ ← Store.merge 8 a (Store.ATimestamp b);
   mret a) [].
(** [tree] with its sets and dicts filled in another order. *)
Definition tree_reordered : Timestamp op byte :=
  mkTimestamp [x01] [x61; x62]
    [(SHA256, mkTimestamp (digest [x01]) [x64]
                [(Prepend [x05], leaf [x05; x08; x01] [x65])]);
     (Append [x02], leaf [x01; x02] [x63])].
(** A left and a right timestamp that each hold a child for their
    concatenation already: two objects with the message [01 02], the one
    of the left with an attestation. *)
Definition left_and_right : Store.store op byte :=
  [Store.mkObject [x01] [] [(Append [x02], 2)];
   Store.mkObject [x02] [] [(Prepend [x01], 3)];
   Store.mkObject [x01; x02] [x61] [];
   Store.mkObject [x01; x02] [] []].
(** The detached file of a file of 19 bytes, with an attestation on its
    digest, and a file whose digest is one byte long. *)
Definition detached_file : Detached.DetachedTimestampFile op byte :=
  Detached.mkDetachedTimestampFile SHA256
    (leaf (digest (replicate 19 x01)) [x61]).
Definition short_digest_file : Detached.DetachedTimestampFile op byte :=
  Detached.mkDetachedTimestampFile SHA256 (leaf [x01] [x61]).
(** [tree] and [tree'] built as objects of their own. *)
Definition two_trees : Store.store op byte :=
  ((a ← Store.allocate tree; Store.allocate tree') []).1.
(** A timestamp for [01] with two children that [cat_sha256] has joined in
    one object, and a tree of its own for [01], with an attestation where
    the first holds the joined object. *)
Definition diamond_and_tree : Store.store op byte :=
  run_all
    [CallNew [x01];
     CallOpsAdd 0 (Append [x0a]);
     CallOpsAdd 0 (Append [x0b]);
     CallCatSha256 (Store.ATimestamp 1) (Store.ATimestamp 2);
     CallNew [x01];
     CallOpsAdd 6 (Append [x0a]);
     CallOpsAdd 7 (Append [x01; x0b]);
     CallAttestationsAdd 8 x61].
(** A timestamp whose child under the empty append, and the child of that
    child, carry its own message. *)
Definition nested_same_message : Store.store op byte :=
  run_all
    [CallNew [x01];
     CallOpsAdd 0 (Append []);
     CallOpsAdd 1 (Append []);
     CallOpsAdd 2 SHA256;
     CallAttestationsAdd 1 x61].
(** A timestamp that [ops[SHA256] = child] has given a child for another
    message, and a tree for the same message. *)
Definition stranger_child : Store.store op byte :=
  (Store.setitem 0 SHA256 1
     [Store.mkObject [x01] [] []; Store.mkObject [x09] [] [];
      Store.mkObject [x01] [x61] [(SHA256, 3)];
      Store.mkObject (digest [x01]) [x62] []]).1.
End Demo.

(** * Properties *)

(** ** Containers *)

Section container_lemmas.
Context {K V : Type} `{EqDecision K}.
Implicit Types (d : list (K * V)) (s : list K).

Lemma dict_get_Some d k v : dict_get k d = Some v → (k, v) ∈ d.
Proof.
  induction d as [|[k' v'] d IH]; simpl; [done|].
  case_decide; intros; simplify_eq; [left | right; auto].
Qed.

Lemma dict_get_None d k : dict_get k d = None ↔ k ∉ d.*1.
Proof.
  induction d as [|[k' v'] d IH]; simpl.
  - split; [intros _; apply not_elem_of_nil | done].
  - rewrite not_elem_of_cons. case_decide; [|rewrite IH]; split; intros; try done; naive_solver.
Qed.

Lemma dict_get_elem_of d k v : NoDup d.*1 → (k, v) ∈ d → dict_get k d = Some v.
Proof.
  induction d as [|[k' v'] d IH]; simpl; intros Hnd Hin.
  - by apply elem_of_nil in Hin.
  - apply NoDup_cons in Hnd as [Hk Hnd].
    apply elem_of_cons in Hin as [?|Hin]; simplify_eq.
    + by rewrite decide_True.
    + rewrite decide_False; [auto|]. intros ->. apply Hk.
      apply list_elem_of_fmap. by exists (k', v).
Qed.

Lemma dict_set_fresh d k v : k ∉ d.*1 → dict_set k v d = d ++ [(k, v)].
Proof.
  induction d as [|[k' v'] d IH]; simpl; [done|].
  rewrite not_elem_of_cons. intros [? ?].
  rewrite decide_False by done. by rewrite IH.
Qed.

Lemma dict_set_keys d k v :
  (dict_set k v d).*1 = if decide (k ∈ d.*1) then d.*1 else d.*1 ++ [k].
Proof.
  induction d as [|[k' v'] d IH].
  - destruct (decide (k ∈ _)) as [Hin|]; [by apply elem_of_nil in Hin | done].
  - cbn [dict_set]. destruct (decide (k = k')) as [->|Hne].
    + rewrite decide_True; [done|]. rewrite fmap_cons. left.
    + rewrite !fmap_cons, IH. cbn [fst].
      destruct (decide (k ∈ d.*1)) as [Hin|Hin].
      * rewrite decide_True; [done | by right].
      * rewrite decide_False; [done|]. rewrite not_elem_of_cons. done.
Qed.

Lemma dict_get_set d k k' v :
  dict_get k' (dict_set k v d) = if decide (k' = k) then Some v else dict_get k' d.
Proof.
  induction d as [|[k0 v0] d IH]; simpl.
  - done.
  - destruct (decide (k = k0)) as [->|]; simpl.
    + repeat case_decide; congruence.
    + rewrite IH. repeat case_decide; congruence.
Qed.

Lemma dict_set_NoDup d k v : NoDup d.*1 → NoDup (dict_set k v d).*1.
Proof.
  intros Hnd. rewrite dict_set_keys. case_decide; [done|].
  apply NoDup_app. split_and!; [done | | apply NoDup_singleton].
  intros x Hx ->%list_elem_of_singleton. done.
Qed.

Lemma set_add_NoDup s x : NoDup s → NoDup (set_add x s).
Proof.
  intros Hnd. unfold set_add. case_decide; [done|].
  apply NoDup_app. split_and!; [done | | apply NoDup_singleton].
  intros y Hy ->%list_elem_of_singleton. done.
Qed.

Lemma elem_of_set_add s x y : y ∈ set_add x s ↔ y = x ∨ y ∈ s.
Proof.
  unfold set_add. case_decide; [naive_solver|].
  rewrite elem_of_app, list_elem_of_singleton. naive_solver.
Qed.

Lemma set_update_NoDup s other : NoDup s → NoDup (set_update s other).
Proof.
  unfold set_update. revert s.
  induction other as [|x other IH]; simpl; intros s Hnd; [done|].
  apply IH. by apply set_add_NoDup.
Qed.

Lemma elem_of_set_update s other y :
  y ∈ set_update s other ↔ y ∈ s ∨ y ∈ other.
Proof.
  unfold set_update. revert s.
  induction other as [|x other IH]; simpl; intros s.
  - rewrite elem_of_nil. naive_solver.
  - rewrite IH, elem_of_set_add, elem_of_cons. naive_solver.
Qed.

Lemma set_eq_true s1 s2 :
  NoDup s1 → NoDup s2 → set_eq s1 s2 = true ↔ (∀ x, x ∈ s1 ↔ x ∈ s2).
Proof.
  intros Hnd1 Hnd2. unfold set_eq.
  rewrite andb_true_iff, bool_decide_eq_true, forallb_forall.
  setoid_rewrite <-list_elem_of_In.
  setoid_rewrite bool_decide_eq_true.
  split.
  - intros [Hlen Hsub] x. split; [auto|].
    intros Hx. eapply (NoDup_submseteq s1) in Hsub; [|done].
    apply submseteq_length_Permutation in Hsub; [|lia].
    by rewrite Hsub.
  - intros Heq. split; [|naive_solver].
    apply Permutation_length, NoDup_Permutation; done.
Qed.
End container_lemmas.

(** ** Sorting *)

Section sorted_lemmas.
Context {A K : Type} (key : A → K) (lt : K → K → bool).
Implicit Types (l : list A) (x : A).

Lemma sorted_insert_Permutation x l : sorted_insert key lt x l ≡ₚ x :: l.
Proof.
  induction l as [|y l IH]; simpl; [done|].
  destruct (lt (key y) (key x)); [|done].
  rewrite IH. apply Permutation_swap.
Qed.

Lemma sorted_Permutation l : sorted key lt l ≡ₚ l.
Proof.
  induction l as [|x l IH]; simpl; [done|].
  by rewrite sorted_insert_Permutation, IH.
Qed.

Lemma length_sorted l : length (sorted key lt l) = length l.
Proof. apply Permutation_length, sorted_Permutation. Qed.

Lemma elem_of_sorted l x : x ∈ sorted key lt l ↔ x ∈ l.
Proof. by rewrite sorted_Permutation. Qed.

Lemma sorted_nil_inv l : sorted key lt l = [] → l = [].
Proof.
  intros Hs. apply length_zero_iff_nil.
  by rewrite <-length_sorted, Hs.
Qed.

Lemma sorted_insert_fmap {B} (key' : B → K) (g : B → A) (x : B) (l : list B) :
  (∀ y, key (g y) = key' y) →
  sorted_insert key lt (g x) (g <$> l) = g <$> sorted_insert key' lt x l.
Proof.
  intros Hkey. induction l as [|y l IH]; [done|].
  rewrite fmap_cons. cbn [sorted_insert]. rewrite !Hkey.
  destruct (lt (key' y) (key' x)); [|done].
  by rewrite IH.
Qed.

Lemma sorted_fmap {B} (key' : B → K) (g : B → A) (l : list B) :
  (∀ y, key (g y) = key' y) →
  sorted key lt (g <$> l) = g <$> sorted key' lt l.
Proof.
  intros Hkey. induction l as [|x l IH]; [done|].
  rewrite fmap_cons. unfold sorted in *. cbn [foldr].
  by rewrite IH, (sorted_insert_fmap key').
Qed.

Context `{!StrictTotal lt}.

Lemma key_lt_asym x y : key_lt key lt x y → key_lt key lt y x → False.
Proof.
  unfold key_lt. intros Hxy Hyx.
  pose proof (lt_trans _ _ _ Hxy Hyx) as Hxx.
  by rewrite lt_irrefl in Hxx.
Qed.

Lemma sorted_insert_StronglySorted x l :
  key x ∉ key <$> l →
  StronglySorted (key_lt key lt) l → StronglySorted (key_lt key lt) (sorted_insert key lt x l).
Proof.
  induction 2 as [|y l Hl IH Hy]; simpl.
  - repeat constructor.
  - apply not_elem_of_cons in H as [Hxy Hx].
    destruct (lt (key y) (key x)) eqn:Hlt.
    + constructor; [by apply IH|].
      rewrite sorted_insert_Permutation. by constructor.
    + assert (key_lt key lt x y) as Hxy'.
      { destruct (lt_total (key x) (key y)) as [?|?]; [done..|congruence]. }
      constructor; [by constructor|].
      constructor; [done|].
      eapply Forall_impl; [done|]. intros z Hz.
      unfold key_lt in *. by eapply lt_trans.
Qed.

Lemma sorted_StronglySorted l :
  NoDup (key <$> l) → StronglySorted (key_lt key lt) (sorted key lt l).
Proof.
  induction l as [|x l IH]; simpl; [constructor|].
  rewrite NoDup_cons. intros [Hx Hnd].
  apply sorted_insert_StronglySorted; [|by apply IH].
  by rewrite sorted_Permutation.
Qed.

(** [sorted] gives one result for all the orders in which a set or a dict
    may hold its elements. *)
Lemma sorted_unique l1 l2 :
  NoDup (key <$> l1) → l1 ≡ₚ l2 → sorted key lt l1 = sorted key lt l2.
Proof.
  intros Hnd Hperm.
  apply (StronglySorted_unique_strong (key_lt key lt)).
  - intros x1 x2 _ _ H12 H21. by destruct (key_lt_asym x1 x2).
  - by apply sorted_StronglySorted.
  - apply sorted_StronglySorted. by rewrite <-Hperm.
  - by rewrite !sorted_Permutation.
Qed.
End sorted_lemmas.

(** ** Writers *)

Section writer_lemmas.
Implicit Types w : writer.

Lemma writer_seq_assoc w1 w2 w3 :
  writer_seq (writer_seq w1 w2) w3 = writer_seq w1 (writer_seq w2 w3).
Proof.
  destruct w1 as [b1 [[]|e1]], w2 as [b2 [[]|e2]], w3 as [b3 r3];
    simpl; by rewrite ?app_assoc.
Qed.

Lemma writer_seq_nil_l w : writer_seq (write_bytes []) w = w.
Proof. by destruct w. Qed.

Lemma writer_seq_nil_r w : writer_seq w (write_bytes []) = w.
Proof. destruct w as [b [[]|e]]; simpl; by rewrite ?app_nil_r. Qed.

Lemma writer_seq_write b1 b2 :
  writer_seq (write_bytes b1) (write_bytes b2) = write_bytes (b1 ++ b2).
Proof. done. Qed.

Lemma writer_seq_ok w1 w2 b1 b2 :
  w1 = (b1, Ok ()) → w2 = (b2, Ok ()) → writer_seq w1 w2 = (b1 ++ b2, Ok ()).
Proof. by intros -> ->. Qed.

Lemma writer_for_cons {A} (x : A) (l : list A) (body : A → writer) :
  writer_for (x :: l) body = writer_seq (body x) (writer_for l body).
Proof. done. Qed.

Lemma writer_for_app {A} (l1 l2 : list A) (body : A → writer) :
  writer_for (l1 ++ l2) body
  = writer_seq (writer_for l1 body) (writer_for l2 body).
Proof.
  induction l1 as [|x l1 IH].
  - by rewrite writer_seq_nil_l.
  - rewrite <-app_comm_cons, !writer_for_cons, IH.
    by rewrite writer_seq_assoc.
Qed.

Lemma writer_for_singleton {A} (x : A) (body : A → writer) :
  writer_for [x] body = body x.
Proof. unfold writer_for. simpl. apply writer_seq_nil_r. Qed.

Lemma writer_for_ext {A} (l : list A) (body1 body2 : A → writer) :
  (∀ x, x ∈ l → body1 x = body2 x) → writer_for l body1 = writer_for l body2.
Proof.
  induction l as [|x l IH]; intros Hext; [done|].
  rewrite !writer_for_cons.
  rewrite Hext by left. rewrite IH; [done|]. intros; apply Hext; by right.
Qed.

Lemma writer_for_fmap {A B} (g : B → A) (l : list B) (body : A → writer) :
  writer_for (g <$> l) body = writer_for l (body ∘ g).
Proof.
  induction l as [|x l IH]; [done|].
  by rewrite fmap_cons, !writer_for_cons, IH.
Qed.

Lemma writer_for_ok {A} (l : list A) (body : A → writer) (enc : A → bytes) :
  (∀ x, x ∈ l → body x = (enc x, Ok ())) →
  writer_for l body = (mjoin (enc <$> l), Ok ()).
Proof.
  induction l as [|x l IH]; intros Hok; [done|].
  rewrite writer_for_cons.
  rewrite (Hok x) by left. rewrite IH; [done|]. intros; apply Hok; by right.
Qed.
End writer_lemmas.

(** ** Lists *)

Section list_lemmas.
Context {A : Type}.
Implicit Types l : list A.

Lemma removelast_take l : removelast l = take (length l - 1) l.
Proof.
  induction l as [|x [|y l] IH]; [done..|].
  change (removelast (x :: y :: l)) with (x :: removelast (y :: l)).
  rewrite IH. simpl. by rewrite Nat.sub_0_r.
Qed.

Lemma removelast_snoc_last l x : last l = Some x → l = removelast l ++ [x].
Proof.
  destruct l as [|x' l' _] using rev_ind; [done|].
  rewrite last_snoc. intros ?; simplify_eq.
  by rewrite removelast_last.
Qed.

Lemma last_fmap' {B} (g : A → B) l : last (g <$> l) = g <$> last l.
Proof.
  induction l as [|x [|y l] IH]; [done..|].
  by rewrite !fmap_cons, !last_cons_cons, <-IH.
Qed.

Lemma removelast_fmap {B} (g : A → B) l :
  removelast (g <$> l) = g <$> removelast l.
Proof.
  induction l as [|x [|y l] IH]; [done..|].
  rewrite !fmap_cons.
  change (removelast (g x :: g y :: (g <$> l)))
    with (g x :: removelast (g <$> (y :: l))).
  by rewrite IH.
Qed.

Lemma removelast_short l : length l ≤ 1 → removelast l = [].
Proof. destruct l as [|x [|y l]]; simpl; [done..|lia]. Qed.

Lemma last_elem_of l x : last l = Some x → x ∈ l.
Proof.
  intros Hl. rewrite (removelast_snoc_last l x Hl).
  apply elem_of_app. right. by left.
Qed.

Lemma last_Some_nonempty l : l ≠ [] → ∃ x, last l = Some x.
Proof. intros Hl. by apply last_is_Some in Hl as [x Hx]; exists x. Qed.
End list_lemmas.

(** ** Timestamp trees *)

Section tree_lemmas.
Context {Op Att : Type} `{OpCatalogue Op} `{AttestationCatalogue Att}.
Implicit Types (t : Timestamp Op Att) (o : list (Op * Timestamp Op Att)).

(** Induction on a tree, with the hypothesis for every child. *)
Lemma Timestamp_children_ind (P : Timestamp Op Att → Prop) :
  (∀ m a o, Forall (λ item, P item.2) o → P (mkTimestamp m a o)) →
  ∀ t, P t.
Proof.
  intros step. fix rec 1. intros [m a o]. apply step.
  induction o as [|[op child] o IH]; constructor; [apply rec | apply IH].
Qed.

Lemma serialize_sorted_ops o :
  sorted fst op_lt ((λ item, (item.1, serialize item.2)) <$> o)
  = (λ item, (item.1, serialize item.2)) <$> sorted fst op_lt o.
Proof. by apply sorted_fmap. Qed.

Lemma serialize_canonical t : serialize t = canonical_encoding t.
Proof.
  destruct t as [m a o]. unfold canonical_encoding.
  cbn [serialize attestations ops]. rewrite serialize_sorted_ops.
  rewrite !length_sorted.
  set (A := sorted id att_lt a). set (O := sorted fst op_lt o).
  assert (length A = length a) as HA by apply length_sorted.
  assert (length O = length o) as HO by apply length_sorted.
  destruct o as [|item o'].
  - (* no operation: the last attestation is terminal *)
    destruct a as [|a0 a']; [done|].
    rewrite andb_false_l, (bool_decide_eq_false_2 (_ + _ = 0)) by (simpl; lia).
    rewrite (bool_decide_eq_true_2 (length [] = 0)) by done.
    rewrite (bool_decide_eq_false_2 (0 < length [])) by (simpl; lia).
    destruct (last_Some_nonempty A) as [x Hx].
    { intros HA'. by rewrite HA' in HA. }
    rewrite Hx. subst O. cbn [sorted foldr take writer_for].
    rewrite writer_seq_nil_l. f_equal.
    rewrite <-HA, <-removelast_take.
    case_bool_decide; [done|].
    by rewrite removelast_short by lia.
  - (* operations: the last of them is terminal *)
    rewrite andb_false_r.
    rewrite (bool_decide_eq_false_2 (_ + _ = 0)) by (simpl; lia).
    rewrite (bool_decide_eq_false_2 (length (item :: o') = 0)) by done.
    rewrite (bool_decide_eq_true_2 (0 < length (item :: o'))) by (simpl; lia).
    rewrite <-HO, <-HA, take_ge by done.
    rewrite <-removelast_take, removelast_fmap, last_fmap', writer_for_fmap.
    rewrite <-!writer_seq_assoc. f_equal; [f_equal|].
    + (* the attestations *)
      destruct (decide (A = [])) as [->|HAne]; [done|].
      destruct (last_Some_nonempty A HAne) as [x Hx]. rewrite Hx.
      rewrite (bool_decide_eq_true_2 (0 < length A))
        by (destruct A; simpl; [done|lia]).
      rewrite (removelast_snoc_last A x Hx) at 4.
      rewrite writer_for_app, writer_for_singleton. f_equal.
      case_bool_decide; [done|].
      by rewrite removelast_short by lia.
    + by destruct (last O) as [[op child]|].
Qed.
End tree_lemmas.

Section predicates.
Context {Op Att : Type} `{OpCatalogue Op} `{AttestationCatalogue Att}.
Implicit Types (t : Timestamp Op Att) (o : list (Op * Timestamp Op Att)).

Lemma forallb_Forall {A} (f : A → bool) (l : list A) :
  forallb f l = true ↔ Forall (λ x, f x = true) l.
Proof.
  rewrite forallb_forall, Forall_forall.
  by setoid_rewrite list_elem_of_In.
Qed.

Lemma containers_ok_unfold m a o :
  containers_ok (mkTimestamp m a o) = true
  ↔ NoDup a ∧ NoDup o.*1 ∧ Forall (λ item, containers_ok item.2 = true) o.
Proof.
  cbn [containers_ok].
  rewrite !andb_true_iff, !bool_decide_eq_true, forallb_Forall. tauto.
Qed.

Lemma child_msgs_ok_unfold m a o :
  child_msgs_ok (mkTimestamp m a o) = true
  ↔ Forall (λ item, msg item.2 = op_call item.1 m
                    ∧ child_msgs_ok item.2 = true) o.
Proof.
  cbn [child_msgs_ok]. rewrite forallb_Forall.
  apply Forall_proper; [|done]. intros item.
  by rewrite andb_true_iff, bool_decide_eq_true.
Qed.

Lemma nonempty_ok_unfold m a o :
  nonempty_ok (mkTimestamp m a o) = true
  ↔ ¬ (a = [] ∧ o = []) ∧ Forall (λ item, nonempty_ok item.2 = true) o.
Proof.
  cbn [nonempty_ok].
  rewrite andb_true_iff, negb_true_iff, andb_false_iff,
    !bool_decide_eq_false, forallb_Forall.
  destruct (decide (a = [])), (decide (o = [])); tauto.
Qed.

Lemma msg_normalize t : msg (normalize t) = msg t.
Proof. by destruct t. Qed.
End predicates.

(** ** The byte stream of a node *)

Section stream.
Context {Op Att : Type} `{OpCatalogue Op} `{AttestationCatalogue Att}.
Implicit Types (t : Timestamp Op Att) (o : list (Op * Timestamp Op Att)).

Lemma writer_seq_returns (w1 w2 : writer) :
  w1.2 = Ok () → w2.2 = Ok () → (writer_seq w1 w2).2 = Ok ().
Proof. destruct w1 as [b1 [[]|e1]]; simpl; [done|]. discriminate. Qed.

Lemma writer_for_returns {A} (l : list A) (body : A → writer) :
  (∀ x, x ∈ l → (body x).2 = Ok ()) → (writer_for l body).2 = Ok ().
Proof.
  induction l as [|x l IH]; intros Hbody; [done|].
  rewrite writer_for_cons. apply writer_seq_returns.
  - apply Hbody. by left.
  - apply IH. intros; apply Hbody. by right.
Qed.

Lemma elem_of_take_sorted {A K} (key : A → K) (lt : K → K → bool)
    (l : list A) n x :
  x ∈ take n (sorted key lt l) → x ∈ l.
Proof.
  intros Hx. apply (elem_of_sorted key lt).
  by apply (subseteq_take n).
Qed.

(** A node with an item returns when the writers of its children do. *)
Lemma serialize_node_returns t :
  ¬ (attestations t = [] ∧ ops t = []) →
  (∀ item, item ∈ ops t → (serialize item.2).2 = Ok ()) →
  (serialize t).2 = Ok ().
Proof.
  intros Hne Hchildren. rewrite serialize_canonical.
  unfold canonical_encoding. rewrite !length_sorted.
  rewrite bool_decide_eq_false_2.
  2:{ destruct (attestations t), (ops t); simpl; try lia. by destruct Hne. }
  apply writer_seq_returns; [by apply writer_for_returns|].
  apply writer_seq_returns.
  { apply writer_for_returns. intros item Hitem.
    apply writer_seq_returns; [done|].
    by eapply Hchildren, elem_of_take_sorted. }
  case_bool_decide as Hm.
  - destruct (last_Some_nonempty (sorted fst op_lt (ops t)))
      as [[op child] Hlast].
    { intros Hs%sorted_nil_inv. rewrite Hs in Hm. simpl in Hm. lia. }
    rewrite Hlast. apply writer_seq_returns; [done|].
    apply (Hchildren (op, child)).
    by eapply (elem_of_sorted fst op_lt), last_elem_of.
  - destruct (last_Some_nonempty (sorted id att_lt (attestations t)))
      as [a Hlast]; [|by rewrite Hlast].
    intros Hs%sorted_nil_inv. apply Hne. split; [done|].
    destruct (ops t); [done|]. simpl in Hm. lia.
Qed.

Lemma serialize_returns t :
  nonempty_ok t = true → (serialize t).2 = Ok ().
Proof.
  induction t as [m a o IH] using Timestamp_children_ind.
  rewrite nonempty_ok_unfold. intros [Hne Hchildren].
  apply serialize_node_returns; [done|].
  rewrite Forall_forall in IH, Hchildren. naive_solver.
Qed.

Lemma items_nonempty t :
  ¬ (attestations t = [] ∧ ops t = []) → items t ≠ [].
Proof.
  intros Hne Hitems. apply Hne. unfold items in Hitems.
  apply app_eq_nil in Hitems as [Ha Ho].
  apply fmap_nil_inv, sorted_nil_inv in Ha.
  apply fmap_nil_inv, sorted_nil_inv in Ho. done.
Qed.
End stream.

Section stream_bytes.
Context {Op Att : Type} `{OpCatalogue Op} `{AttestationCatalogue Att}.
Implicit Types (t : Timestamp Op Att) (o : list (Op * Timestamp Op Att)).

Lemma writer_eta (w : writer) : w.2 = Ok () → w = (w.1, Ok ()).
Proof. destruct w as [b r]; simpl. by intros ->. Qed.

(** The bytes of a node are the stream of its items. *)
Lemma serialize_items t :
  ¬ (attestations t = [] ∧ ops t = []) →
  (∀ item, item ∈ ops t → (serialize item.2).2 = Ok ()) →
  serialize t = (items_bytes (items t), Ok ()).
Proof.
  intros Hne Hchildren. rewrite serialize_canonical.
  unfold canonical_encoding, items_bytes, items. rewrite !length_sorted.
  rewrite bool_decide_eq_false_2.
  2:{ destruct (attestations t), (ops t); simpl; try lia. by destruct Hne. }
  set (A := sorted id att_lt (attestations t)).
  set (O := sorted fst op_lt (ops t)).
  assert (length A = length (attestations t)) as HA by apply length_sorted.
  assert (length O = length (ops t)) as HO by apply length_sorted.
  rewrite (writer_for_ok _ _ (λ a, xff :: item_bytes (inl a))) by done.
  rewrite (writer_for_ok _ _ (λ item, xff :: item_bytes (inr item))).
  2:{ intros [op child] Hitem. cbn.
      rewrite (writer_eta (serialize child)); [done|].
      by eapply (Hchildren (op, child)), elem_of_take_sorted. }
  destruct (decide (O = [])) as [HOnil|HOne].
  - (* no operation *)
    rewrite <-HO, HOnil, app_nil_r. cbn [length take fmap list_fmap mjoin
      list_join].
    rewrite (bool_decide_eq_false_2 (0 < 0)) by lia.
    rewrite removelast_fmap, last_fmap', <-HA, <-removelast_take.
    destruct (last_Some_nonempty A) as [a Hlast].
    { intros HAnil. apply Hne. split.
      - by apply (sorted_nil_inv id att_lt).
      - by apply (sorted_nil_inv fst op_lt). }
    rewrite Hlast. cbn. by rewrite <-list_fmap_compose.
  - (* operations *)
    rewrite (bool_decide_eq_true_2 (0 < _)).
    2:{ rewrite <-HO. destruct O; simpl; [done|lia]. }
    rewrite <-HA, take_ge by done. rewrite <-HO, <-removelast_take.
    rewrite removelast_app by (by intros ?%fmap_nil_inv).
    rewrite last_app, last_fmap', removelast_fmap.
    destruct (last_Some_nonempty O HOne) as [[op child] Hlast].
    rewrite Hlast. cbn.
    rewrite (writer_eta (serialize child)).
    2:{ apply (Hchildren (op, child)).
        by eapply (elem_of_sorted fst op_lt), last_elem_of. }
    cbn. rewrite fmap_app, join_app, <-!list_fmap_compose.
    by rewrite <-!app_assoc.
Qed.
End stream_bytes.

(** ** Reading the byte stream of a node *)

Section decode.
Context {Op Att : Type} `{OpCatalogue Op} `{AttestationCatalogue Att}.
Context `{!OpCodec} `{!AttCodec}.
Implicit Types (t self : Timestamp Op Att) (o : list (Op * Timestamp Op Att)).
Implicit Types (i : Att + Op * Timestamp Op Att).
Implicit Types (des : bytes → bytes → result (Timestamp Op Att * bytes)).

Lemma item_bytes_head i :
  ∃ tag body, item_bytes i = tag :: body ∧ tag ≠ xff.
Proof.
  destruct i as [a|[op child]]; simpl.
  - by eexists _, _.
  - destruct (op_codec op []) as (tag & payload & -> & _ & Hff & _).
    by eexists _, _.
Qed.

Lemma ops_on_read_item m self i des :
  ops_on m self → readable des m i → ops_on m (read_item self i).
Proof.
  unfold ops_on. destruct i as [a|[op child]]; [done|].
  cbn [read_item ops readable]. intros Hself [Hmsg _].
  induction (ops self) as [|[op' c'] o IH]; cbn [dict_set].
  - repeat constructor. cbn [fst snd]. by rewrite msg_normalize.
  - apply Forall_cons in Hself as [? ?]. case_decide; subst.
    + constructor; [cbn [fst snd]; by rewrite msg_normalize | done].
    + constructor; [done | by apply IH].
Qed.

Lemma do_tag_read_item des m self i tag body rest :
  item_bytes i = tag :: body → ops_on m self → readable des m i →
  do_tag_or_attestation des m tag self (body ++ rest)
  = Ok (read_item self i, rest).
Proof.
  unfold do_tag_or_attestation.
  destruct i as [a|[op child]]; simpl; intros Hbytes Hself Hread.
  - simplify_eq. rewrite decide_True by done.
    by rewrite att_codec.
  - destruct Hread as [Hmsg Hdes].
    destruct (op_codec op (((serialize child).1) ++ rest))
      as (tag' & payload & Hop & H00 & Hff & Hparse).
    rewrite Hop in Hbytes. injection Hbytes as <- <-.
    rewrite decide_False by done.
    rewrite <-app_assoc, Hparse. simpl. rewrite Hdes. simpl.
    unfold OpSet_setitem.
    destruct (dict_get op (ops self)) as [existing|] eqn:Hget; [|done].
    apply dict_get_Some in Hget.
    unfold ops_on in Hself. rewrite Forall_forall in Hself.
    apply Hself in Hget. simpl in Hget.
    rewrite decide_False; [done|].
    rewrite msg_normalize. intros Hne. apply Hne. congruence.
Qed.

Lemma read_items_unfold do_tag turns self ctx :
  read_items do_tag turns self ctx =
  '(tag, ctx) ← read_byte ctx;
  if decide (tag = xff) then
    match turns with
    | 0 => Raise RecursionError
    | S turns' =>
        '(tag, ctx) ← read_byte ctx;
        '(self, ctx) ← do_tag tag self ctx;
        read_items do_tag turns' self ctx
    end
  else do_tag tag self ctx.
Proof. by destruct turns. Qed.

Lemma items_bytes_singleton i : items_bytes [i] = item_bytes i.
Proof. done. Qed.

Lemma items_bytes_cons i i' its :
  items_bytes (i :: i' :: its)
  = xff :: item_bytes i ++ items_bytes (i' :: its).
Proof.
  unfold items_bytes.
  change (removelast (i :: i' :: its)) with (i :: removelast (i' :: its)).
  rewrite last_cons_cons, fmap_cons. simpl. by rewrite <-app_assoc.
Qed.

Lemma read_items_stream des m its self turns rest :
  its ≠ [] → length its ≤ S turns →
  Forall (readable des m) its → ops_on m self →
  read_items (do_tag_or_attestation des m) turns self
    (items_bytes its ++ rest)
  = Ok (foldl read_item self its, rest).
Proof.
  revert self turns.
  induction its as [|i [|i' its] IH]; intros self turns Hne Hlen Hread Hself;
    [done| |].
  - (* the last item *)
    apply Forall_cons in Hread as [Hi _].
    destruct (item_bytes_head i) as (tag & body & Hbytes & Hff).
    rewrite read_items_unfold, items_bytes_singleton, Hbytes. simpl.
    rewrite decide_False by done.
    by apply do_tag_read_item.
  - (* an item after [ff] *)
    apply Forall_cons in Hread as [Hi Hread].
    destruct (item_bytes_head i) as (tag & body & Hbytes & Hff).
    rewrite read_items_unfold, items_bytes_cons, Hbytes. simpl.
    destruct turns as [|turns]; [simpl in Hlen; lia|].
    rewrite <-app_assoc.
    rewrite (do_tag_read_item des m self i) by done. simpl.
    apply IH; [done | simpl in *; lia | done |].
    by eapply ops_on_read_item.
Qed.
End decode.

(** ** The round trip *)

Section roundtrip.
Context {Op Att : Type} `{OpCatalogue Op} `{AttestationCatalogue Att}.
Context `{!OpCodec} `{!AttCodec}.
Implicit Types (t self : Timestamp Op Att) (o : list (Op * Timestamp Op Att)).
Implicit Types (i : Att + Op * Timestamp Op Att).

Lemma set_update_fresh {A} `{EqDecision A} (s l : list A) :
  NoDup (s ++ l) → set_update s l = s ++ l.
Proof.
  unfold set_update. revert s.
  induction l as [|x l IH]; intros s Hnd; simpl; [by rewrite app_nil_r|].
  rewrite cons_middle, app_assoc in Hnd.
  unfold set_add at 2. rewrite decide_False.
  - rewrite IH by done. by rewrite <-app_assoc.
  - apply NoDup_app in Hnd as [Hnd _].
    apply NoDup_app in Hnd as (_ & Hx & _).
    intros Hin. apply (Hx x Hin). by left.
Qed.

Lemma foldl_read_item_attestations self (l : list Att) :
  foldl read_item self (inl <$> l)
  = mkTimestamp (msg self) (set_update (attestations self) l) (ops self).
Proof.
  revert self. induction l as [|a l IH]; intros self; [by destruct self|].
  rewrite fmap_cons. cbn [foldl]. by rewrite IH.
Qed.

Lemma foldl_read_item_ops self o :
  NoDup ((ops self).*1 ++ o.*1) →
  foldl read_item self (inr <$> o)
  = mkTimestamp (msg self) (attestations self)
      (ops self ++ ((λ item, (item.1, normalize item.2)) <$> o)).
Proof.
  revert self. induction o as [|[op child] o IH]; intros self Hnd.
  - destruct self. simpl. by rewrite app_nil_r.
  - rewrite !fmap_cons. cbn [foldl]. rewrite IH.
    + cbn [read_item msg attestations ops fst snd].
      rewrite dict_set_fresh, <-app_assoc; [done|].
      apply NoDup_app in Hnd as (_ & Hop & _).
      intros Hin. apply (Hop op Hin). left.
    + cbn [read_item ops]. rewrite dict_set_keys, decide_False.
      * by rewrite <-app_assoc.
      * apply NoDup_app in Hnd as (_ & Hop & _).
        intros Hin. apply (Hop op Hin). left.
Qed.

(** Reading the items of a node into a new timestamp gives the node in
    sorted order. *)
Lemma foldl_read_item_items t :
  NoDup (attestations t) → NoDup (ops t).*1 →
  foldl read_item (new (msg t)) (items t) = normalize t.
Proof.
  intros Ha Ho. unfold items. rewrite foldl_app.
  rewrite foldl_read_item_attestations, foldl_read_item_ops.
  - destruct t as [m a o]. cbn [new msg attestations ops normalize app].
    rewrite set_update_fresh by (by rewrite app_nil_l, sorted_Permutation).
    by rewrite (sorted_fmap fst op_lt fst).
  - cbn [new ops fmap list_fmap app]. by rewrite sorted_Permutation.
Qed.

Lemma length_join_cons {A B} (f : A → list B) (x : B) (l : list A) :
  length l ≤ length (mjoin ((λ y, x :: f y) <$> l)).
Proof.
  induction l as [|a l IH]; [done|].
  rewrite fmap_cons.
  change (mjoin ((x :: f a) :: ((λ y, x :: f y) <$> l)))
    with ((x :: f a) ++ mjoin ((λ y, x :: f y) <$> l)).
  rewrite length_app, !length_cons. lia.
Qed.

Lemma length_items_bytes its :
  length its ≤ S (length (items_bytes its)).
Proof.
  unfold items_bytes. rewrite length_app.
  destruct its as [|i' its' _] using rev_ind; [simpl; lia|].
  rewrite removelast_last, length_app. simpl.
  pose proof (length_join_cons item_bytes xff its'). lia.
Qed.

Lemma length_item_bytes its i :
  i ∈ its → length (item_bytes i) ≤ length (items_bytes its).
Proof.
  unfold items_bytes. rewrite length_app.
  destruct its as [|i' its' _] using rev_ind.
  { by intros ?%elem_of_nil. }
  rewrite removelast_last, last_snoc. simpl.
  intros [Hin| ->%list_elem_of_singleton]%elem_of_app; [|lia].
  apply list_elem_of_split in Hin as (l1 & l2 & ->).
  rewrite fmap_app, join_app, fmap_cons, length_app. simpl.
  rewrite length_app. lia.
Qed.

Lemma length_child_bytes t op child :
  (op, child) ∈ ops t →
  length (serialize child).1 < length (items_bytes (items t)).
Proof.
  intros Hin.
  assert (inr (op, child) ∈ items t) as Hitem.
  { unfold items. apply elem_of_app. right.
    apply list_elem_of_fmap. exists (op, child). split; [done|].
    by apply elem_of_sorted. }
  apply length_item_bytes in Hitem. simpl in Hitem.
  destruct (op_codec op []) as (tag & payload & Hop & _).
  rewrite Hop in Hitem. simpl in Hitem. rewrite length_app in Hitem. lia.
Qed.

(** Decoding the bytes of a tree gives the tree in sorted order, and
    leaves the input that follows unread. *)
Lemma deserialize_serialize_depth t :
  containers_ok t = true → child_msgs_ok t = true → nonempty_ok t = true →
  ∀ depth rest,
    length (serialize t).1 < depth →
    deserialize_depth depth ((serialize t).1 ++ rest) (msg t)
    = Ok (normalize t, rest).
Proof.
  induction t as [m a o IH] using Timestamp_children_ind.
  intros Hc Hm Hn depth rest Hdepth.
  pose proof Hc as Hc'. pose proof Hm as Hm'. pose proof Hn as Hn'.
  apply containers_ok_unfold in Hc' as (Ha & Ho & Hcs).
  apply child_msgs_ok_unfold in Hm'.
  apply nonempty_ok_unfold in Hn' as [Hne Hns].
  rewrite Forall_forall in IH, Hcs, Hm', Hns.
  set (t := mkTimestamp m a o) in *.
  assert (serialize t = (items_bytes (items t), Ok ())) as Hser.
  { apply serialize_items; [done|].
    intros item Hitem. by apply serialize_returns, Hns. }
  rewrite Hser in Hdepth |- *. cbn [fst] in Hdepth |- *.
  destruct depth as [|depth]; [lia|]. cbn [deserialize_depth].
  rewrite read_items_stream.
  - by rewrite <-foldl_read_item_items.
  - by apply items_nonempty.
  - rewrite length_app. pose proof (length_items_bytes (items t)). lia.
  - apply Forall_forall. intros [a'|[op child]] Hitem; [done|].
    assert ((op, child) ∈ o) as Hin.
    { unfold items in Hitem. apply elem_of_app in Hitem as [Hitem|Hitem].
      - apply list_elem_of_fmap in Hitem as (? & ? & ?). done.
      - apply list_elem_of_fmap in Hitem as (? & ? & Hs). simplify_eq.
        by apply elem_of_sorted in Hs. }
    destruct (Hm' _ Hin) as [Hmsg Hmc]. simpl in Hmsg, Hmc.
    change (msg t) with m.
    split; [done|]. intros rest'. rewrite <-Hmsg.
    apply (IH _ Hin); [by apply (Hcs _ Hin) | done | by apply (Hns _ Hin) |].
    pose proof (length_child_bytes t op child Hin). simpl. lia.
  - constructor.
Qed.
End roundtrip.

(** ** Equality *)

Section equality.
Context {Op Att : Type} `{OpCatalogue Op} `{AttestationCatalogue Att}.
Implicit Types (t self other : Timestamp Op Att).
Implicit Types (o : list (Op * Timestamp Op Att)).

Lemma dict_eq_true {K V} `{EqDecision K} (eqv : V → V → bool)
    (d1 d2 : list (K * V)) :
  dict_eq eqv d1 d2 = true
  ↔ length d1 = length d2
    ∧ Forall (λ kv, ∃ v', dict_get kv.1 d2 = Some v' ∧ eqv kv.2 v' = true) d1.
Proof.
  unfold dict_eq.
  rewrite andb_true_iff, bool_decide_eq_true, forallb_Forall.
  apply and_iff_compat_l, Forall_proper; [|done]. intros [k v]. simpl.
  destruct (dict_get k d2) as [v'|]; split.
  - intros ?. by exists v'.
  - by intros (? & [= <-] & ?).
  - done.
  - by intros (? & ? & ?).
Qed.

Lemma equals_unfold m a o other :
  equals (mkTimestamp m a o) other = true
  ↔ m = msg other
    ∧ set_eq a (attestations other) = true
    ∧ length o = length (ops other)
    ∧ Forall (λ item, ∃ child, dict_get item.1 (ops other) = Some child
                               ∧ equals item.2 child = true) o.
Proof.
  cbn [equals].
  rewrite !andb_true_iff, bool_decide_eq_true, dict_eq_true. tauto.
Qed.

Lemma timestamp_eq_unfold m a o other :
  timestamp_eq (mkTimestamp m a o) other = true
  ↔ m = msg other
    ∧ length o = length (ops other)
    ∧ Forall (λ item, ∃ child, dict_get item.1 (ops other) = Some child
                               ∧ timestamp_eq item.2 child = true) o.
Proof.
  cbn [timestamp_eq].
  rewrite !andb_true_iff, bool_decide_eq_true, dict_eq_true. tauto.
Qed.

(** A tree equals its sorted form. *)
Lemma equals_normalize t :
  containers_ok t = true → equals (normalize t) t = true.
Proof.
  induction t as [m a o IH] using Timestamp_children_ind.
  rewrite containers_ok_unfold. intros (Ha & Ho & Hcs).
  cbn [normalize]. apply equals_unfold. cbn [msg attestations ops].
  split_and!.
  - done.
  - apply set_eq_true; [by rewrite sorted_Permutation | done |].
    intros x. apply elem_of_sorted.
  - by rewrite length_sorted, length_fmap.
  - rewrite (sorted_fmap fst op_lt fst) by done.
    rewrite Forall_fmap. apply Forall_forall. intros [op child] Hin.
    apply elem_of_sorted in Hin. cbn.
    exists child. split; [by apply dict_get_elem_of|].
    rewrite Forall_forall in IH, Hcs.
    by apply (IH _ Hin), (Hcs _ Hin).
Qed.
End equality.

(** ** Merge *)

Section merge_lemmas.
Context {Op Att : Type} `{OpCatalogue Op} `{AttestationCatalogue Att}.
Implicit Types (t self other : Timestamp Op Att).
Implicit Types (o d : list (Op * Timestamp Op Att)).

Lemma well_formed_unfold m a o :
  well_formed (mkTimestamp m a o) = true
  ↔ NoDup a ∧ NoDup o.*1
    ∧ Forall (λ item, msg item.2 = op_call item.1 m
                      ∧ well_formed item.2 = true) o.
Proof.
  unfold well_formed.
  rewrite andb_true_iff, containers_ok_unfold, child_msgs_ok_unfold.
  rewrite !Forall_forall. setoid_rewrite andb_true_iff. naive_solver.
Qed.

Lemma well_formed_new m : well_formed (new (Op := Op) (Att := Att) m) = true.
Proof. apply well_formed_unfold. split_and!; constructor. Qed.

Lemma well_formed_child t op child :
  well_formed t = true → dict_get op (ops t) = Some child →
  msg child = op_call op (msg t) ∧ well_formed child = true.
Proof.
  destruct t as [m a o]. rewrite well_formed_unfold.
  intros (_ & _ & Hchildren) Hget%dict_get_Some.
  rewrite Forall_forall in Hchildren. apply (Hchildren _ Hget).
Qed.

Lemma elem_of_dict_set {K V} `{EqDecision K} (d : list (K * V)) k v k' v' :
  (k', v') ∈ dict_set k v d → (k' = k ∧ v' = v) ∨ (k', v') ∈ d.
Proof.
  induction d as [|[k0 v0] d IH]; simpl.
  - intros ?%list_elem_of_singleton. simplify_eq. by left.
  - case_decide; subst.
    + intros [?|?]%elem_of_cons; simplify_eq; [by left | right; by right].
    + intros [?|Hin]%elem_of_cons; simplify_eq; [right; by left|].
      destruct (IH Hin) as [?|?]; [by left | right; by right].
Qed.

Lemma dict_set_set {K V} `{EqDecision K} (d : list (K * V)) k v v' :
  dict_set k v' (dict_set k v d) = dict_set k v' d.
Proof.
  induction d as [|[k0 v0] d IH]; simpl.
  - by rewrite decide_True.
  - case_decide; subst; simpl.
    + by rewrite decide_True.
    + rewrite decide_False by done. by rewrite IH.
Qed.

(** One turn of the loop of [merge]. *)
Lemma merge_items_cons merge op child items self :
  merge_items merge ((op, child) :: items) self =
  let our := default (new (op_call op (msg self))) (dict_get op (ops self)) in
  let self' := mkTimestamp (msg self) (attestations self)
                 (dict_set op (merge our child).1 (ops self)) in
  match (merge our child).2 with
  | Ok _ => merge_items merge items self'
  | Raise e => (self', Raise e)
  end.
Proof.
  cbn [merge_items]. unfold OpSet_add, OpSet_setitem.
  destruct (dict_get op (ops self)) as [our|] eqn:Hget; simpl.
  - by destruct (merge our child) as [our' [[]|e]].
  - destruct (merge _ child) as [our' [[]|e]]; simpl;
      by rewrite dict_set_set.
Qed.

Lemma merge_timestamp_unfold self other :
  merge_timestamp self other =
  if decide (msg self ≠ msg other) then (self, Raise ValueError) else
  merge_items merge_timestamp (ops other)
    (mkTimestamp (msg self)
       (set_update (attestations self) (attestations other)) (ops self)).
Proof. by destruct other. Qed.

Lemma well_formed_dict_set m a d op child :
  well_formed (mkTimestamp m a d) = true →
  msg child = op_call op m → well_formed child = true →
  well_formed (mkTimestamp m a (dict_set op child d)) = true.
Proof.
  rewrite !well_formed_unfold. intros (Ha & Hd & Hchildren) Hmsg Hchild.
  split_and!; [done | by apply dict_set_NoDup |].
  rewrite Forall_forall in Hchildren. apply Forall_forall.
  intros [k v] [[-> ->]|Hin]%elem_of_dict_set; [done|].
  by apply Hchildren.
Qed.
End merge_lemmas.

Section merge_spec.
Context {Op Att : Type} `{OpCatalogue Op} `{AttestationCatalogue Att}.
Implicit Types (t self other : Timestamp Op Att).
Implicit Types (o d items : list (Op * Timestamp Op Att)).

Lemma merge_items_spec merge items self m :
  msg self = m → well_formed self = true → NoDup items.*1 →
  Forall (λ item, msg item.2 = op_call item.1 m
                  ∧ merges_well merge item.2) items →
  (merge_items merge items self).2 = Ok ()
  ∧ msg (merge_items merge items self).1 = m
  ∧ attestations (merge_items merge items self).1 = attestations self
  ∧ well_formed (merge_items merge items self).1 = true
  ∧ ∀ op, dict_get op (ops (merge_items merge items self).1)
          = match dict_get op items with
            | Some c => Some (merged_child merge m (ops self) op c)
            | None => dict_get op (ops self)
            end.
Proof.
  revert self.
  induction items as [|[op c] items IH]; intros self Hm Hwf Hnd Hitems.
  { by split_and!. }
  apply Forall_cons in Hitems as [[Hc Hmerge] Hitems]. simpl in Hc, Hmerge.
  rewrite fmap_cons in Hnd. apply NoDup_cons in Hnd as [Hop Hnd].
  rewrite merge_items_cons. cbn zeta.
  set (our := default (new (op_call op (msg self))) (dict_get op (ops self))).
  assert (msg our = op_call op m ∧ well_formed our = true) as [Hour Hwfour].
  { unfold our. destruct (dict_get op (ops self)) as [e|] eqn:Hget; simpl.
    - rewrite <-Hm. by eapply well_formed_child.
    - rewrite Hm. split; [done | apply well_formed_new]. }
  destruct (Hmerge our) as (Hok & Hmsg & Hwf'); [done | congruence |].
  rewrite Hok.
  set (self' := mkTimestamp _ _ _).
  destruct (IH self') as (Hr & Hrm & Hra & Hrwf & Hrget); [done | | done..|].
  { destruct self as [ms a d]. apply well_formed_dict_set; [done| |done].
    simpl in *. congruence. }
  split_and!; [done..|].
  intros k. rewrite Hrget. cbn [dict_get].
  unfold self'. cbn [ops]. unfold merged_child.
  rewrite dict_get_set.
  destruct (decide (k = op)) as [->|Hne].
  - cbn [fst] in Hop. apply dict_get_None in Hop. rewrite Hop.
    unfold our. by rewrite Hm.
  - done.
Qed.

Lemma merge_timestamp_spec other :
  well_formed other = true →
  ∀ self, well_formed self = true → msg self = msg other →
  (merge_timestamp self other).2 = Ok ()
  ∧ msg (merge_timestamp self other).1 = msg self
  ∧ well_formed (merge_timestamp self other).1 = true
  ∧ (∀ x, x ∈ attestations (merge_timestamp self other).1
          ↔ x ∈ attestations self ∨ x ∈ attestations other)
  ∧ ∀ op, dict_get op (ops (merge_timestamp self other).1)
          = match dict_get op (ops other) with
            | Some c =>
                Some (merged_child merge_timestamp (msg self) (ops self) op c)
            | None => dict_get op (ops self)
            end.
Proof.
  induction other as [m a o IH] using Timestamp_children_ind.
  intros Hwfo self Hwfs Hm. cbn [msg] in Hm.
  apply well_formed_unfold in Hwfo as (Ha & Ho & Hchildren).
  rewrite merge_timestamp_unfold. cbn [msg attestations ops].
  rewrite decide_False by (intros Hne; by apply Hne).
  set (self' := mkTimestamp _ _ _).
  destruct (merge_items_spec merge_timestamp o self' (msg self))
    as (Hr & Hrm & Hra & Hrwf & Hrget); [done | | done | |].
  { destruct self as [ms sa sd].
    apply well_formed_unfold in Hwfs as (Hsa & Hsd & Hsc).
    apply well_formed_unfold. split_and!; [|done..].
    by apply set_update_NoDup. }
  { rewrite Forall_forall in IH, Hchildren. apply Forall_forall.
    intros item Hitem. destruct (Hchildren _ Hitem) as [Hmsg Hwf].
    split; [congruence|].
    intros our Hwfour Hour.
    destruct (IH _ Hitem Hwf our Hwfour Hour) as (? & ? & ? & _). done. }
  split_and!; [done..| |done].
  intros x. rewrite Hra. unfold self'. cbn [attestations].
  apply elem_of_set_update.
Qed.
End merge_spec.

Section merge_commutes.
Context {Op Att : Type} `{OpCatalogue Op} `{AttestationCatalogue Att}.
Implicit Types (t self other : Timestamp Op Att).
Implicit Types (o d items : list (Op * Timestamp Op Att)).

Lemma well_formed_containers t :
  well_formed t = true → NoDup (attestations t) ∧ NoDup (ops t).*1.
Proof. destruct t. rewrite well_formed_unfold. tauto. Qed.

Lemma dict_get_is_Some {K V} `{EqDecision K} (d : list (K * V)) k :
  is_Some (dict_get k d) ↔ k ∈ d.*1.
Proof.
  destruct (dict_get k d) as [v|] eqn:Hget.
  - split; [intros _|by eexists].
    apply dict_get_Some in Hget. apply list_elem_of_fmap. by exists (k, v).
  - apply dict_get_None in Hget. split; [by intros [? ?] | done].
Qed.

Lemma dict_keys_length {K V} `{EqDecision K} (d1 d2 : list (K * V)) :
  NoDup d1.*1 → NoDup d2.*1 →
  (∀ k, is_Some (dict_get k d1) ↔ is_Some (dict_get k d2)) →
  length d1 = length d2.
Proof.
  intros Hnd1 Hnd2 Hkeys.
  rewrite <-(length_fmap fst d1), <-(length_fmap fst d2).
  apply Permutation_length, NoDup_Permutation; [done..|].
  intros k. by rewrite <-!dict_get_is_Some.
Qed.

(** Two trees are equal when their messages, their attestations and,
    key by key, their children are. *)
Lemma equals_intro t1 t2 :
  NoDup (attestations t1) → NoDup (attestations t2) →
  NoDup (ops t1).*1 → NoDup (ops t2).*1 →
  msg t1 = msg t2 →
  (∀ x, x ∈ attestations t1 ↔ x ∈ attestations t2) →
  (∀ op, match dict_get op (ops t1), dict_get op (ops t2) with
         | Some c1, Some c2 => equals c1 c2 = true
         | None, None => True
         | _, _ => False
         end) →
  equals t1 t2 = true.
Proof.
  destruct t1 as [m1 a1 o1]. cbn [msg attestations ops].
  intros Ha1 Ha2 Ho1 Ho2 Hm Ha Ho. apply equals_unfold. split_and!.
  - done.
  - by apply set_eq_true.
  - apply dict_keys_length; [done..|]. intros k. specialize (Ho k).
    destruct (dict_get k o1), (dict_get k (ops t2)); try done;
      split; intros [? ?]; done.
  - apply Forall_forall. intros [k c1] Hin. cbn [fst snd].
    apply dict_get_elem_of in Hin; [|done].
    specialize (Ho k). rewrite Hin in Ho.
    destruct (dict_get k (ops t2)) as [c2|]; [|done]. by exists c2.
Qed.

(** Merging a timestamp into a new one copies it. *)
Lemma merge_new_equals t :
  well_formed t = true →
  equals (merge_timestamp (new (msg t)) t).1 t = true
  ∧ equals t (merge_timestamp (new (msg t)) t).1 = true.
Proof.
  induction t as [m a o IH] using Timestamp_children_ind. intros Hwf.
  destruct (merge_timestamp_spec (mkTimestamp m a o) Hwf (new m))
    as (_ & Hmsg & Hwf' & Hatts & Hget); [apply well_formed_new | done |].
  pose proof (well_formed_containers _ Hwf) as [Ha Ho].
  pose proof (well_formed_containers _ Hwf') as [Ha' Ho'].
  assert (∀ op,
    match dict_get op (ops (merge_timestamp (new m) (mkTimestamp m a o)).1),
          dict_get op o with
    | Some c1, Some c2 => equals c1 c2 = true ∧ equals c2 c1 = true
    | None, None => True
    | _, _ => False
    end) as Hchildren.
  { intros op. rewrite Hget. cbn [ops new dict_get].
    destruct (dict_get op o) as [c|] eqn:Hc; [|done].
    unfold merged_child. cbn [dict_get default msg new].
    destruct (well_formed_child _ _ _ Hwf Hc) as [Hcm Hcwf].
    cbn [msg] in Hcm. rewrite <-Hcm.
    apply dict_get_Some in Hc. rewrite Forall_forall in IH.
    by apply (IH _ Hc). }
  cbn [msg]. split.
  - apply equals_intro; [done..| |].
    + intros x. rewrite Hatts. cbn. rewrite elem_of_nil. tauto.
    + intros op. specialize (Hchildren op). cbn [ops].
      destruct (dict_get op _), (dict_get op o); tauto.
  - apply equals_intro; [done..| |].
    + intros x. rewrite Hatts. cbn. rewrite elem_of_nil. tauto.
    + intros op. specialize (Hchildren op). cbn [ops].
      destruct (dict_get op _), (dict_get op o); tauto.
Qed.

Lemma merge_timestamp_commutes A :
  well_formed A = true →
  ∀ B, well_formed B = true → msg A = msg B →
  equals (merge_timestamp A B).1 (merge_timestamp B A).1 = true.
Proof.
  induction A as [m a o IH] using Timestamp_children_ind.
  intros HwfA B HwfB Hm. cbn [msg] in Hm.
  set (A := mkTimestamp m a o) in *.
  destruct (merge_timestamp_spec B HwfB A HwfA)
    as (_ & HmAB & HwfAB & HaAB & HgAB); [done|].
  destruct (merge_timestamp_spec A HwfA B HwfB)
    as (_ & HmBA & HwfBA & HaBA & HgBA); [done|].
  pose proof (well_formed_containers _ HwfAB) as [? ?].
  pose proof (well_formed_containers _ HwfBA) as [? ?].
  apply equals_intro; [done..| | |].
  - rewrite HmAB, HmBA. done.
  - intros x. rewrite HaAB, HaBA. tauto.
  - intros op. rewrite HgAB, HgBA. unfold merged_child.
    change (ops A) with o. change (msg A) with m.
    destruct (dict_get op o) as [ca|] eqn:Hca,
             (dict_get op (ops B)) as [cb|] eqn:Hcb; cbn [default].
    + destruct (well_formed_child _ _ _ HwfA Hca) as [Hcam Hcawf].
      destruct (well_formed_child _ _ _ HwfB Hcb) as [Hcbm Hcbwf].
      apply dict_get_Some in Hca. rewrite Forall_forall in IH.
      change (msg A) with m in Hcam.
      apply (IH _ Hca); [done..|]. cbn [snd]. unfold id. congruence.
    + destruct (well_formed_child _ _ _ HwfA Hca) as [Hcam Hcawf].
      change (msg A) with m in Hcam. rewrite <-Hm, <-Hcam.
      by apply merge_new_equals.
    + destruct (well_formed_child _ _ _ HwfB Hcb) as [Hcbm Hcbwf].
      rewrite Hm, <-Hcbm. by apply merge_new_equals.
    + done.
Qed.
End merge_commutes.

(** ** Stores *)

Section store_lemmas.
Context {Op Att : Type} `{OpCatalogue Op} `{AttestationCatalogue Att}.
Import Store.
Implicit Types (h : store Op Att) (o : object Op Att) (r : ref).

Lemma store_ok_inv h : store_ok h = true ↔ store_inv h.
Proof.
  unfold store_ok, store_inv, entries_ok. rewrite forallb_Forall.
  apply Forall_proper; [|done]. intros o. rewrite forallb_Forall.
  apply Forall_proper; [|done]. intros [op c]. simpl.
  destruct (h !! c) as [child|]; split.
  - intros ?%bool_decide_eq_true. by exists child.
  - intros (? & [= <-] & ?). by apply bool_decide_eq_true.
  - done.
  - by intros (? & ? & ?).
Qed.

Lemma extends_refl h : extends h h.
Proof. intros r o ?. by exists o. Qed.

Lemma extends_trans h1 h2 h3 : extends h1 h2 → extends h2 h3 → extends h1 h3.
Proof.
  intros H12 H23 r o Hr. destruct (H12 _ _ Hr) as (o2 & Hr2 & Hm2).
  destruct (H23 _ _ Hr2) as (o3 & Hr3 & Hm3). exists o3. split; congruence.
Qed.

Lemma extends_alloc h o : extends h (h ++ [o]).
Proof.
  intros r o' Hr. exists o'. split; [|done].
  by apply lookup_app_l_Some.
Qed.

Lemma extends_insert h r o o' :
  h !! r = Some o → obj_msg o' = obj_msg o → extends h (<[r:=o']> h).
Proof.
  intros Hr Hm r' o'' Hr'. destruct (decide (r' = r)) as [->|Hne].
  - assert (o'' = o) as -> by congruence. exists o'. split; [|done].
    apply list_lookup_insert_eq. by eapply lookup_lt_Some.
  - exists o''. split; [|done]. by rewrite list_lookup_insert_ne.
Qed.

Lemma entries_ok_extends h h' o :
  extends h h' → entries_ok h o → entries_ok h' o.
Proof.
  unfold entries_ok. intros Hext Ho. eapply Forall_impl; [done|].
  intros [op c] (child & Hc & Hm). destruct (Hext _ _ Hc) as (child' & ? & ?).
  exists child'. split; [done | congruence].
Qed.

Lemma entries_ok_msg h o o' :
  obj_msg o' = obj_msg o → obj_ops o' = obj_ops o →
  entries_ok h o → entries_ok h o'.
Proof. unfold entries_ok. by intros -> ->. Qed.

Lemma store_inv_alloc h o :
  store_inv h → entries_ok h o → store_inv (h ++ [o]).
Proof.
  unfold store_inv. intros Hh Ho. apply Forall_app. split.
  - eapply Forall_impl; [done|]. intros o'.
    apply entries_ok_extends, extends_alloc.
  - constructor; [|done]. eapply entries_ok_extends; [|done].
    apply extends_alloc.
Qed.

Lemma store_inv_insert h r o o' :
  store_inv h → h !! r = Some o → obj_msg o' = obj_msg o →
  entries_ok h o' → store_inv (<[r:=o']> h).
Proof.
  unfold store_inv. intros Hh Hr Hm Ho'.
  pose proof (extends_insert h r o o' Hr Hm) as Hext.
  rewrite Forall_lookup in Hh. apply Forall_lookup. intros r' o'' Hr'.
  destruct (decide (r' = r)) as [->|Hne].
  - rewrite list_lookup_insert_eq in Hr' by (by eapply lookup_lt_Some).
    simplify_eq. by eapply entries_ok_extends.
  - rewrite list_lookup_insert_ne in Hr' by done.
    eapply entries_ok_extends; [done|]. by eapply Hh.
Qed.

Lemma store_inv_lookup h r o : store_inv h → h !! r = Some o → entries_ok h o.
Proof. unfold store_inv. rewrite Forall_lookup. eauto. Qed.

(** *** The rules of [sound] *)

Lemma state_bind_unfold {A B} (c : state Op Att A) (k : A → state Op Att B) h :
  (c ≫= k) h = match c h with
               | (h', Ok a) => k a h'
               | (h', Raise e) => (h', Raise e)
               end.
Proof. done. Qed.

Lemma sound_ret {A} (V : Prop) h (a : A) (Q : A → store Op Att → Prop) :
  store_inv h → Q a h → sound V h (mret a) Q.
Proof.
  intros Hh HQ. split_and!; [done | apply extends_refl | | by eexists].
  by intros ? [= <-].
Qed.

Lemma sound_raise {A} h e (Q : A → store Op Att → Prop) :
  store_inv h → sound False h (raise e) Q.
Proof. intros Hh. split_and!; [done | apply extends_refl | done..]. Qed.

Lemma sound_bind {A B} (V V1 : Prop) h
    (c : state Op Att A) (k : A → state Op Att B)
    (Q1 : A → store Op Att → Prop) (Q2 : B → store Op Att → Prop) :
  sound V1 h c Q1 → (V → V1) →
  (∀ a h1, c h = (h1, Ok a) → store_inv h1 → extends h h1 → Q1 a h1 →
           sound V h1 (k a) Q2) →
  sound V h (c ≫= k) Q2.
Proof.
  intros (Hinv & Hext & HQ1 & Hret) HV Hk. unfold sound.
  rewrite state_bind_unfold.
  destruct (c h) as [h1 [a|e]] eqn:Hc; simpl in *.
  - destruct (Hk a h1) as (Hinv2 & Hext2 & HQ2 & Hret2);
      [done..|by apply HQ1|].
    split_and!; [done | by eapply extends_trans | done..].
  - split_and!; [done..|]. intros [a Ha]%HV%Hret. done.
Qed.

Lemma sound_weaken {A} (V V' : Prop) h (c : state Op Att A)
    (Q Q' : A → store Op Att → Prop) :
  sound V h c Q → (V' → V) →
  (∀ a h', c h = (h', Ok a) → extends h h' → store_inv h' →
           Q a h' → Q' a h') →
  sound V' h c Q'.
Proof.
  intros (Hinv & Hext & HQ & Hret) HV Himpl. split_and!; [done..| |auto].
  intros a Ha. apply Himpl; [|done..|by apply HQ].
  destruct (c h) as [h' r]. simpl in *. by subst.
Qed.

Lemma sound_get h r :
  store_inv h →
  sound (is_Some (h !! r)) h (get r) (λ o h', h' = h ∧ h !! r = Some o).
Proof.
  intros Hh. unfold sound, get.
  destruct (h !! r) as [o|] eqn:Hr; simpl;
    (split_and!; [done | apply extends_refl | |]).
  - by intros ? [= <-].
  - by eexists.
  - done.
  - by intros [? ?].
Qed.

Lemma sound_put V h r o o' :
  store_inv h → h !! r = Some o → obj_msg o' = obj_msg o →
  entries_ok h o' →
  sound V h (put r o') (λ _ h', h' = <[r:=o']> h).
Proof.
  intros Hh Hr Hm Ho'. unfold sound, put. simpl.
  split_and!; [| |done|by eexists].
  - by eapply store_inv_insert.
  - by eapply extends_insert.
Qed.

Lemma sound_alloc V h o :
  store_inv h → entries_ok h o →
  sound V h (alloc o) (λ r h', r = length h ∧ h' = h ++ [o]).
Proof.
  intros Hh Ho. unfold sound, alloc. simpl. split_and!.
  - by apply store_inv_alloc.
  - apply extends_alloc.
  - by intros ? [= <-].
  - by eexists.
Qed.
End store_lemmas.

(** ** The operations on stores *)

Section store_ops.
Context {Op Att : Type} `{OpCatalogue Op} `{AttestationCatalogue Att}.
Import Store.
Implicit Types (h : store Op Att) (o : object Op Att) (r self : ref).

Lemma grows_refl h : grows h h.
Proof. split; [apply extends_refl | done]. Qed.

Lemma grows_trans h1 h2 h3 : grows h1 h2 → grows h2 h3 → grows h1 h3.
Proof.
  intros [He12 Hc12] [He23 Hc23]. split; [by eapply extends_trans | auto].
Qed.

Lemma sound_new V h m :
  store_inv h →
  sound V h (new m) (λ r h', r = length h ∧ h' = h ++ [mkObject m [] []]).
Proof.
  intros Hh. eapply sound_weaken.
  - apply sound_alloc; [done|]. constructor.
  - done.
  - auto.
Qed.

Lemma sound_attestations_add h self a :
  store_inv h →
  sound (is_Some (h !! self)) h (attestations_add self a) (λ _ _, True).
Proof.
  intros Hh. unfold attestations_add.
  eapply sound_bind; [by apply sound_get | done |].
  intros o h1 _ _ _ [-> Hself].
  eapply sound_weaken.
  - eapply (sound_put True _ _ o); [done..|].
    eapply (entries_ok_msg _ o); [done..|]. by eapply store_inv_lookup.
  - done.
  - done.
Qed.

Lemma msg_of_lookup h r o : h !! r = Some o → msg_of h r = obj_msg o.
Proof. unfold msg_of. by intros ->. Qed.

Lemma sound_setitem V h self op new_timestamp o on :
  store_inv h → h !! self = Some o → h !! new_timestamp = Some on →
  obj_msg on = op_call op (obj_msg o) →
  sound V h (setitem self op new_timestamp)
    (λ _ h', h' = <[self := mkObject (obj_msg o) (obj_attestations o)
                             (dict_set op new_timestamp (obj_ops o))]> h).
Proof.
  intros Hh Hself Hnew Hmsg.
  assert (OpSet_setitem (msg_of h) (obj_ops o) op new_timestamp
          = Ok (dict_set op new_timestamp (obj_ops o))) as Hset.
  { unfold OpSet_setitem.
    destruct (dict_get op (obj_ops o)) as [e|] eqn:Hget; [|done].
    apply dict_get_Some in Hget.
    pose proof (store_inv_lookup _ _ _ Hh Hself) as Ho.
    unfold entries_ok in Ho. rewrite Forall_forall in Ho.
    destruct (Ho _ Hget) as (oe & He & Hem). simpl in He, Hem.
    rewrite (msg_of_lookup _ _ _ He), (msg_of_lookup _ _ _ Hnew).
    rewrite decide_False; [done|]. intros Hne. apply Hne. congruence. }
  unfold sound, setitem. rewrite Hself, Hset. simpl.
  split_and!; [| |done|by eexists].
  - eapply store_inv_insert; [done..|].
    pose proof (store_inv_lookup _ _ _ Hh Hself) as Ho.
    unfold entries_ok in *. simpl. rewrite Forall_forall in Ho.
    apply Forall_forall. intros [k c] [[-> ->]|Hin]%elem_of_dict_set.
    + by exists on.
    + by apply Ho.
  - by eapply extends_insert.
Qed.

Lemma child_of_insert_ne h r r' o k :
  r ≠ r' → child_of (<[r':=o]> h) r k = child_of h r k.
Proof. intros Hne. unfold child_of. by rewrite list_lookup_insert_ne. Qed.

Lemma child_of_insert_eq h r o k :
  r < length h → child_of (<[r:=o]> h) r k = dict_get k (obj_ops o).
Proof. intros Hr. unfold child_of. by rewrite list_lookup_insert_eq. Qed.

Lemma child_of_app h o r k c :
  child_of h r k = Some c → child_of (h ++ [o]) r k = Some c.
Proof.
  unfold child_of. destruct (h !! r) as [o'|] eqn:Hr; [|done].
  by rewrite (lookup_app_l_Some _ _ _ _ Hr).
Qed.

(** [OpSet.add] returns the child under [key], with message [key(msg)],
    and keeps every other entry. *)
Lemma sound_add h self key :
  store_inv h →
  sound (is_Some (h !! self)) h (add self key)
    (λ r h', ∃ o child,
       h !! self = Some o ∧ h' !! r = Some child
       ∧ obj_msg child = op_call key (obj_msg o)
       ∧ child_of h' self key = Some r ∧ grows h h').
Proof.
  intros Hh. unfold add.
  eapply sound_bind; [by apply sound_get | done |].
  intros o h1 _ _ _ [-> Hself].
  destruct (dict_get key (obj_ops o)) as [v|] eqn:Hget.
  - apply sound_ret; [done|].
    pose proof (store_inv_lookup _ _ _ Hh Hself) as Ho.
    unfold entries_ok in Ho. rewrite Forall_forall in Ho.
    destruct (Ho _ (dict_get_Some _ _ _ Hget)) as (child & Hv & Hm).
    exists o, child. split_and!; [done..| |apply grows_refl].
    unfold child_of. by rewrite Hself.
  - eapply sound_bind; [by apply sound_new | done |].
    intros value h2 _ _ _ [-> ->].
    assert (self < length h) as Hlt by (by eapply lookup_lt_Some).
    eapply sound_bind; [| done |].
    { eapply (sound_setitem _ _ _ _ _ o (mkObject _ [] [])); [| |by apply list_lookup_middle|done].
      - apply store_inv_alloc; [done|]. constructor.
      - by apply lookup_app_l_Some. }
    intros [] h3 _ Hinv3 _ ->. apply sound_ret; [done|].
    exists o, (mkObject (op_call key (obj_msg o)) [] []).
    split_and!; [done| |done| |].
    + rewrite list_lookup_insert_ne by lia. by apply list_lookup_middle.
    + rewrite child_of_insert_eq by (rewrite length_app; lia). simpl.
      rewrite dict_get_set. by rewrite decide_True.
    + split.
      * eapply extends_trans; [apply extends_alloc|].
        eapply extends_insert; [by apply lookup_app_l_Some | done].
      * intros r k c Hc. destruct (decide (r = self)) as [->|Hne].
        -- rewrite child_of_insert_eq by (rewrite length_app; lia). simpl.
           unfold child_of in Hc. rewrite Hself in Hc. simpl in Hc.
           rewrite dict_get_set. rewrite decide_False; [done|].
           intros ->. congruence.
        -- rewrite child_of_insert_ne by done. by apply child_of_app.
Qed.
End store_ops.

Section store_merge.
Context {Op Att : Type} `{OpCatalogue Op} `{AttestationCatalogue Att}.
Import Store.
Implicit Types (h : store Op Att) (o : object Op Att) (r self other : ref).

(** Code that keeps the invariant, whatever it returns. *)
Lemma sound_any {A} (V : Prop) h (c : state Op Att A)
    (Q : A → store Op Att → Prop) :
  sound V h c Q → sound False h c (λ _ _, True).
Proof. intros Hc. eapply sound_weaken; [done | done | done]. Qed.

Lemma sound_merge_items merge self other size todo :
  (∀ ours theirs h, store_inv h →
     sound False h (merge ours theirs) (λ _ _, True)) →
  ∀ h, store_inv h →
  sound False h (merge_items merge self other size todo) (λ _ _, True).
Proof.
  intros Hmerge. induction todo as [|todo IH]; intros h Hh.
  - cbn [merge_items].
    eapply sound_bind; [by apply sound_get | done |].
    intros o h1 _ _ _ [-> Hother].
    case_decide; [by apply sound_raise | by apply sound_ret].
  - cbn [merge_items].
    eapply sound_bind; [by apply sound_get | done |].
    intros o h1 _ _ _ [-> Hother].
    case_decide; [by apply sound_raise|].
    destruct (obj_ops o !! _) as [[other_op other_op_stamp]|];
      [|by apply sound_ret].
    eapply sound_bind; [by apply sound_add | done |].
    intros our h2 _ Hh2 _ _.
    eapply sound_bind; [by apply Hmerge | done |].
    intros [] h3 _ Hh3 _ _. by apply IH.
Qed.

(** [merge] keeps the invariant, whether it returns or raises. *)
Lemma sound_merge_timestamp depth self other h :
  store_inv h →
  sound False h (merge_timestamp depth self other) (λ _ _, True).
Proof.
  revert self other h.
  induction depth as [|depth IH]; intros self other h Hh.
  { by apply sound_raise. }
  cbn [merge_timestamp].
  eapply sound_bind; [by apply sound_get | done |].
  intros s h1 _ _ _ [-> Hself].
  eapply sound_bind; [by apply sound_get | done |].
  intros o h1 _ _ _ [-> Hother].
  case_decide; [by apply sound_raise|].
  eapply sound_bind; [| done |].
  { eapply (sound_put _ _ _ s); [done..|].
    eapply (entries_ok_msg _ s); [done..|]. by eapply store_inv_lookup. }
  intros [] h2 _ Hh2 _ _.
  eapply sound_bind; [by apply sound_get | done |].
  intros o' h3 _ _ _ [-> _].
  by apply sound_merge_items.
Qed.

Lemma sound_merge depth self (other : arg) h :
  store_inv h → sound False h (merge depth self other) (λ _ _, True).
Proof.
  intros Hh. destruct other; [by apply sound_merge_timestamp|].
  by apply sound_raise.
Qed.

(** *** Allocation of a tree *)

Lemma sound_allocate_items allocate (l : list (Op * Timestamp Op Att)) m :
  Forall (λ item,
    msg item.2 = op_call item.1 m
    ∧ ∀ h, store_inv h →
           sound True h (allocate item.2)
             (λ r h', ∃ o, h' !! r = Some o ∧ obj_msg o = msg item.2)) l →
  ∀ h, store_inv h →
  sound True h (allocate_items allocate l)
    (λ rs h', Forall (λ item, ∃ child, h' !! item.2 = Some child
                                ∧ obj_msg child = op_call item.1 m) rs).
Proof.
  induction 1 as [|[op child] l [Hmsg Hchild] Hl IH]; intros h Hh.
  { by apply sound_ret. }
  cbn [allocate_items].
  eapply sound_bind; [by apply Hchild | done |].
  intros r h1 _ Hh1 _ (o & Hr & Ho).
  eapply sound_bind; [by apply IH | done |].
  intros rs h2 _ Hh2 Hext2 Hrs.
  apply sound_ret; [done|]. constructor; [|done].
  destruct (Hext2 _ _ Hr) as (o' & Hr' & Ho'). exists o'.
  simpl in *. split; [done | congruence].
Qed.

Lemma sound_allocate (t : Timestamp Op Att) :
  child_msgs_ok t = true →
  ∀ h, store_inv h →
  sound True h (allocate t)
    (λ r h', ∃ o, h' !! r = Some o ∧ obj_msg o = msg t).
Proof.
  induction t as [m a o IH] using Timestamp_children_ind.
  rewrite child_msgs_ok_unfold. intros Hchildren h Hh.
  cbn [allocate].
  eapply sound_bind; [| done |].
  { apply (sound_allocate_items _ o m); [|done].
    rewrite Forall_forall in IH, Hchildren. apply Forall_forall.
    intros item Hitem. destruct (Hchildren _ Hitem) as [Hmsg Hok].
    split; [done|]. by apply IH. }
  intros children h1 _ Hh1 _ Hrs.
  eapply sound_weaken; [apply sound_alloc; [exact Hh1|exact Hrs] | done |].
  intros r h2 _ _ _ [-> ->]. eexists.
  split; [by apply list_lookup_middle | done].
Qed.
End store_merge.

(** ** Concatenation and aggregation *)

Section store_cat.
Context {Op Att : Type} `{OpCatalogue Op} `{AttestationCatalogue Att}.
Context `{!OpConcat}.
Import Store.
Implicit Types (h : store Op Att) (o : object Op Att) (r self other : ref).

Lemma extends_lookup h h' r o :
  extends h h' → h !! r = Some o →
  ∃ o', h' !! r = Some o' ∧ obj_msg o' = obj_msg o.
Proof. intros Hext. apply Hext. Qed.

(** After [cat_then_unary_op] on two timestamps, both sides hold the same
    child, and the result is the child of that child under the unary
    operation. *)
Lemma sound_cat_timestamps unary_op left right h :
  store_inv h →
  sound (is_Some (h !! left) ∧ is_Some (h !! right)) h
    (cat_timestamps unary_op left right)
    (λ t h', ∃ lo ro x ox ot,
       h !! left = Some lo ∧ h !! right = Some ro
       ∧ child_of h' left (OpAppend (obj_msg ro)) = Some x
       ∧ child_of h' right (OpPrepend (obj_msg lo)) = Some x
       ∧ h' !! x = Some ox ∧ obj_msg ox = obj_msg lo ++ obj_msg ro
       ∧ child_of h' x unary_op = Some t
       ∧ h' !! t = Some ot
       ∧ obj_msg ot = op_call unary_op (obj_msg lo ++ obj_msg ro)).
Proof.
  intros Hh. unfold cat_timestamps.
  eapply sound_bind; [by apply sound_get | tauto |].
  intros r h1 _ _ _ [-> Hright].
  eapply sound_bind; [by apply sound_add | tauto |].
  intros x1 h1 _ Hh1 Hext1 (l & ox1 & Hleft & Hx1 & Hmx1 & Hcx1 & Hg1).
  destruct (extends_lookup _ _ _ _ Hext1 Hleft) as (l1 & Hleft1 & Hml1).
  destruct (extends_lookup _ _ _ _ Hext1 Hright) as (r1 & Hright1 & Hmr1).
  eapply sound_bind; [by apply sound_get | by eauto |].
  intros l1' h2 _ _ _ [-> Hl1']. assert (l1' = l1) as -> by congruence.
  eapply sound_bind; [by apply sound_add | by eauto |].
  intros x h2 _ Hh2 Hext2 (r1' & ox & Hr1' & Hx & Hmx & Hcx & Hg2).
  assert (r1' = r1) as -> by congruence.
  destruct (extends_lookup _ _ _ _ Hext2 Hleft1) as (l2 & Hleft2 & Hml2).
  destruct (extends_lookup _ _ _ _ Hext2 Hright1) as (r2 & Hright2 & Hmr2).
  eapply sound_bind; [by apply sound_get | by eauto |].
  intros r2' h3 _ _ _ [-> Hr2']. assert (r2' = r2) as -> by congruence.
  assert (obj_msg ox = obj_msg l ++ obj_msg r) as Hmx'.
  { rewrite Hmx, op_call_prepend. congruence. }
  eapply sound_bind; [| done |].
  { eapply (sound_setitem _ _ _ _ _ l2 ox); [done..|].
    rewrite op_call_append. congruence. }
  intros [] h3 _ Hh3 Hext3 ->.
  set (h3 := <[left:=_]> h2) in *.
  destruct (extends_lookup _ _ _ _ Hext3 Hx) as (ox3 & Hx3 & Hmx3).
  assert (child_of h3 left (OpAppend (obj_msg r)) = Some x) as Hcl.
  { unfold h3. rewrite child_of_insert_eq by (by eapply lookup_lt_Some).
    simpl. rewrite dict_get_set, decide_True; [done|]. congruence. }
  assert (child_of h3 right (OpPrepend (obj_msg l)) = Some x) as Hcr.
  { rewrite Hml1 in Hcx. unfold h3.
    destruct (decide (right = left)) as [->|Hne].
    - rewrite child_of_insert_eq by (by eapply lookup_lt_Some). simpl.
      rewrite dict_get_set. case_decide; [done|].
      unfold child_of in Hcx. rewrite Hleft2 in Hcx. done.
    - by rewrite child_of_insert_ne. }
  eapply sound_weaken; [by apply sound_add | by eauto |].
  intros t h4 _ Hext4 Hh4 (ox3' & ot & Hx3' & Ht & Hmt & Hct & Hg4).
  assert (ox3' = ox3) as -> by congruence.
  destruct (extends_lookup _ _ _ _ Hext4 Hx3) as (ox4 & Hx4 & Hmx4).
  destruct Hg4 as [_ Hg4].
  exists l, r, x, ox4, ot. split_and!; [done..| | |done| | |done|].
  - by apply Hg4.
  - by apply Hg4.
  - congruence.
  - done.
  - rewrite Hmt. congruence.
Qed.

Lemma sound_as_timestamp V h (x : arg) :
  store_inv h →
  sound V h (as_timestamp x)
    (λ r h', ∀ m, arg_msg h x = Some m →
                  ∃ o, h' !! r = Some o ∧ obj_msg o = m).
Proof.
  intros Hh. destruct x as [r|b]; simpl.
  - apply sound_ret; [done|]. intros m Hm.
    destruct (h !! r) as [o|]; [|done]. exists o. by simplify_eq/=.
  - eapply sound_weaken; [by apply sound_new | done |].
    intros r h' _ _ _ [-> ->] m [= <-]. eexists.
    split; [by apply list_lookup_middle | done].
Qed.

(** [cat_then_unary_op] returns a timestamp for the unary operation of
    the concatenated messages. *)
Lemma sound_cat_then_unary_op unary_op (left right : arg) h :
  store_inv h →
  sound (is_Some (arg_msg h left) ∧ is_Some (arg_msg h right)) h
    (cat_then_unary_op unary_op left right)
    (λ t h', ∃ ot, h' !! t = Some ot
       ∧ ∀ lm rm, arg_msg h left = Some lm → arg_msg h right = Some rm →
                  obj_msg ot = op_call unary_op (lm ++ rm)).
Proof.
  intros Hh. unfold cat_then_unary_op.
  eapply sound_bind; [by apply sound_as_timestamp | done |].
  intros l h1 _ Hh1 Hext1 Hl.
  eapply sound_bind; [by apply sound_as_timestamp | done |].
  intros r h2 _ Hh2 Hext2 Hr.
  assert (∀ rm, arg_msg h right = Some rm → arg_msg h1 right = Some rm)
    as Hright.
  { destruct right as [r'|b]; simpl; [|done]. intros rm Hrm.
    destruct (h !! r') as [o|] eqn:Hr'; [|done].
    destruct (Hext1 _ _ Hr') as (o' & -> & Hm). simpl in *. congruence. }
  eapply sound_weaken; [by apply sound_cat_timestamps | |].
  - intros [[lm Hlm] [rm Hrm]].
    destruct (Hl _ Hlm) as (ol & Hol & _).
    destruct (extends_lookup _ _ _ _ Hext2 Hol) as (ol' & Hol' & _).
    destruct (Hr _ (Hright _ Hrm)) as (or' & Hor & _).
    split; by eexists.
  - intros t h3 _ _ _ (ol & or' & x & ox & ot & Hol & Hor & _ & _ & _ & _
                       & _ & Ht & Hmt).
    exists ot. split; [done|]. intros lm rm Hlm Hrm.
    destruct (Hl _ Hlm) as (ol1 & Hol1 & Hm1).
    destruct (extends_lookup _ _ _ _ Hext2 Hol1) as (ol' & Hol' & Hm1').
    destruct (Hr _ (Hright _ Hrm)) as (or1 & Hor1 & Hm2).
    rewrite Hmt. repeat f_equal; congruence.
Qed.
End store_cat.

(** ** Decoded trees keep the child-message invariant *)

Section deserialize_invariant.
Context {Op Att : Type} `{OpCatalogue Op} `{AttestationCatalogue Att}.
Implicit Types (t self : Timestamp Op Att).

Lemma read_items_preserves (P : Timestamp Op Att → Prop) do_tag :
  (∀ tag self ctx self' ctx',
     P self → do_tag tag self ctx = Ok (self', ctx') → P self') →
  ∀ turns self ctx t rest,
    P self → read_items do_tag turns self ctx = Ok (t, rest) → P t.
Proof.
  intros Hdo. induction turns as [|turns IH]; intros self ctx t rest HP;
    rewrite read_items_unfold;
    destruct (read_byte ctx) as [[tag ctx1]|]; simpl; try done;
    (case_decide; [|by apply Hdo]); [done|].
  destruct (read_byte ctx1) as [[tag2 ctx2]|]; simpl; [|done].
  destruct (do_tag tag2 self ctx2) as [[self' ctx3]|] eqn:Hstep; simpl;
    [|done].
  apply IH. by eapply Hdo.
Qed.

Lemma do_tag_preserves des m tag self ctx self' ctx' :
  (∀ ctx m t rest, des ctx m = Ok (t, rest) →
                   msg t = m ∧ child_msgs_ok t = true) →
  msg self = m ∧ child_msgs_ok self = true →
  do_tag_or_attestation des m tag self ctx = Ok (self', ctx') →
  msg self' = m ∧ child_msgs_ok self' = true.
Proof.
  intros Hdes [Hm Hok]. unfold do_tag_or_attestation.
  destruct self as [ms a o]. cbn [msg attestations ops] in *.
  case_decide.
  - destruct (att_deserialize ctx) as [[att ctx1]|]; simpl; [|done].
    intros [= <- <-]. split; [done|].
    by rewrite child_msgs_ok_unfold in *.
  - destruct (op_deserialize_from_tag tag ctx) as [[op ctx1]|]; simpl;
      [|done].
    destruct (des ctx1 (op_call op m)) as [[stamp ctx2]|] eqn:Hstamp; simpl;
      [|done].
    destruct (Hdes _ _ _ _ Hstamp) as [Hsm Hsok].
    unfold OpSet_setitem.
    assert (child_msgs_ok (mkTimestamp ms a (dict_set op stamp o)) = true).
    { rewrite child_msgs_ok_unfold in *. rewrite Forall_forall in Hok.
      apply Forall_forall.
      intros [k c] [[-> ->]|Hin]%elem_of_dict_set; [|by apply Hok].
      simpl. split; [congruence | done]. }
    destruct (dict_get op o); [case_decide|]; simpl; try done;
      by intros [= <- <-].
Qed.

(** A decoded tree has the root message it was given and satisfies the
    child-message invariant. *)
Lemma deserialize_depth_child_msgs_ok depth ctx m t rest :
  deserialize_depth depth ctx m = Ok (t, rest) →
  msg t = m ∧ child_msgs_ok t = true.
Proof.
  revert ctx m t rest.
  induction depth as [|depth IH]; intros ctx m t rest; [done|].
  cbn [deserialize_depth].
  apply (read_items_preserves (λ t, msg t = m ∧ child_msgs_ok t = true)).
  - intros tag self ctx0 self' ctx' HP. by apply do_tag_preserves.
  - done.
Qed.
End deserialize_invariant.

(** ** Every public operation keeps the invariant of the store *)

Section store_calls.
Context {Op Att : Type} `{OpCatalogue Op} `{AttestationCatalogue Att}.
Context `{!OpConcat}.
Import Store.
Implicit Types (h : store Op Att) (o : object Op Att) (r self other : ref).

Lemma sound_deserialize ctx m h :
  store_inv h → sound False h (deserialize ctx m) (λ _ _, True).
Proof.
  intros Hh. unfold deserialize.
  match goal with
  | |- context [match ?d with Ok _ => _ | Raise _ => _ end] =>
      destruct d as [[t ctx']|e] eqn:Hdes; [|by apply sound_raise]
  end.
  apply deserialize_depth_child_msgs_ok in Hdes as [_ Hok].
  eapply sound_bind; [by apply sound_allocate | done |].
  intros r h1 _ Hh1 _ _. by apply sound_ret.
Qed.

Lemma sound_cat_sha256d (left right : arg) h :
  store_inv h → sound False h (cat_sha256d left right) (λ _ _, True).
Proof.
  intros Hh. unfold cat_sha256d, cat_sha256.
  eapply sound_bind; [by apply sound_cat_then_unary_op | done |].
  intros t h1 _ Hh1 _ _. by eapply sound_any, sound_add.
Qed.

Lemma sound_pair_stamps (stamps next_stamps : list arg) prev_stamp h :
  store_inv h →
  sound False h (pair_stamps stamps next_stamps prev_stamp) (λ _ _, True).
Proof.
  revert next_stamps prev_stamp h.
  induction stamps as [|stamp stamps IH]; intros next_stamps prev_stamp h Hh.
  { by apply sound_ret. }
  cbn [pair_stamps]. destruct prev_stamp as [prev|]; [|by apply IH].
  eapply sound_bind; [by apply sound_cat_then_unary_op | done |].
  intros t h1 _ Hh1 _ _. by apply IH.
Qed.

Lemma sound_make_merkle_tree_rounds rounds (stamps : list arg) h :
  store_inv h →
  sound False h (make_merkle_tree_rounds rounds stamps) (λ _ _, True).
Proof.
  revert stamps h. induction rounds as [|rounds IH]; intros stamps h Hh.
  { by apply sound_raise. }
  cbn [make_merkle_tree_rounds].
  destruct stamps as [|prev_stamp stamps]; [by apply sound_raise|].
  eapply sound_bind; [by apply sound_pair_stamps | done |].
  intros [next_stamps prev] h1 _ Hh1 _ _.
  destruct next_stamps; [by apply sound_ret | by apply IH].
Qed.

(** Every call keeps the invariant, whether it returns or raises. *)
Lemma run_store_inv h (c : call) : store_inv h → store_inv (run h c).
Proof.
  intros Hh. destruct c; simpl.
  - by apply (sound_new True).
  - by apply sound_attestations_add.
  - by apply sound_add.
  - by apply sound_merge.
  - by apply sound_deserialize.
  - by apply sound_cat_then_unary_op.
  - by apply sound_cat_then_unary_op.
  - by apply sound_cat_sha256d.
  - by apply sound_make_merkle_tree_rounds.
Qed.

Lemma run_all_store_inv (cs : list call) : store_inv (run_all cs).
Proof.
  unfold run_all.
  assert (store_inv (Op := Op) (Att := Att) []) as Hnil by constructor.
  revert Hnil. generalize (@nil (object Op Att)).
  induction cs as [|c cs IH]; intros h Hh; [done|].
  simpl. by apply IH, run_store_inv.
Qed.
End store_calls.

Section merge_absorbs.
Context {Op Att : Type} `{OpCatalogue Op} `{AttestationCatalogue Att}.
Implicit Types (t self other : Timestamp Op Att).
Implicit Types (o d items : list (Op * Timestamp Op Att)).

(** Merging [B] into [A] and then the result into [B] leaves both with
    equal trees: the second merge adds nothing that the first has not
    put in [A]. *)
Lemma merge_timestamp_absorbs B :
  well_formed B = true →
  ∀ A, well_formed A = true → msg A = msg B →
  equals (merge_timestamp A B).1
         (merge_timestamp B (merge_timestamp A B).1).1 = true
  ∧ equals (merge_timestamp B (merge_timestamp A B).1).1
           (merge_timestamp A B).1 = true.
Proof.
  induction B as [m b o IH] using Timestamp_children_ind.
  intros HwfB A HwfA Hm. cbn [msg] in Hm.
  set (B := mkTimestamp m b o) in *.
  destruct (merge_timestamp_spec B HwfB A HwfA)
    as (_ & HmAB & HwfAB & HaAB & HgAB); [done|].
  set (A' := (merge_timestamp A B).1) in *.
  destruct (merge_timestamp_spec A' HwfAB B HwfB)
    as (_ & HmBA & HwfBA & HaBA & HgBA).
  { change (msg B) with m. congruence. }
  pose proof (well_formed_containers _ HwfAB) as [? ?].
  pose proof (well_formed_containers _ HwfBA) as [? ?].
  assert (∀ op,
    match dict_get op (ops A'),
          dict_get op (ops (merge_timestamp B A').1) with
    | Some c1, Some c2 => equals c1 c2 = true ∧ equals c2 c1 = true
    | None, None => True
    | _, _ => False
    end) as Hchildren.
  { intros op. rewrite HgBA, HgAB. unfold merged_child.
    change (ops B) with o. change (msg B) with m.
    destruct (dict_get op o) as [cb|] eqn:Hcb.
    - destruct (well_formed_child _ _ _ HwfB Hcb) as [Hcbm Hcbwf].
      change (msg B) with m in Hcbm.
      apply dict_get_Some in Hcb. rewrite Forall_forall in IH.
      cbn [default].
      apply (IH _ Hcb); [done| |].
      + destruct (dict_get op (ops A)) as [ca|] eqn:Hca; cbn [default].
        * by destruct (well_formed_child _ _ _ HwfA Hca).
        * apply well_formed_new.
      + cbn [snd]. destruct (dict_get op (ops A)) as [ca|] eqn:Hca;
          cbn [default].
        * destruct (well_formed_child _ _ _ HwfA Hca). unfold id. congruence.
        * cbn [new msg]. congruence.
    - destruct (dict_get op (ops A)) as [ca|] eqn:Hca; [|done].
      cbn [default].
      destruct (well_formed_child _ _ _ HwfA Hca) as [Hcam Hcawf].
      rewrite <-Hm, <-Hcam.
      destruct (merge_new_equals ca Hcawf). done. }
  split.
  - apply equals_intro; [done..| | |].
    + rewrite HmAB, HmBA. done.
    + intros x. rewrite HaBA, HaAB. tauto.
    + intros op. specialize (Hchildren op).
      destruct (dict_get op _), (dict_get op _); tauto.
  - apply equals_intro; [done..| | |].
    + rewrite HmAB, HmBA. done.
    + intros x. rewrite HaBA, HaAB. tauto.
    + intros op. specialize (Hchildren op).
      destruct (dict_get op _), (dict_get op _); tauto.
Qed.
End merge_absorbs.

(** ** Merge in place rejects before it changes anything *)

Section store_merge_errors.
Context {Op Att : Type} `{OpCatalogue Op} `{AttestationCatalogue Att}.
Import Store.
Implicit Types (h : store Op Att) (o : object Op Att) (r self other : ref).

(** [merge] with an argument that is not a timestamp raises [TypeError]
    and leaves every object as it was. *)
Lemma store_merge_not_timestamp depth self b h :
  merge depth self (ABytes b) h = (h, Raise TypeError).
Proof. done. Qed.

(** [merge] with a timestamp for another message raises [ValueError] and
    leaves every object as it was. *)
Lemma store_merge_other_message depth self other h s o :
  h !! self = Some s → h !! other = Some o → obj_msg s ≠ obj_msg o →
  merge (S depth) self (ATimestamp other) h = (h, Raise ValueError).
Proof.
  intros Hself Hother Hne. cbn [merge merge_timestamp].
  rewrite !state_bind_unfold. unfold get. rewrite Hself.
  rewrite !state_bind_unfold. rewrite Hother.
  by rewrite decide_True.
Qed.

Lemma never_bind {A B} e (c : state Op Att A) (k : A → state Op Att B) h :
  never e c h →
  (∀ a h1, c h = (h1, Ok a) → never e (k a) h1) →
  never e (c ≫= k) h.
Proof.
  unfold never. intros Hc Hk. rewrite state_bind_unfold.
  destruct (c h) as [h1 [a|e']] eqn:Hch; [by apply Hk|].
  simpl in *. congruence.
Qed.

Lemma never_get e r h : e ≠ ReferenceError → never e (get r) h.
Proof.
  unfold never, get. intros He. destruct (h !! r); simpl; congruence.
Qed.

Lemma get_Ok r h h1 o : get r h = (h1, Ok o) → h1 = h ∧ h !! r = Some o.
Proof. unfold get. destruct (h !! r); naive_solver. Qed.

Lemma never_add e self key h :
  e ≠ ReferenceError → store_inv h → never e (add self key) h.
Proof.
  intros He Hh. destruct (h !! self) as [s|] eqn:Hself.
  - destruct (sound_add h self key Hh) as (_ & _ & _ & Hret).
    destruct Hret as [a Ha]; [by eexists|]. unfold never. by rewrite Ha.
  - unfold never, add. rewrite state_bind_unfold. unfold get.
    rewrite Hself. simpl. congruence.
Qed.

Lemma never_merge_items merge self other size todo :
  (∀ ours theirs h, store_inv h →
     sound False h (merge ours theirs) (λ _ _, True)) →
  (∀ ours theirs h, store_inv h → msg_of h ours = msg_of h theirs →
     is_Some (h !! ours) → is_Some (h !! theirs) →
     never ValueError (merge ours theirs) h) →
  ∀ h, store_inv h → msg_of h self = msg_of h other →
  is_Some (h !! self) →
  never ValueError (merge_items merge self other size todo) h.
Proof.
  intros Hsound Hmerge.
  induction todo as [|todo IH]; intros h Hh Hmsg [s Hself].
  - cbn [merge_items]. apply never_bind; [by apply never_get|].
    intros o h1 [-> Hother]%get_Ok. by case_decide.
  - cbn [merge_items]. apply never_bind; [by apply never_get|].
    intros o h1 [-> Hother]%get_Ok. case_decide; [done|].
    destruct (obj_ops o !! _) as [[other_op other_op_stamp]|] eqn:Hitem;
      [|done].
    apply never_bind; [by apply never_add|].
    intros ours h2 Hadd.
    destruct (sound_add h self other_op Hh) as (Hh2 & Hext2 & Hpost & _).
    rewrite Hadd in Hh2, Hext2, Hpost. cbn [fst snd] in Hh2, Hext2, Hpost.
    destruct (Hpost _ eq_refl) as (s' & child & Hs' & Hours & Hmc & _ & _).
    assert (s' = s) as -> by congruence.
    pose proof (store_inv_lookup _ _ _ Hh Hother) as Hentries.
    unfold entries_ok in Hentries. rewrite Forall_forall in Hentries.
    destruct (Hentries _ (list_elem_of_lookup_2 _ _ _ Hitem))
      as (theirs & Htheirs & Hmt).
    cbn [fst snd] in Htheirs, Hmt.
    destruct (Hext2 _ _ Htheirs) as (theirs2 & Htheirs2 & Hmt2).
    destruct (Hext2 _ _ Hself) as (s2 & Hself2 & Hms2).
    destruct (Hext2 _ _ Hother) as (o2 & Hother2 & Hmo2).
    rewrite (msg_of_lookup _ _ _ Hself), (msg_of_lookup _ _ _ Hother) in Hmsg.
    apply never_bind.
    { apply Hmerge; [done| |by eexists..].
      rewrite (msg_of_lookup _ _ _ Hours), (msg_of_lookup _ _ _ Htheirs2).
      congruence. }
    intros [] h3 Hm.
    destruct (Hsound ours other_op_stamp h2 Hh2) as (Hh3 & Hext3 & _).
    rewrite Hm in Hh3, Hext3. cbn [fst snd] in Hh3, Hext3.
    destruct (Hext3 _ _ Hself2) as (s3 & Hself3 & Hms3).
    destruct (Hext3 _ _ Hother2) as (o3 & Hother3 & Hmo3).
    apply IH; [done | | by eexists].
    rewrite (msg_of_lookup _ _ _ Hself3), (msg_of_lookup _ _ _ Hother3).
    congruence.
Qed.

(** Once the messages of the two timestamps match, no merge of their
    descendants raises [ValueError], however the objects are shared. *)
Lemma never_merge_timestamp depth self other h :
  store_inv h → msg_of h self = msg_of h other →
  is_Some (h !! self) → is_Some (h !! other) →
  never ValueError (merge_timestamp depth self other) h.
Proof.
  revert self other h.
  induction depth as [|depth IH]; intros self other h Hh Hmsg [s Hs] [o Ho].
  { done. }
  cbn [merge_timestamp].
  apply never_bind; [by apply never_get|].
  intros s' h1 [-> Hs']%get_Ok. assert (s' = s) as -> by congruence.
  apply never_bind; [by apply never_get|].
  intros o' h1 [-> Ho']%get_Ok. assert (o' = o) as -> by congruence.
  rewrite (msg_of_lookup _ _ _ Hs), (msg_of_lookup _ _ _ Ho) in Hmsg.
  rewrite decide_False by (by intros ?).
  set (s1 := mkObject _ _ _).
  assert (store_inv (<[self := s1]> h) ∧ extends h (<[self := s1]> h))
    as [Hh1 Hext1].
  { destruct (sound_put True h self s s1) as (? & ? & _); [done..| |done].
    eapply (entries_ok_msg _ s); [done..|]. by eapply store_inv_lookup. }
  apply never_bind; [done|].
  intros [] h1 [= <-].
  destruct (Hext1 _ _ Hs) as (s2 & Hs2 & Hms2).
  destruct (Hext1 _ _ Ho) as (o2 & Ho2 & Hmo2).
  apply never_bind; [by apply never_get|].
  intros o2' h2 [-> Ho2']%get_Ok.
  apply never_merge_items; [| |done| |by eexists].
  - intros. by apply sound_merge_timestamp.
  - intros. by apply IH.
  - rewrite (msg_of_lookup _ _ _ Hs2), (msg_of_lookup _ _ _ Ho2). congruence.
Qed.
End store_merge_errors.

(** ** Canonical bytes *)

Section canonical.
Context {Op Att : Type} `{OpCatalogue Op} `{AttestationCatalogue Att}.
Context `{!StrictTotal (op_lt (Op := Op))} `{!StrictTotal (att_lt (Att := Att))}.
Implicit Types (t : Timestamp Op Att) (o : list (Op * Timestamp Op Att)).

Lemma set_eq_Permutation {A} `{EqDecision A} (s1 s2 : list A) :
  NoDup s1 → NoDup s2 → set_eq s1 s2 = true → s1 ≡ₚ s2.
Proof.
  intros Hnd1 Hnd2 Heq. apply NoDup_Permutation; [done..|].
  by apply set_eq_true.
Qed.

(** Equal timestamps are written as the same bytes, in whatever order
    their sets and dicts hold their elements. *)
Lemma serialize_equals t1 :
  containers_ok t1 = true →
  ∀ t2, containers_ok t2 = true → equals t1 t2 = true →
  serialize t1 = serialize t2.
Proof.
  induction t1 as [m1 a1 o1 IH] using Timestamp_children_ind.
  intros Hc1 [m2 a2 o2] Hc2 Heq.
  apply containers_ok_unfold in Hc1 as (Ha1 & Ho1 & Hcs1).
  apply containers_ok_unfold in Hc2 as (Ha2 & Ho2 & Hcs2).
  apply equals_unfold in Heq as (_ & Ha & Hlen & Hchildren).
  cbn [msg attestations ops] in *.
  apply set_eq_Permutation in Ha; [|done..].
  set (g := λ item : Op * Timestamp Op Att, (item.1, serialize item.2)).
  assert (sorted id att_lt a1 = sorted id att_lt a2) as Hsa.
  { apply sorted_unique; [done | by rewrite list_fmap_id | done]. }
  assert (sorted fst op_lt (g <$> o1) = sorted fst op_lt (g <$> o2)) as Hso.
  { apply sorted_unique; [done | by rewrite <-list_fmap_compose |].
    apply submseteq_length_Permutation; [|by rewrite !length_fmap, Hlen].
    apply NoDup_submseteq.
    - apply (NoDup_fmap_1 fst). by rewrite <-list_fmap_compose.
    - intros x [[op c1] [-> Hin]]%list_elem_of_fmap.
      rewrite Forall_forall in IH, Hchildren, Hcs1, Hcs2.
      destruct (Hchildren _ Hin) as (c2 & Hget & Hc). simpl in Hget, Hc.
      apply dict_get_Some in Hget.
      apply list_elem_of_fmap. exists (op, c2). split; [|done].
      unfold g. simpl. f_equal.
      apply (IH _ Hin); [by apply (Hcs1 _ Hin) | by apply (Hcs2 _ Hget) | done]. }
  cbn [serialize]. fold g.
  by rewrite Hsa, Hso, (Permutation_length Ha), Hlen.
Qed.
End canonical.

(** * The claims

    The claims on [merge], C7 and C10, are stated on the store of objects;
    they come last, after the lemmas on trees of objects that they rest
    on. *)

Section claims_codec.
Context {Op Att : Type} `{OpCatalogue Op} `{AttestationCatalogue Att}.
Implicit Types (t self other : Timestamp Op Att).

(** C3.  [serialize] writes the canonical encoding of the node.  It raises
    at a node with no attestation and no operation, before any byte is
    written; at any other node it writes [n'] attestations as
    [ff 00 payload] ([n' = n] if [m > 0], else [n - 1]), [m - 1]
    operations as [ff op child], and the terminal item, and it returns
    whenever the writers of the children return. *)
Theorem serialize_canonical_encoding t :
  serialize t = canonical_encoding t
  ∧ (attestations t = [] ∧ ops t = [] →
     serialize t = ([], Raise ValueError))
  ∧ (¬ (attestations t = [] ∧ ops t = []) →
     (∀ item, item ∈ ops t → (serialize item.2).2 = Ok ()) →
     (serialize t).2 = Ok ()).
Proof.
  split_and!.
  - apply serialize_canonical.
  - destruct t as [m a o]. simpl. by intros [-> ->].
  - apply serialize_node_returns.
Qed.

(** C2.  Round trip: the bytes of a timestamp of the data model in which
    every node has an attestation or an operation decode, from the message
    of the timestamp, to a timestamp that is equal to it: same message,
    same attestation set, same op map, at every level. *)
Theorem deserialize_serialize `{!OpCodec} `{!AttCodec} t :
  well_formed t = true → nonempty_ok t = true →
  ∃ b t', serialize t = (b, Ok ())
          ∧ deserialize b (msg t) = Ok (t', [])
          ∧ equals t' t = true.
Proof.
  intros [Hc Hm]%andb_true_iff Hn.
  exists (serialize t).1, (normalize t). split_and!.
  - apply writer_eta. by apply serialize_returns.
  - unfold deserialize.
    rewrite <-(app_nil_r (serialize t).1) at 2.
    apply deserialize_serialize_depth; [done..|]. lia.
  - by apply equals_normalize.
Qed.

End claims_codec.

Section claims_store.
Context {Op Att : Type} `{OpCatalogue Op} `{AttestationCatalogue Att}.
Import Store.
Implicit Types (h : store Op Att) (o : object Op Att).

(** C6, as the code has it.  [P.ops[op] = C] raises and leaves the store
    unchanged exactly when [op] has an entry whose message differs from
    that of [C]; with no entry for [op] the child is inserted whatever its
    message, and over an entry of equal message it is replaced. *)
Theorem setitem_checks_existing h (P C : ref) (op : Op) o :
  h !! P = Some o →
  setitem P op C h
  = match dict_get op (obj_ops o) with
    | Some E =>
        if decide (msg_of h E ≠ msg_of h C) then (h, Raise ValueError)
        else (<[P := mkObject (obj_msg o) (obj_attestations o)
                        (dict_set op C (obj_ops o))]> h, Ok ())
    | None =>
        (<[P := mkObject (obj_msg o) (obj_attestations o)
                  (dict_set op C (obj_ops o))]> h, Ok ())
    end.
Proof.
  intros HP. unfold setitem, OpSet_setitem. rewrite HP.
  destruct (dict_get op (obj_ops o)) as [E|]; [|done].
  by case_decide.
Qed.

Context `{!OpConcat}.

(** C5.  The child-message invariant: in the store that any program of
    public calls builds, every entry [(op, child)] of the op set of every
    timestamp reached from any timestamp, at any depth, has
    [child.msg = op(msg)]. *)
Theorem child_message_invariant (cs : list call) (root r : ref)
    (path : list Op) o (op : Op) (child : ref) :
  descend (run_all cs) root path = Some r →
  run_all (Att := Att) cs !! r = Some o →
  dict_get op (obj_ops o) = Some child →
  ∃ oc, run_all cs !! child = Some oc
        ∧ obj_msg oc = op_call op (obj_msg o).
Proof.
  intros _ Hr Hchild.
  pose proof (store_inv_lookup _ _ _ (run_all_store_inv cs) Hr) as Ho.
  unfold entries_ok in Ho. rewrite Forall_forall in Ho.
  apply (Ho (op, child)). by apply dict_get_Some.
Qed.

(** C8.  Sharing after cat: after [cat_sha256(L, R)], [L.ops[Append(R.msg)]]
    and [R.ops[Prepend(L.msg)]] are the same timestamp, its message is
    [L.msg ‖ R.msg], and the result is its child under SHA-256, with
    message [SHA256(L.msg ‖ R.msg)]. *)
Theorem cat_sha256_shares h (L R : ref) lo ro :
  store_ok h = true → h !! L = Some lo → h !! R = Some ro →
  ∃ h' t x ox ot,
    cat_sha256 (ATimestamp L) (ATimestamp R) h = (h', Ok t)
    ∧ child_of h' L (OpAppend (obj_msg ro)) = Some x
    ∧ child_of h' R (OpPrepend (obj_msg lo)) = Some x
    ∧ h' !! x = Some ox ∧ obj_msg ox = obj_msg lo ++ obj_msg ro
    ∧ child_of h' x OpSHA256 = Some t
    ∧ h' !! t = Some ot
    ∧ obj_msg ot = op_call OpSHA256 (obj_msg lo ++ obj_msg ro).
Proof.
  intros Hh%store_ok_inv HL HR.
  destruct (sound_cat_timestamps OpSHA256 L R h Hh) as (_ & _ & HQ & Hret).
  destruct Hret as [t Ht]; [by split; eexists|].
  destruct (HQ t Ht) as (lo' & ro' & x & ox & ot & ? & ? & ?).
  assert (lo' = lo) as -> by congruence.
  assert (ro' = ro) as -> by congruence.
  exists (cat_timestamps OpSHA256 L R h).1, t, x, ox, ot.
  split; [|done].
  change (cat_sha256 (ATimestamp L) (ATimestamp R) h)
    with (cat_timestamps OpSHA256 L R h).
  destruct (cat_timestamps OpSHA256 L R h). simpl in *. by subst.
Qed.
End claims_store.

Section claims_merkle.
Context {Op Att : Type} `{OpCatalogue Op} `{AttestationCatalogue Att}.
Context `{!OpConcat}.
Import Store.
Implicit Types (h : store Op Att) (o : object Op Att).

Lemma arg_msg_extends h h' (x : arg) m :
  extends h h' → arg_msg h x = Some m → arg_msg h' x = Some m.
Proof.
  intros Hext. destruct x as [r|b]; simpl; [|done].
  destruct (h !! r) as [o|] eqn:Hr; [|done]. intros [= <-].
  destruct (Hext _ _ Hr) as (o' & -> & Hm). simpl. by rewrite Hm.
Qed.

(** [cat_sha256] of two arguments with messages returns a timestamp for
    the digest of the concatenation. *)
Lemma cat_sha256_returns h (left right : arg) lm rm :
  store_inv h → arg_msg h left = Some lm → arg_msg h right = Some rm →
  ∃ h' t ot,
    cat_sha256 left right h = (h', Ok t)
    ∧ store_inv h' ∧ extends h h'
    ∧ h' !! t = Some ot ∧ obj_msg ot = op_call OpSHA256 (lm ++ rm).
Proof.
  intros Hh Hl Hr. unfold cat_sha256.
  destruct (sound_cat_then_unary_op OpSHA256 left right h Hh)
    as (Hinv & Hext & HQ & Hret).
  destruct Hret as [t Ht]; [by split; eexists|].
  destruct (HQ t Ht) as (ot & Hot & Hm).
  exists (cat_then_unary_op OpSHA256 left right h).1, t, ot.
  split_and!; [|done..|by apply Hm].
  destruct (cat_then_unary_op OpSHA256 left right h). simpl in *. by subst.
Qed.

(** C9.  The Merkle mountain range of three: [make_merkle_tree] of
    [[L1, L2, L3]] pairs [L1] with [L2] by [cat_sha256], carries [L3] to
    the next round as it is, and pairs the result with [L3], so the tip
    has the message [SHA256(SHA256(L1.msg ‖ L2.msg) ‖ L3.msg)]. *)
Theorem make_merkle_tree_three h (L1 L2 L3 : arg) l1 l2 l3 :
  store_ok h = true →
  arg_msg h L1 = Some l1 → arg_msg h L2 = Some l2 →
  arg_msg h L3 = Some l3 →
  ∃ h1 p12 h2 tip otip,
    cat_sha256 L1 L2 h = (h1, Ok p12)
    ∧ cat_sha256 (ATimestamp p12) L3 h1 = (h2, Ok tip)
    ∧ make_merkle_tree [L1; L2; L3] h = (h2, Ok (Some (ATimestamp tip)))
    ∧ h2 !! tip = Some otip
    ∧ obj_msg otip
      = op_call OpSHA256 (op_call OpSHA256 (l1 ++ l2) ++ l3).
Proof.
  intros Hh%store_ok_inv HL1 HL2 HL3.
  destruct (cat_sha256_returns h L1 L2 l1 l2)
    as (h1 & p12 & o12 & Hcat1 & Hh1 & Hext1 & Hp12 & Hm12); [done..|].
  destruct (cat_sha256_returns h1 (ATimestamp p12) L3
              (op_call OpSHA256 (l1 ++ l2)) l3)
    as (h2 & tip & otip & Hcat2 & Hh2 & Hext2 & Htip & Hmtip); [done| | |].
  { cbn [arg_msg]. rewrite Hp12. cbn. by rewrite Hm12. }
  { by eapply arg_msg_extends. }
  exists h1, p12, h2, tip, otip. split_and!; [done..| |done|done].
  unfold make_merkle_tree. cbn [length make_merkle_tree_rounds pair_stamps].
  unfold mbind, state_bind. rewrite Hcat1.
  cbn [pair_stamps app mret state_ret].
  unfold mbind, state_bind. by rewrite Hcat2.
Qed.
End claims_merkle.

(** * Further properties *)

(** ** The outcome of serialization *)

Section serialize_result.
Context {Op Att : Type} `{OpCatalogue Op} `{AttestationCatalogue Att}.
Implicit Types (t : Timestamp Op Att) (o : list (Op * Timestamp Op Att)).

Lemma writer_seq_result (w1 w2 : writer) :
  (writer_seq w1 w2).2
  = match w1.2 with Ok _ => w2.2 | Raise e => Raise e end.
Proof. by destruct w1 as [b1 [[]|e1]]. Qed.

(** A loop whose bodies return or raise [e] returns when all of them do,
    and raises [e] otherwise. *)
Lemma writer_for_result {A} (l : list A) (body : A → writer) e :
  (∀ x, x ∈ l → (body x).2 = Ok () ∨ (body x).2 = Raise e) →
  ((writer_for l body).2 = Ok () ∧ ∀ x, x ∈ l → (body x).2 = Ok ())
  ∨ (writer_for l body).2 = Raise e.
Proof.
  induction l as [|x l IH]; intros Hbody.
  { left. split; [done|]. by intros x ?%elem_of_nil. }
  rewrite writer_for_cons, writer_seq_result.
  destruct (Hbody x) as [Hx|Hx]; [by left | |]; rewrite Hx; [|by right].
  destruct IH as [[Hl Hall]|Hl].
  - intros y Hy. apply Hbody. by right.
  - left. split; [done|]. intros y [->|Hy]%elem_of_cons; [done|by apply Hall].
  - by right.
Qed.

Lemma elem_of_removelast_or_last {A} (l : list A) x :
  x ∈ l → x ∈ removelast l ∨ last l = Some x.
Proof.
  destruct l as [|y l' _] using rev_ind; [by intros ?%elem_of_nil|].
  rewrite removelast_last, last_snoc.
  intros [?| ->%list_elem_of_singleton]%elem_of_app; [by left | by right].
Qed.

Lemma elem_of_removelast {A} (l : list A) x : x ∈ removelast l → x ∈ l.
Proof.
  destruct l as [|y l' _] using rev_ind; [done|].
  rewrite removelast_last. intros ?. apply elem_of_app. by left.
Qed.

(** The writer of a node, given what the writers of its children do. *)
Lemma serialize_node_result m a o :
  Forall (λ item, (serialize item.2).2 = Ok ()
                  ∨ (serialize item.2).2 = Raise ValueError) o →
  ((serialize (mkTimestamp m a o)).2 = Ok ()
   ∧ ¬ (a = [] ∧ o = [])
   ∧ Forall (λ item, (serialize item.2).2 = Ok ()) o)
  ∨ (serialize (mkTimestamp m a o)).2 = Raise ValueError.
Proof.
  intros Hchildren. rewrite Forall_forall in Hchildren.
  destruct (decide (a = [] ∧ o = [])) as [[-> ->]|Hne]; [by right|].
  rewrite serialize_canonical. unfold canonical_encoding.
  cbn [attestations ops]. rewrite !length_sorted.
  rewrite bool_decide_eq_false_2.
  2:{ destruct a, o; simpl; try lia. by destruct Hne. }
  set (O := sorted fst op_lt o).
  rewrite writer_seq_result.
  rewrite (writer_for_returns (take _ _)) by done.
  rewrite writer_seq_result.
  destruct (writer_for_result (take (length o - 1) O)
              (λ item, writer_seq (write_bytes ([xff] ++ op_serialize item.1))
                         (serialize item.2)) ValueError) as [[Hfor Hall]|Hfor].
  { intros item Hitem%elem_of_take_sorted. rewrite writer_seq_result.
    by apply Hchildren. }
  2:{ right. by rewrite Hfor. }
  rewrite Hfor.
  assert (length O = length o) as HO by apply length_sorted.
  rewrite <-HO, <-removelast_take in Hall.
  case_bool_decide as Hm.
  - destruct (last_Some_nonempty O) as [[op child] Hlast].
    { intros HO'. rewrite HO' in HO. simpl in HO. lia. }
    rewrite Hlast, writer_seq_result. cbn [write_bytes snd].
    assert ((op, child) ∈ o) as Hin.
    { by eapply (elem_of_sorted fst op_lt), last_elem_of. }
    destruct (Hchildren _ Hin) as [Hc|Hc]; [|by right].
    left. split_and!; [done..|].
    apply Forall_forall. intros item Hitem.
    apply (elem_of_sorted fst op_lt) in Hitem. fold O in Hitem.
    apply elem_of_removelast_or_last in Hitem as [Hitem|Hitem].
    + specialize (Hall _ Hitem). rewrite writer_seq_result in Hall. done.
    + rewrite Hlast in Hitem. by simplify_eq.
  - assert (o = []) as -> by (destruct o; [done | simpl in Hm; lia]).
    destruct (last_Some_nonempty (sorted id att_lt a)) as [x Hlast].
    { intros Hs%sorted_nil_inv. by apply Hne. }
    rewrite Hlast. left. by split_and!.
Qed.

(** [serialize] returns or raises [ValueError], and it returns only when
    every node has an attestation or an operation. *)
Lemma serialize_result_cases t :
  ((serialize t).2 = Ok () ∧ nonempty_ok t = true)
  ∨ ((serialize t).2 = Raise ValueError ∧ nonempty_ok t = false).
Proof.
  induction t as [m a o IH] using Timestamp_children_ind.
  destruct (nonempty_ok (mkTimestamp m a o)) eqn:Hn.
  { left. split; [by apply serialize_returns | done]. }
  right. split; [|done].
  destruct (serialize_node_result m a o) as [(Hok & Hne & Hall)|Hraise];
    [| |done].
  - eapply Forall_impl; [exact IH|]. intros item. simpl. tauto.
  - assert (nonempty_ok (mkTimestamp m a o) = true); [|congruence].
    apply nonempty_ok_unfold. split; [done|].
    rewrite Forall_forall in IH, Hall. apply Forall_forall.
    intros item Hitem.
    destruct (IH _ Hitem) as [[_ ?]|[Hr _]]; [done|].
    rewrite (Hall _ Hitem) in Hr. done.
Qed.
End serialize_result.

(** ** Equality is an equivalence *)

Section equality_laws.
Context {Op Att : Type} `{OpCatalogue Op} `{AttestationCatalogue Att}.
Implicit Types (t self other : Timestamp Op Att).
Implicit Types (o : list (Op * Timestamp Op Att)).

Lemma dict_keys_Permutation {K V} `{EqDecision K} (d1 d2 : list (K * V)) :
  NoDup d1.*1 → length d1 = length d2 →
  (∀ k, k ∈ d1.*1 → k ∈ d2.*1) → d1.*1 ≡ₚ d2.*1.
Proof.
  intros Hnd Hlen Hsub.
  apply submseteq_length_Permutation; [|by rewrite !length_fmap, Hlen].
  by apply NoDup_submseteq.
Qed.

(** Equal trees, key by key. *)
Lemma equals_elim t1 t2 :
  NoDup (ops t1).*1 → NoDup (attestations t1) → NoDup (attestations t2) →
  equals t1 t2 = true →
  msg t1 = msg t2
  ∧ (∀ x, x ∈ attestations t1 ↔ x ∈ attestations t2)
  ∧ (∀ op, match dict_get op (ops t1), dict_get op (ops t2) with
           | Some c1, Some c2 => equals c1 c2 = true
           | None, None => True
           | _, _ => False
           end).
Proof.
  destruct t1 as [m1 a1 o1]. cbn [msg attestations ops].
  intros Ho1 Ha1 Ha2 (Hm & Ha & Hlen & Hchildren)%equals_unfold.
  rewrite Forall_forall in Hchildren.
  split_and!; [done | by apply set_eq_true |].
  intros op. destruct (dict_get op o1) as [c1|] eqn:Hc1.
  - apply dict_get_Some in Hc1.
    destruct (Hchildren _ Hc1) as (c2 & Hget & ?). cbn [fst] in Hget.
    by rewrite Hget.
  - destruct (dict_get op (ops t2)) as [c2|] eqn:Hc2; [|done].
    apply dict_get_None in Hc1. apply Hc1.
    assert (o1.*1 ≡ₚ (ops t2).*1) as Hperm.
    { apply dict_keys_Permutation; [done..|].
      intros k [[k' c] [-> Hin]]%list_elem_of_fmap.
      destruct (Hchildren _ Hin) as (c' & Hget & _).
      apply dict_get_is_Some. by eexists. }
    rewrite Hperm. apply dict_get_is_Some. by eexists.
Qed.

Lemma containers_ok_child t op child :
  containers_ok t = true → dict_get op (ops t) = Some child →
  containers_ok child = true.
Proof.
  destruct t as [m a o]. intros (_ & _ & Hcs)%containers_ok_unfold Hget.
  apply dict_get_Some in Hget. rewrite Forall_forall in Hcs.
  by apply (Hcs _ Hget).
Qed.

Lemma containers_ok_NoDup t :
  containers_ok t = true → NoDup (attestations t) ∧ NoDup (ops t).*1.
Proof. destruct t. rewrite containers_ok_unfold. tauto. Qed.

Lemma equals_refl t : containers_ok t = true → equals t t = true.
Proof.
  induction t as [m a o IH] using Timestamp_children_ind. intros Hc.
  destruct (containers_ok_NoDup _ Hc) as [Ha Ho].
  apply equals_intro; [done..|].
  intros op. destruct (dict_get op _) as [c|] eqn:Hget; [|done].
  pose proof (containers_ok_child _ _ _ Hc Hget).
  apply dict_get_Some in Hget. rewrite Forall_forall in IH.
  by apply (IH _ Hget).
Qed.

Lemma equals_sym t1 :
  containers_ok t1 = true →
  ∀ t2, containers_ok t2 = true → equals t1 t2 = true → equals t2 t1 = true.
Proof.
  induction t1 as [m1 a1 o1 IH] using Timestamp_children_ind.
  intros Hc1 t2 Hc2 Heq.
  destruct (containers_ok_NoDup _ Hc1) as [Ha1 Ho1].
  destruct (containers_ok_NoDup _ Hc2) as [Ha2 Ho2].
  apply equals_elim in Heq as (Hm & Ha & Hops); [|done..].
  apply equals_intro; [done.. | | ].
  - intros x. by rewrite Ha.
  - intros op. specialize (Hops op). cbn [ops] in Hops |- *.
    destruct (dict_get op o1) as [c1|] eqn:Hget1,
             (dict_get op (ops t2)) as [c2|] eqn:Hget2; try done.
    pose proof (containers_ok_child _ _ _ Hc1 Hget1).
    pose proof (containers_ok_child _ _ _ Hc2 Hget2).
    apply dict_get_Some in Hget1. rewrite Forall_forall in IH.
    by apply (IH _ Hget1).
Qed.

Lemma equals_trans t1 :
  containers_ok t1 = true →
  ∀ t2 t3, containers_ok t2 = true → containers_ok t3 = true →
  equals t1 t2 = true → equals t2 t3 = true → equals t1 t3 = true.
Proof.
  induction t1 as [m1 a1 o1 IH] using Timestamp_children_ind.
  intros Hc1 t2 t3 Hc2 Hc3 H12 H23.
  destruct (containers_ok_NoDup _ Hc1) as [Ha1 Ho1].
  destruct (containers_ok_NoDup _ Hc2) as [Ha2 Ho2].
  destruct (containers_ok_NoDup _ Hc3) as [Ha3 Ho3].
  apply equals_elim in H12 as (Hm12 & Ha12 & Hops12); [|done..].
  apply equals_elim in H23 as (Hm23 & Ha23 & Hops23); [|done..].
  apply equals_intro; [done.. | congruence | |].
  - intros x. by rewrite Ha12.
  - intros op. specialize (Hops12 op). specialize (Hops23 op).
    cbn [ops] in Hops12 |- *.
    destruct (dict_get op o1) as [c1|] eqn:Hget1,
             (dict_get op (ops t2)) as [c2|] eqn:Hget2,
             (dict_get op (ops t3)) as [c3|] eqn:Hget3; try done.
    pose proof (containers_ok_child _ _ _ Hc1 Hget1).
    pose proof (containers_ok_child _ _ _ Hc2 Hget2).
    pose proof (containers_ok_child _ _ _ Hc3 Hget3).
    apply dict_get_Some in Hget1. rewrite Forall_forall in IH.
    by apply (IH _ Hget1 ltac:(done) c2 c3).
Qed.

Lemma containers_ok_normalize t :
  containers_ok t = true → containers_ok (normalize t) = true.
Proof.
  induction t as [m a o IH] using Timestamp_children_ind.
  rewrite containers_ok_unfold. intros (Ha & Ho & Hcs).
  cbn [normalize]. apply containers_ok_unfold. split_and!.
  - by rewrite sorted_Permutation.
  - by rewrite sorted_Permutation, <-list_fmap_compose.
  - rewrite Forall_forall in IH, Hcs. apply Forall_forall.
    intros item [[op c] [-> Hin]]%elem_of_sorted%list_elem_of_fmap.
    by apply (IH _ Hin), (Hcs _ Hin).
Qed.

Lemma dict_get_fmap {K V W} `{EqDecision K} (g : V → W) (d : list (K * V)) k :
  dict_get k ((λ kv, (kv.1, g kv.2)) <$> d) = g <$> dict_get k d.
Proof.
  induction d as [|[k' v] d IH]; [done|].
  rewrite fmap_cons. cbn [dict_get fst snd]. by case_decide.
Qed.

Lemma timestamp_eq_without_attestations t1 :
  ∀ t2, timestamp_eq t1 t2
        = equals (without_attestations t1) (without_attestations t2).
Proof.
  induction t1 as [m1 a1 o1 IH] using Timestamp_children_ind.
  intros [m2 a2 o2]. apply eq_true_iff_eq.
  cbn [without_attestations].
  rewrite timestamp_eq_unfold, equals_unfold. cbn [msg attestations ops].
  rewrite !length_fmap, Forall_fmap.
  split.
  - intros (Hm & Hlen & Hchildren). split_and!; [done..|].
    rewrite Forall_forall in IH, Hchildren. apply Forall_forall.
    intros item Hitem. destruct (Hchildren _ Hitem) as (c & Hget & Heq).
    cbn. exists (without_attestations c). rewrite dict_get_fmap, Hget.
    split; [done|]. by rewrite <-(IH _ Hitem).
  - intros (Hm & _ & Hlen & Hchildren). split_and!; [done..|].
    rewrite Forall_forall in IH, Hchildren. apply Forall_forall.
    intros item Hitem. destruct (Hchildren _ Hitem) as (c & Hget & Heq).
    cbn in Hget, Heq. rewrite dict_get_fmap in Hget.
    destruct (dict_get item.1 o2) as [c2|]; [|done].
    injection Hget as <-. exists c2. split; [done|].
    by rewrite (IH _ Hitem).
Qed.
End equality_laws.

Section serialize_outcome.
Context {Op Att : Type} `{OpCatalogue Op} `{AttestationCatalogue Att}.
Implicit Types (t : Timestamp Op Att).

(** X1.  The outcome of [serialize]: it returns when every node of the tree
    has an attestation or an operation, and raises [ValueError] when some
    node, at any depth, has neither. *)
Theorem serialize_outcome t :
  (serialize t).2 = if nonempty_ok t then Ok () else Raise ValueError.
Proof.
  destruct (serialize_result_cases t) as [[-> ->]|[-> ->]]; done.
Qed.
End serialize_outcome.

(** ** What decoding returns *)

Section decoded.
Context {Op Att : Type} `{OpCatalogue Op} `{AttestationCatalogue Att}.
Implicit Types (t self : Timestamp Op Att).

Lemma read_items_last (P R : Timestamp Op Att → Prop) do_tag :
  (∀ tag self ctx self' ctx',
     P self → do_tag tag self ctx = Ok (self', ctx') → P self' ∧ R self') →
  ∀ turns self ctx t rest,
    P self → read_items do_tag turns self ctx = Ok (t, rest) → P t ∧ R t.
Proof.
  intros Hdo. induction turns as [|turns IH]; intros self ctx t rest HP;
    rewrite read_items_unfold;
    destruct (read_byte ctx) as [[tag ctx1]|]; simpl; try done;
    (case_decide; [|by apply Hdo]); [done|].
  destruct (read_byte ctx1) as [[tag2 ctx2]|]; simpl; [|done].
  destruct (do_tag tag2 self ctx2) as [[self' ctx3]|] eqn:Hstep; simpl;
    [|done].
  apply IH. by eapply Hdo.
Qed.

Lemma set_add_nonempty {A} `{EqDecision A} (x : A) s : set_add x s ≠ [].
Proof.
  unfold set_add. case_decide as Hin.
  - intros ->. by apply elem_of_nil in Hin.
  - by intros [? ?]%app_eq_nil.
Qed.

Lemma dict_set_nonempty {K V} `{EqDecision K} (d : list (K * V)) k v :
  dict_set k v d ≠ [].
Proof. destruct d as [|[k' v'] d]; simpl; [done|]. by case_decide. Qed.

Lemma do_tag_building des m tag self ctx self' ctx' :
  (∀ ctx m t rest, des ctx m = Ok (t, rest) →
                   msg t = m ∧ well_formed t = true ∧ nonempty_ok t = true) →
  building m self →
  do_tag_or_attestation des m tag self ctx = Ok (self', ctx') →
  building m self' ∧ ¬ (attestations self' = [] ∧ ops self' = []).
Proof.
  intros Hdes (Hm & Hwf & Hne). unfold do_tag_or_attestation.
  destruct self as [ms a o]. cbn [msg attestations ops] in *.
  pose proof Hwf as (Ha & Ho & Hchildren)%well_formed_unfold.
  case_decide.
  - destruct (att_deserialize ctx) as [[att ctx1]|]; simpl; [|done].
    intros [= <- <-]. split.
    + split_and!; [done| |done]. apply well_formed_unfold.
      split_and!; [by apply set_add_NoDup | done..].
    + cbn [attestations]. intros [Hs _]. by apply set_add_nonempty in Hs.
  - destruct (op_deserialize_from_tag tag ctx) as [[op ctx1]|]; simpl;
      [|done].
    destruct (des ctx1 (op_call op m)) as [[stamp ctx2]|] eqn:Hstamp; simpl;
      [|done].
    destruct (Hdes _ _ _ _ Hstamp) as (Hsm & Hswf & Hsne).
    assert (building m (mkTimestamp ms a (dict_set op stamp o))
            ∧ ¬ (a = [] ∧ dict_set op stamp o = [])) as Hres.
    { split.
      - split_and!; [done | |].
        + apply well_formed_dict_set; [done | congruence | done].
        + cbn [ops]. rewrite Forall_forall in Hne. apply Forall_forall.
          intros [k c] [[-> ->]|Hin]%elem_of_dict_set; [done|by apply Hne].
      - intros [_ Hd]. by apply dict_set_nonempty in Hd. }
    unfold OpSet_setitem.
    destruct (dict_get op o); [case_decide|]; simpl; try done;
      by intros [= <- <-].
Qed.

Lemma deserialize_depth_building depth ctx m t rest :
  deserialize_depth depth ctx m = Ok (t, rest) →
  msg t = m ∧ well_formed t = true ∧ nonempty_ok t = true.
Proof.
  revert ctx m t rest.
  induction depth as [|depth IH]; intros ctx m t rest; [done|].
  cbn [deserialize_depth]. intros Hread.
  apply (read_items_last (building m)
           (λ t, ¬ (attestations t = [] ∧ ops t = []))) in Hread
    as [(Hm & Hwf & Hne) Hitem].
  - split_and!; [done..|]. destruct t as [mt a o].
    apply nonempty_ok_unfold. by split.
  - intros tag self ctx0 self' ctx'. by apply do_tag_building.
  - split_and!; [done | apply well_formed_new | by constructor].
Qed.

(** X5.  Whatever the input, a timestamp that [deserialize] returns carries
    the message it was given, is in the data model (its attestations form
    a set, its operations a dict, and every child carries [op(msg)] of its
    parent), and has no empty node. *)
Theorem deserialize_returns_timestamp ctx m t rest :
  deserialize ctx m = Ok (t, rest) →
  msg t = m ∧ well_formed t = true ∧ nonempty_ok t = true.
Proof. apply deserialize_depth_building. Qed.
End decoded.

Section codec.
Context {Op Att : Type} `{OpCatalogue Op} `{AttestationCatalogue Att}.
Context `{!OpCodec} `{!AttCodec}.
Implicit Types (t self : Timestamp Op Att).

Lemma deserialize_serialize_rest t rest :
  well_formed t = true → nonempty_ok t = true →
  deserialize ((serialize t).1 ++ rest) (msg t) = Ok (normalize t, rest).
Proof.
  intros [Hc Hm]%andb_true_iff Hn. unfold deserialize.
  apply deserialize_serialize_depth; [done..|].
  rewrite length_app. lia.
Qed.

(** X4.  The bytes of a timestamp are self-delimiting: decoding them when
    other bytes follow returns the timestamp, in sorted order, and leaves
    the bytes that follow unread. *)
Theorem deserialize_leaves_rest t rest :
  well_formed t = true → nonempty_ok t = true →
  ∃ b, serialize t = (b, Ok ())
       ∧ deserialize (b ++ rest) (msg t) = Ok (normalize t, rest)
       ∧ equals (normalize t) t = true.
Proof.
  intros Hwf Hn. exists (serialize t).1. split_and!.
  - apply writer_eta. by apply serialize_returns.
  - by apply deserialize_serialize_rest.
  - apply equals_normalize. by apply andb_true_iff in Hwf as [? _].
Qed.

(** X6.  A timestamp that [deserialize] returns can be written again, and
    the bytes written decode to an equal timestamp: decoding, encoding and
    decoding again loses nothing. *)
Theorem deserialize_reserialize ctx m t rest :
  deserialize ctx m = Ok (t, rest) →
  ∃ b t', serialize t = (b, Ok ())
          ∧ deserialize b m = Ok (t', [])
          ∧ equals t' t = true.
Proof.
  intros (Hm & Hwf & Hn)%deserialize_depth_building.
  exists (serialize t).1, (normalize t). split_and!.
  - apply writer_eta. by apply serialize_returns.
  - rewrite <-Hm. rewrite <-(app_nil_r (serialize t).1) at 1.
    by apply deserialize_serialize_rest.
  - apply equals_normalize. by apply andb_true_iff in Hwf as [? _].
Qed.

(** X3.  Timestamps for the same message that are written as the same bytes
    are equal, attestations included: the encoding loses nothing. *)
Theorem serialize_injective t1 t2 :
  well_formed t1 = true → well_formed t2 = true →
  nonempty_ok t1 = true → nonempty_ok t2 = true →
  msg t1 = msg t2 → (serialize t1).1 = (serialize t2).1 →
  equals t1 t2 = true.
Proof.
  intros Hwf1 Hwf2 Hn1 Hn2 Hm Hb.
  pose proof (deserialize_serialize_rest t1 [] Hwf1 Hn1) as Hd1.
  pose proof (deserialize_serialize_rest t2 [] Hwf2 Hn2) as Hd2.
  rewrite Hb, Hm, Hd2 in Hd1. injection Hd1 as Hnorm.
  apply andb_true_iff in Hwf1 as [Hc1 _].
  apply andb_true_iff in Hwf2 as [Hc2 _].
  apply (equals_trans t1 Hc1 (normalize t1) t2);
    [by apply containers_ok_normalize | done | |].
  - apply equals_sym; [by apply containers_ok_normalize | done |].
    by apply equals_normalize.
  - rewrite <-Hnorm. by apply equals_normalize.
Qed.
End codec.

Section canonical_bytes.
Context {Op Att : Type} `{OpCatalogue Op} `{AttestationCatalogue Att}.
Context `{!StrictTotal (op_lt (Op := Op))} `{!StrictTotal (att_lt (Att := Att))}.
Implicit Types (t : Timestamp Op Att).

(** X2.  The bytes of a timestamp depend on its content only: timestamps
    that are equal, attestations included, are written as the same bytes
    and fail alike, in whatever order their sets and dicts were filled. *)
Theorem serialize_canonical_bytes t1 t2 :
  containers_ok t1 = true → containers_ok t2 = true →
  equals t1 t2 = true → serialize t1 = serialize t2.
Proof. intros Hc1 Hc2 Heq. by apply serialize_equals. Qed.
End canonical_bytes.

Section code_equality.
Context {Op Att : Type} `{OpCatalogue Op} `{AttestationCatalogue Att}.
Implicit Types (t : Timestamp Op Att).

(** X7.  [Timestamp.__eq__] compares the two trees with every attestation
    left out, and nothing else is ignored: it agrees with the equality
    that compares messages, attestations and operations on the trees
    without their attestations. *)
Theorem timestamp_eq_ignores_only_attestations t1 t2 :
  timestamp_eq t1 t2
  = equals (without_attestations t1) (without_attestations t2).
Proof. apply timestamp_eq_without_attestations. Qed.
End code_equality.

(** ** Merging and the attestations of a tree *)

Section merge_more.
Context {Op Att : Type} `{OpCatalogue Op} `{AttestationCatalogue Att}.
Implicit Types (t self other : Timestamp Op Att).
Implicit Types (o d items : list (Op * Timestamp Op Att)).

Lemma set_update_id {A} `{EqDecision A} (s l : list A) :
  (∀ x, x ∈ l → x ∈ s) → set_update s l = s.
Proof.
  unfold set_update. induction l as [|x l IH]; intros Hl; [done|].
  cbn [foldl]. unfold set_add at 2. rewrite decide_True.
  - apply IH. intros y Hy. apply Hl. by right.
  - apply Hl. by left.
Qed.

Lemma dict_set_same {K V} `{EqDecision K} (d : list (K * V)) k v :
  dict_get k d = Some v → dict_set k v d = d.
Proof.
  induction d as [|[k' v'] d IH]; [done|]. cbn [dict_get dict_set].
  case_decide; [by intros [= ->]; subst | by intros ->%IH].
Qed.

Lemma merge_items_same m a o items :
  Forall (λ item, dict_get item.1 o = Some item.2
                  ∧ merge_timestamp item.2 item.2 = (item.2, Ok ())) items →
  merge_items merge_timestamp items (mkTimestamp m a o)
  = (mkTimestamp m a o, Ok ()).
Proof.
  induction items as [|[op c] items IH]; intros Hitems; [done|].
  apply Forall_cons in Hitems as [[Hget Hc] Hitems]. cbn [fst snd] in Hget, Hc.
  rewrite merge_items_cons. cbn zeta. cbn [msg attestations ops].
  rewrite Hget. cbn [default]. unfold id. rewrite Hc. cbn [fst snd].
  rewrite dict_set_same by done. by apply IH.
Qed.

Lemma merge_timestamp_same t :
  containers_ok t = true → merge_timestamp t t = (t, Ok ()).
Proof.
  induction t as [m a o IH] using Timestamp_children_ind.
  rewrite containers_ok_unfold. intros (Ha & Ho & Hcs).
  rewrite merge_timestamp_unfold. cbn [msg attestations ops].
  rewrite decide_False by (intros Hne; by apply Hne).
  rewrite set_update_id by done.
  apply merge_items_same.
  rewrite Forall_forall in IH, Hcs. apply Forall_forall.
  intros [op c] Hin. cbn [fst snd]. split.
  - by apply dict_get_elem_of.
  - by apply (IH _ Hin), (Hcs _ Hin).
Qed.

Lemma elem_of_all_attestations t p :
  NoDup (ops t).*1 →
  p ∈ all_attestations t
  ↔ (p.1 = msg t ∧ p.2 ∈ attestations t)
    ∨ ∃ op c, dict_get op (ops t) = Some c ∧ p ∈ all_attestations c.
Proof.
  destruct t as [m a o]. cbn [all_attestations msg attestations ops].
  intros Ho. rewrite elem_of_app, list_elem_of_fmap, list_elem_of_join.
  f_equiv.
  - split.
    + by intros (x & -> & ?).
    + destruct p as [m' x]. cbn [fst snd]. intros [-> ?]. by exists x.
  - setoid_rewrite list_elem_of_fmap. split.
    + intros (l & Hp & [op c] & -> & Hin). exists op, c.
      split; [by apply dict_get_elem_of | done].
    + intros (op & c & Hget & Hp). exists (all_attestations c).
      split; [done|]. exists (op, c). split; [done|].
      by apply dict_get_Some.
Qed.


(** X8.  Merging a timestamp with itself, or with a copy of itself, returns
    and changes nothing. *)
Theorem merge_idempotent t :
  containers_ok t = true → merge t (VTimestamp t) = (t, Ok ()).
Proof. apply merge_timestamp_same. Qed.


Lemma walk_msg path :
  ∀ t node, child_msgs_ok t = true → walk t path = Some node →
  msg node = apply_path (msg t) path ∧ child_msgs_ok node = true.
Proof.
  induction path as [|op path IH]; intros t node Hok; cbn [walk].
  { by intros [= <-]. }
  destruct (dict_get op (ops t)) as [c|] eqn:Hc; [|done]. simpl.
  intros Hwalk. destruct t as [m a o].
  apply child_msgs_ok_unfold in Hok. rewrite Forall_forall in Hok.
  apply dict_get_Some in Hc. destruct (Hok _ Hc) as [Hcm Hcok].
  destruct (IH c node Hcok Hwalk) as [Hnode ?]. split; [|done].
  rewrite Hnode. cbn [fst snd] in Hcm. by rewrite Hcm.
Qed.

Lemma all_attestations_walk t :
  containers_ok t = true →
  ∀ p, p ∈ all_attestations t
       ↔ ∃ path node, walk t path = Some node
                      ∧ p.1 = msg node ∧ p.2 ∈ attestations node.
Proof.
  induction t as [m a o IH] using Timestamp_children_ind.
  intros Hc p. pose proof Hc as (Ha & Ho & Hcs)%containers_ok_unfold.
  rewrite elem_of_all_attestations by done. cbn [msg attestations ops].
  rewrite Forall_forall in IH, Hcs. split.
  - intros [[Hp1 Hp2]|(op & c & Hget & Hp)].
    + by exists [], (mkTimestamp m a o).
    + pose proof (dict_get_Some _ _ _ Hget) as Hin.
      apply (IH _ Hin (Hcs _ Hin)) in Hp as (path & node & Hwalk & ?).
      exists (op :: path), node. split; [|done].
      cbn [walk ops]. by rewrite Hget.
  - intros ([|op path] & node & Hwalk & Hp1 & Hp2).
    + injection Hwalk as <-. by left.
    + cbn [walk ops] in Hwalk.
      destruct (dict_get op o) as [c|] eqn:Hget; [|done]. simpl in Hwalk.
      right. exists op, c. split; [done|].
      pose proof (dict_get_Some _ _ _ Hget) as Hin.
      apply (IH _ Hin (Hcs _ Hin)). by exists path, node.
Qed.

(** X10.  [all_attestations] yields [(m, a)] exactly when some node of the
    tree holds [a], and [m] is the message of that node, which the
    operations on the path from the root compute from the root message. *)
Theorem all_attestations_paths t m a :
  well_formed t = true →
  (m, a) ∈ all_attestations t
  ↔ ∃ path node, walk t path = Some node ∧ a ∈ attestations node
                 ∧ msg node = m ∧ m = apply_path (msg t) path.
Proof.
  intros [Hc Hok]%andb_true_iff. rewrite all_attestations_walk by done.
  cbn [fst snd]. split.
  - intros (path & node & Hwalk & -> & Ha). exists path, node.
    split_and!; [done..|]. by eapply walk_msg.
  - intros (path & node & Hwalk & Ha & <- & _). by exists path, node.
Qed.
End merge_more.

(** ** Operations on objects, step by step *)

Section store_steps.
Context {Op Att : Type} `{OpCatalogue Op} `{AttestationCatalogue Att}.
Import Store.
Implicit Types (h : store Op Att) (o : object Op Att) (r self : ref).

(** What [sound] says of a run that returns. *)
Lemma sound_run {A} (V : Prop) h (c : state Op Att A)
    (Q : A → store Op Att → Prop) :
  sound V h c Q → V →
  ∃ h' a, c h = (h', Ok a) ∧ store_inv h' ∧ extends h h' ∧ Q a h'.
Proof.
  intros (Hinv & Hext & HQ & Hret) HV. destruct (Hret HV) as [a Ha].
  exists (c h).1, a. split_and!; [|done..|by apply HQ].
  destruct (c h) as [h' res]. simpl in *. by subst.
Qed.

Lemma object_eta o :
  mkObject (obj_msg o) (obj_attestations o) (obj_ops o) = o.
Proof. by destruct o. Qed.

(** [OpSet.add] on a key that is there returns its value and changes
    nothing. *)
Lemma add_existing h self key v :
  child_of h self key = Some v → add self key h = (h, Ok v).
Proof.
  unfold child_of, add. rewrite state_bind_unfold. unfold get.
  destruct (h !! self) as [o|]; [|done]. simpl. by intros ->.
Qed.

(** [ops[op] = v] over the same value changes nothing. *)
Lemma setitem_same h self op v :
  child_of h self op = Some v → setitem self op v h = (h, Ok ()).
Proof.
  unfold child_of, setitem, OpSet_setitem.
  destruct (h !! self) as [o|] eqn:Hself; [|done]. simpl. intros Hget.
  rewrite Hget. rewrite decide_False by (intros Hne; by apply Hne).
  rewrite (dict_set_same _ _ _ Hget), object_eta.
  by rewrite list_insert_id.
Qed.

(** [OpSet.add] on a key that is not there makes a timestamp for
    [key(msg)], with no attestation and no operation, and puts it last. *)
Lemma add_missing h self key o :
  h !! self = Some o → dict_get key (obj_ops o) = None →
  add self key h
  = (<[self := mkObject (obj_msg o) (obj_attestations o)
                 (obj_ops o ++ [(key, length h)])]>
       (h ++ [mkObject (op_call key (obj_msg o)) [] []]),
     Ok (length h)).
Proof.
  intros Hself Hget. unfold add. rewrite state_bind_unfold. unfold get.
  rewrite Hself, Hget. rewrite state_bind_unfold. unfold new, alloc.
  rewrite state_bind_unfold. unfold setitem, OpSet_setitem.
  rewrite (lookup_app_l_Some _ _ _ _ Hself), Hget.
  rewrite dict_set_fresh; [done|]. by apply dict_get_None.
Qed.

(** X11.  [ops.add(key)] is a lookup that inserts when the key is missing:
    it returns the timestamp under [key], which a second call returns
    again without changing anything; an existing entry is returned as it
    is, and no other entry of the op set changes.  A new entry is a new
    timestamp for [key(msg)] with no attestation and no operation. *)
Theorem ops_add_idempotent h self key o :
  h !! self = Some o →
  ∃ h1 r,
    add self key h = (h1, Ok r)
    ∧ add self key h1 = (h1, Ok r)
    ∧ child_of h1 self key = Some r
    ∧ (∀ k c, child_of h self k = Some c → child_of h1 self k = Some c)
    ∧ match dict_get key (obj_ops o) with
      | Some v => r = v ∧ h1 = h
      | None =>
          r = length h
          ∧ h1 !! r = Some (mkObject (op_call key (obj_msg o)) [] [])
      end.
Proof.
  intros Hself.
  assert (self < length h) as Hlt by (by eapply lookup_lt_Some).
  destruct (dict_get key (obj_ops o)) as [v|] eqn:Hget.
  - assert (child_of h self key = Some v) as Hc.
    { unfold child_of. by rewrite Hself. }
    exists h, v. by rewrite !(add_existing _ _ _ _ Hc).
  - rewrite (add_missing _ _ _ _ Hself Hget). eexists _, _.
    split; [done|].
    assert (∀ k, child_of
              (<[self := mkObject (obj_msg o) (obj_attestations o)
                           (obj_ops o ++ [(key, length h)])]>
                 (h ++ [mkObject (op_call key (obj_msg o)) [] []])) self k
            = dict_get k (obj_ops o ++ [(key, length h)])) as Hchild.
    { intros k. rewrite child_of_insert_eq; [done|].
      rewrite length_app. lia. }
    assert (dict_get key (obj_ops o ++ [(key, length h)]) = Some (length h))
      as Hkey.
    { rewrite <-(dict_set_fresh (obj_ops o) key (length h))
        by (by apply dict_get_None).
      by rewrite dict_get_set, decide_True. }
    split_and!.
    + apply add_existing. by rewrite Hchild.
    + by rewrite Hchild.
    + intros k c Hc. rewrite Hchild.
      unfold child_of in Hc. rewrite Hself in Hc. simpl in Hc.
      rewrite <-(dict_set_fresh (obj_ops o) key (length h))
        by (by apply dict_get_None).
      rewrite dict_get_set, decide_False; [done|]. intros ->. congruence.
    + done.
    + rewrite list_lookup_insert_ne by lia. by apply list_lookup_middle.
Qed.
End store_steps.

(** ** Concatenation, step by step *)

Section cat_steps.
Context {Op Att : Type} `{OpCatalogue Op} `{AttestationCatalogue Att}.
Context `{!OpConcat}.
Import Store.
Implicit Types (h : store Op Att) (o : object Op Att) (r self : ref).

(** The four steps of [cat_then_unary_op] on two timestamps: the child of
    the left under append, the child [x] of the right under prepend, the
    assignment of [x] to the left, and the child [t] of [x] under the
    unary operation. *)
Lemma cat_timestamps_steps U (L R : ref) h lo ro :
  store_inv h → h !! L = Some lo → h !! R = Some ro →
  ∃ h1 x1 h2 x l2 h4 t ot,
    add L (OpAppend (obj_msg ro)) h = (h1, Ok x1)
    ∧ add R (OpPrepend (obj_msg lo)) h1 = (h2, Ok x)
    ∧ h2 !! L = Some l2 ∧ obj_msg l2 = obj_msg lo
    ∧ add x U (<[L := mkObject (obj_msg l2) (obj_attestations l2)
                        (dict_set (OpAppend (obj_msg ro)) x (obj_ops l2))]> h2)
      = (h4, Ok t)
    ∧ cat_timestamps U L R h = (h4, Ok t)
    ∧ store_inv h4
    ∧ grows h h1 ∧ grows h1 h2
    ∧ grows (<[L := mkObject (obj_msg l2) (obj_attestations l2)
                      (dict_set (OpAppend (obj_msg ro)) x (obj_ops l2))]> h2)
            h4
    ∧ child_of h2 R (OpPrepend (obj_msg lo)) = Some x
    ∧ child_of h4 x U = Some t
    ∧ h4 !! t = Some ot
    ∧ obj_msg ot = op_call U (obj_msg lo ++ obj_msg ro).
Proof.
  intros Hh HL HR.
  destruct (sound_run _ _ _ _ (sound_add h L (OpAppend (obj_msg ro)) Hh))
    as (h1 & x1 & Hadd1 & Hh1 & Hext1 & (lo' & ox1 & HL' & Hx1 & Hmx1 & Hc1 & Hg1));
    [by eexists|].
  destruct (Hext1 _ _ HL) as (l1 & HL1 & Hml1).
  destruct (Hext1 _ _ HR) as (r1 & HR1 & Hmr1).
  destruct (sound_run _ _ _ _ (sound_add h1 R (OpPrepend (obj_msg lo)) Hh1))
    as (h2 & x & Hadd2 & Hh2 & Hext2 & (r1' & ox & HR1' & Hx & Hmx & Hc2 & Hg2));
    [by eexists|].
  assert (r1' = r1) as -> by congruence.
  destruct (Hext2 _ _ HL1) as (l2 & HL2 & Hml2).
  destruct (Hext2 _ _ HR1) as (r2 & HR2 & Hmr2).
  assert (obj_msg ox = obj_msg lo ++ obj_msg ro) as Hmx'.
  { rewrite Hmx, op_call_prepend. congruence. }
  destruct (sound_run True _ _ _
              (sound_setitem True h2 L (OpAppend (obj_msg ro)) x l2 ox
                 Hh2 HL2 Hx ltac:(rewrite op_call_append; congruence)) I)
    as (h3 & [] & Hset & Hh3 & Hext3 & ->).
  set (h3 := <[L := _]> h2) in *.
  destruct (Hext3 _ _ Hx) as (ox3 & Hx3 & Hmx3).
  destruct (sound_run _ _ _ _ (sound_add h3 x U Hh3))
    as (h4 & t & Hadd4 & Hh4 & Hext4 & (ox3' & ot & Hx3' & Ht & Hmt & Hc4 & Hg4));
    [by eexists|].
  assert (ox3' = ox3) as -> by congruence.
  exists h1, x1, h2, x, l2, h4, t, ot.
  split_and!; try done.
  - congruence.
  - unfold cat_timestamps. rewrite state_bind_unfold. unfold get at 1.
    rewrite HR. rewrite state_bind_unfold, Hadd1.
    rewrite state_bind_unfold. unfold get at 1. rewrite HL1.
    rewrite state_bind_unfold, Hml1, Hadd2.
    rewrite state_bind_unfold. unfold get at 1. rewrite HR2.
    rewrite state_bind_unfold, Hmr2, Hmr1, Hset. done.
  - rewrite Hmt. congruence.
Qed.
End cat_steps.

Section cat_spec.
Context {Op Att : Type} `{OpCatalogue Op} `{AttestationCatalogue Att}.
Context `{!OpConcat}.
Import Store.
Implicit Types (h : store Op Att) (o : object Op Att) (r self : ref).

Lemma grows_child_of h h' r k c :
  grows h h' → child_of h r k = Some c → child_of h' r k = Some c.
Proof. intros [_ Hg]. apply Hg. Qed.

(** [cat_then_unary_op] on two timestamps: what it returns, what the two
    op sets hold afterwards, and what it leaves alone. *)
Lemma cat_timestamps_spec U (L R : ref) h lo ro :
  store_inv h → h !! L = Some lo → h !! R = Some ro →
  ∃ h' x t ot,
    cat_timestamps U L R h = (h', Ok t)
    ∧ store_inv h' ∧ extends h h'
    ∧ child_of h' L (OpAppend (obj_msg ro)) = Some x
    ∧ child_of h' R (OpPrepend (obj_msg lo)) = Some x
    ∧ child_of h' x U = Some t
    ∧ h' !! t = Some ot
    ∧ obj_msg ot = op_call U (obj_msg lo ++ obj_msg ro)
    ∧ (∀ a k c, a ≠ L → child_of h a k = Some c → child_of h' a k = Some c)
    ∧ (∀ x0, child_of h R (OpPrepend (obj_msg lo)) = Some x0 → x = x0).
Proof.
  intros Hh HL HR.
  destruct (cat_timestamps_steps U L R h lo ro Hh HL HR)
    as (h1 & x1 & h2 & x & l2 & h4 & t & ot & Hadd1 & Hadd2 & HL2 & Hml2
        & Hadd4 & Hcat & Hh4 & Hg1 & Hg2 & Hg4 & Hc2 & Hc4 & Ht & Hmt).
  set (h3 := <[L := _]> h2) in *.
  assert (L < length h2) as Hlt by (by eapply lookup_lt_Some).
  assert (extends h2 h3) as Hext3 by (by eapply extends_insert).
  exists h4, x, t, ot. split_and!; try done.
  - eapply extends_trans; [apply Hg1|].
    eapply extends_trans; [apply Hg2|].
    eapply extends_trans; [apply Hext3 | apply Hg4].
  - apply (grows_child_of h3); [done|]. unfold h3.
    rewrite child_of_insert_eq by done. simpl.
    by rewrite dict_get_set, decide_True.
  - apply (grows_child_of h3); [done|]. unfold h3.
    destruct (decide (R = L)) as [->|Hne].
    + rewrite child_of_insert_eq by done. simpl.
      rewrite dict_get_set. case_decide; [done|].
      unfold child_of in Hc2. by rewrite HL2 in Hc2.
    + by rewrite child_of_insert_ne.
  - intros a k c Hne Hc.
    apply (grows_child_of h3); [done|]. unfold h3.
    rewrite child_of_insert_ne by done.
    by apply (grows_child_of h1), (grows_child_of h).
  - intros x0 Hx0.
    apply (grows_child_of _ _ _ _ _ Hg1) in Hx0.
    rewrite (add_existing _ _ _ _ Hx0) in Hadd2. by injection Hadd2.
Qed.

(** X12.  [cat_then_unary_op] on two timestamps is idempotent: a second
    call with the same timestamps returns the same timestamp and changes
    nothing. *)
Theorem cat_then_unary_op_idempotent U (L R : ref) h :
  store_ok h = true → is_Some (h !! L) → is_Some (h !! R) →
  ∃ h' t,
    cat_then_unary_op U (ATimestamp L) (ATimestamp R) h = (h', Ok t)
    ∧ cat_then_unary_op U (ATimestamp L) (ATimestamp R) h' = (h', Ok t).
Proof.
  intros Hh%store_ok_inv [lo HL] [ro HR].
  destruct (cat_timestamps_spec U L R h lo ro Hh HL HR)
    as (h' & x & t & ot & Hcat & Hh' & Hext & HcL & HcR & Hcx & _).
  exists h', t. split; [done|].
  destruct (Hext _ _ HL) as (l' & HL' & Hml).
  destruct (Hext _ _ HR) as (r' & HR' & Hmr).
  change (cat_then_unary_op U (ATimestamp L) (ATimestamp R) h')
    with (cat_timestamps U L R h').
  unfold cat_timestamps. rewrite state_bind_unfold. unfold get at 1.
  rewrite HR', Hmr. rewrite state_bind_unfold, (add_existing _ _ _ _ HcL).
  rewrite state_bind_unfold. unfold get at 1. rewrite HL', Hml.
  rewrite state_bind_unfold, (add_existing _ _ _ _ HcR).
  rewrite state_bind_unfold. unfold get at 1. rewrite HR', Hmr.
  rewrite state_bind_unfold, (setitem_same _ _ _ _ HcL).
  by apply add_existing.
Qed.

(** X13.  [cat_then_unary_op] keeps the child of the right and replaces the
    one of the left: when [right.ops] holds a timestamp under
    [Prepend(left.msg)], that timestamp is afterwards the entry of both
    op sets, whatever [left.ops] held under [Append(right.msg)] before. *)
Theorem cat_then_unary_op_keeps_right U (L R : ref) h lo ro x0 :
  store_ok h = true → h !! L = Some lo → h !! R = Some ro →
  child_of h R (OpPrepend (obj_msg lo)) = Some x0 →
  ∃ h' t,
    cat_then_unary_op U (ATimestamp L) (ATimestamp R) h = (h', Ok t)
    ∧ child_of h' L (OpAppend (obj_msg ro)) = Some x0
    ∧ child_of h' R (OpPrepend (obj_msg lo)) = Some x0
    ∧ child_of h' x0 U = Some t.
Proof.
  intros Hh%store_ok_inv HL HR Hx0.
  destruct (cat_timestamps_spec U L R h lo ro Hh HL HR)
    as (h' & x & t & ot & Hcat & _ & _ & HcL & HcR & Hcx & _ & _ & _ & Hx).
  rewrite (Hx _ Hx0) in *. by exists h', t.
Qed.
End cat_spec.

Section cat_sha256d.
Context {Op Att : Type} `{OpCatalogue Op} `{AttestationCatalogue Att}.
Context `{!OpConcat}.
Import Store.
Implicit Types (h : store Op Att) (o : object Op Att) (r self : ref).

(** X14.  [cat_sha256d] returns the child under SHA-256 of the timestamp
    that [cat_sha256] returns, for timestamps and for bytes: its message
    is the double digest [SHA256(SHA256(left.msg ‖ right.msg))]. *)
Theorem cat_sha256d_returns h (left right : arg) lm rm :
  store_ok h = true →
  arg_msg h left = Some lm → arg_msg h right = Some rm →
  ∃ h1 t h2 d od,
    cat_sha256 left right h = (h1, Ok t)
    ∧ cat_sha256d left right h = (h2, Ok d)
    ∧ child_of h2 t OpSHA256 = Some d
    ∧ h2 !! d = Some od
    ∧ obj_msg od = op_call OpSHA256 (op_call OpSHA256 (lm ++ rm)).
Proof.
  intros Hh%store_ok_inv Hlm Hrm.
  destruct (cat_sha256_returns h left right lm rm Hh Hlm Hrm)
    as (h1 & t & ot & Hcat & Hh1 & Hext1 & Ht & Hmt).
  destruct (sound_run _ _ _ _ (sound_add h1 t OpSHA256 Hh1))
    as (h2 & d & Hadd & Hh2 & Hext2 & (ot' & od & Ht' & Hd & Hmd & Hc & _));
    [by eexists|].
  assert (ot' = ot) as -> by congruence.
  exists h1, t, h2, d, od. split_and!; [done| |done..|congruence].
  unfold cat_sha256d. by rewrite state_bind_unfold, Hcat.
Qed.
End cat_sha256d.

(** ** The Merkle mountain range *)

Section reaching.
Context {Op Att : Type} `{OpCatalogue Op} `{AttestationCatalogue Att}.
Import Store.
Implicit Types (h : store Op Att) (o : object Op Att) (r u q : ref).
Implicit Types (W : list arg).

Lemma descend_cons h u op path q :
  descend h u (op :: path) = Some q
  ↔ ∃ c, child_of h u op = Some c ∧ descend h c path = Some q.
Proof.
  cbn [descend]. unfold child_of. destruct (h !! u) as [o|]; simpl.
  - destruct (dict_get op (obj_ops o)) as [c|]; simpl; naive_solver.
  - naive_solver.
Qed.

Lemma reaches_refl h u : reaches h u u.
Proof. by exists []. Qed.

Lemma reaches_step h u k c q :
  child_of h u k = Some c → reaches h c q → reaches h u q.
Proof.
  intros Hc [path Hpath]. exists (k :: path). apply descend_cons. eauto.
Qed.

(** Paths survive when entries do. *)
Lemma reaches_mono h h' u q :
  (∀ a k c, child_of h a k = Some c → child_of h' a k = Some c) →
  reaches h u q → reaches h' u q.
Proof.
  intros Hmono [path Hpath]. revert u Hpath.
  induction path as [|op path IH]; intros u Hpath.
  - injection Hpath as <-. apply reaches_refl.
  - apply descend_cons in Hpath as (c & Hc & Hpath).
    eapply reaches_step; [by apply Hmono | by apply IH].
Qed.

(** When only the entries of [L] may have changed, a path survives or
    leads to [L]. *)
Lemma reaches_frame h h' (L : ref) u q :
  (∀ a k c, a ≠ L → child_of h a k = Some c → child_of h' a k = Some c) →
  reaches h u q → reaches h' u q ∨ reaches h' u L.
Proof.
  intros Hframe [path Hpath]. revert u Hpath.
  induction path as [|op path IH]; intros u Hpath.
  - injection Hpath as <-. left. apply reaches_refl.
  - destruct (decide (u = L)) as [->|Hne]; [right; apply reaches_refl|].
    apply descend_cons in Hpath as (c & Hc & Hpath).
    apply (Hframe _ _ _ Hne) in Hc.
    destruct (IH _ Hpath); [left | right]; by eapply reaches_step.
Qed.

Lemma covers_subseteq h W W' u :
  (∀ q, ATimestamp q ∈ W → ATimestamp q ∈ W') →
  covers h W u → covers h W' u.
Proof. intros Hsub (q & Hq & Hreach). exists q. auto. Qed.
End reaching.

Section merkle.
Context {Op Att : Type} `{OpCatalogue Op} `{AttestationCatalogue Att}.
Context `{!OpConcat}.
Import Store.
Implicit Types (h : store Op Att) (o : object Op Att) (r u q : ref).
Implicit Types (W stamps : list arg) (msgs : list bytes).

(** The arguments of the list have the messages of [msgs]. *)
Abbreviation has_msgs h := (Forall2 (λ (x : arg) m, arg_msg h x = Some m)).
Abbreviation has_msg h :=
  (option_Forall2 (λ (x : arg) m, arg_msg h x = Some m)).

Ltac solve_members :=
  intros ?; unfold option_list; cbn [option_rect];
  repeat (rewrite elem_of_cons || rewrite elem_of_app
          || rewrite elem_of_nil);
  naive_solver.

Lemma has_msgs_extends h h' stamps msgs :
  extends h h' → has_msgs h stamps msgs → has_msgs h' stamps msgs.
Proof.
  intros Hext Hm. eapply Forall2_impl; [exact Hm|].
  intros x m. by apply arg_msg_extends.
Qed.

Lemma extends_child_of_app h o' :
  ∀ a k c, child_of h a k = Some c → child_of (h ++ [o']) a k = Some c.
Proof. intros a k c. apply child_of_app. Qed.

(** [as_timestamp] returns a timestamp with the message of its argument,
    which is the argument when that is a timestamp, and keeps the
    entries. *)
Lemma as_timestamp_spec h (x : arg) m :
  store_inv h → arg_msg h x = Some m →
  ∃ h1 r o,
    as_timestamp x h = (h1, Ok r)
    ∧ h1 !! r = Some o ∧ obj_msg o = m
    ∧ store_inv h1 ∧ extends h h1
    ∧ (∀ a k c, child_of h a k = Some c → child_of h1 a k = Some c)
    ∧ (∀ q, x = ATimestamp q → r = q).
Proof.
  intros Hh Hm. destruct x as [q|b]; simpl in *.
  - destruct (h !! q) as [o|] eqn:Hq; [|done]. injection Hm as <-.
    exists h, q, o. split_and!; try done.
    + apply extends_refl.
    + by intros ? [= ->].
  - injection Hm as <-.
    exists (h ++ [mkObject b [] []]), (length h), (mkObject b [] []).
    split_and!; try done.
    + by apply list_lookup_middle.
    + apply store_inv_alloc; [done|]. constructor.
    + apply extends_alloc.
    + intros a k c. apply child_of_app.
Qed.

(** [cat_sha256]: the timestamp it returns carries the digest of the
    concatenated messages, and whatever reached one of the two arguments,
    or another timestamp, reaches the result or that timestamp. *)
Lemma cat_sha256_covers h (left right : arg) lm rm W :
  store_inv h → arg_msg h left = Some lm → arg_msg h right = Some rm →
  ∃ h' t,
    cat_sha256 left right h = (h', Ok t)
    ∧ store_inv h' ∧ extends h h'
    ∧ arg_msg h' (ATimestamp t) = Some (op_call OpSHA256 (lm ++ rm))
    ∧ ∀ u, covers h (left :: right :: W) u → covers h' (ATimestamp t :: W) u.
Proof.
  intros Hh Hlm Hrm.
  destruct (as_timestamp_spec h left lm Hh Hlm)
    as (h1 & L & lo & Hl & HL & Hmlo & Hh1 & Hext1 & Hmono1 & HLq).
  destruct (as_timestamp_spec h1 right rm Hh1 (arg_msg_extends _ _ _ _ Hext1 Hrm))
    as (h2 & R & ro & Hr & HR & Hmro & Hh2 & Hext2 & Hmono2 & HRq).
  destruct (Hext2 _ _ HL) as (lo2 & HL2 & Hmlo2).
  destruct (cat_timestamps_spec OpSHA256 L R h2 lo2 ro Hh2 HL2 HR)
    as (h' & x & t & ot & Hcat & Hh' & Hext & HcL & HcR & Hcx & Ht & Hmt
        & Hframe & _).
  exists h', t. split_and!.
  - unfold cat_sha256, cat_then_unary_op.
    by rewrite state_bind_unfold, Hl, state_bind_unfold, Hr.
  - done.
  - eapply extends_trans; [done|]. by eapply extends_trans.
  - cbn [arg_msg]. rewrite Ht. cbn. rewrite Hmt. congruence.
  - assert (reaches h' L t) as HLt.
    { eapply reaches_step; [done|]. eapply reaches_step; [done|].
      apply reaches_refl. }
    assert (reaches h' R t) as HRt.
    { eapply reaches_step; [done|]. eapply reaches_step; [done|].
      apply reaches_refl. }
    assert (∀ a b, reaches h' a b → reaches h' b t → reaches h' a t)
      as Htrans.
    { intros a b [p1 Hp1]. revert a Hp1.
      induction p1 as [|k p1 IH]; intros a Hp1 Hbt.
      - by injection Hp1 as <-.
      - apply descend_cons in Hp1 as (c & Hc & Hp1).
        eapply reaches_step; [done | by apply IH]. }
    intros u (q & Hq & Hreach).
    apply (reaches_mono h h2) in Hreach; [|by auto].
    apply (reaches_frame h2 h' L) in Hreach; [|done].
    destruct Hreach as [Hreach|Hreach].
    + apply elem_of_cons in Hq as [Hq|Hq].
      { exists t. split; [by left|]. rewrite <-(HLq _ (eq_sym Hq)) in Hreach.
        by eapply Htrans. }
      apply elem_of_cons in Hq as [Hq|Hq].
      { exists t. split; [by left|]. rewrite <-(HRq _ (eq_sym Hq)) in Hreach.
        by eapply Htrans. }
      exists q. split; [by right | done].
    + exists t. split; [by left|]. by eapply Htrans.
Qed.

Lemma pair_msgs_length msgs :
  ∀ next prev,
    2 * length (pair_msgs msgs next prev).1
    + length (option_list (pair_msgs msgs next prev).2)
    = length msgs + 2 * length next + length (option_list prev).
Proof.
  induction msgs as [|m msgs IH]; intros next prev; [simpl; lia|].
  cbn [pair_msgs]. destruct prev as [p|]; rewrite IH.
  - rewrite length_app. simpl. lia.
  - simpl. lia.
Qed.

(** The loop that pairs the elements returns, its results carry the
    messages of [pair_msgs], and what reached an element reaches a
    result. *)
Lemma pair_stamps_spec stamps :
  ∀ next prev h msgs nmsgs pmsg,
    store_inv h → has_msgs h stamps msgs → has_msgs h next nmsgs →
    has_msg h prev pmsg →
    ∃ h' next' prev',
      pair_stamps stamps next prev h = (h', Ok (next', prev'))
      ∧ store_inv h' ∧ extends h h'
      ∧ has_msgs h' next' (pair_msgs msgs nmsgs pmsg).1
      ∧ has_msg h' prev' (pair_msgs msgs nmsgs pmsg).2
      ∧ ∀ u, covers h (stamps ++ next ++ option_list prev) u
             → covers h' (next' ++ option_list prev') u.
Proof.
  induction stamps as [|stamp stamps IH];
    intros next prev h msgs nmsgs pmsg Hh Hstamps Hnext Hprev.
  { apply Forall2_nil_inv_l in Hstamps as ->.
    exists h, next, prev. split_and!; try done. apply extends_refl. }
  apply Forall2_cons_inv_l in Hstamps as (m & msgs' & Hm & Hstamps & ->).
  cbn [pair_stamps pair_msgs].
  destruct Hprev as [p pm Hp|].
  - destruct (cat_sha256_covers h p stamp pm m (stamps ++ next) Hh Hp Hm)
      as (h1 & t & Hcat & Hh1 & Hext1 & Ht & Hcov).
    destruct (IH (next ++ [ATimestamp t]) None h1 msgs'
                (nmsgs ++ [op_call OpSHA256 (pm ++ m)]) None)
      as (h' & next' & prev' & Hpair & Hh' & Hext' & Hn' & Hp' & Hcov');
      [done | by eapply has_msgs_extends | | constructor |].
    { apply Forall2_app; [by eapply has_msgs_extends|].
      by repeat constructor. }
    exists h', next', prev'. split_and!; try done.
    + by rewrite state_bind_unfold, Hcat.
    + by eapply extends_trans.
    + intros u Hu. apply Hcov'. cbn [option_list].
      eapply covers_subseteq; [|apply Hcov].
      * solve_members.
      * eapply covers_subseteq; [|exact Hu]. solve_members.
  - destruct (IH next (Some stamp) h msgs' nmsgs (Some m))
      as (h' & next' & prev' & Hpair & Hh' & Hext' & Hn' & Hp' & Hcov');
      [done.. | by constructor |].
    exists h', next', prev'. split_and!; try done.
    intros u Hu. apply Hcov'.
    eapply covers_subseteq; [|exact Hu]. solve_members.
Qed.

(** The rounds of [make_merkle_tree] return a tip with the message of
    [merkle_msg_rounds], and what reached an element reaches the tip. *)
Lemma make_merkle_tree_rounds_spec rounds :
  ∀ stamps h msgs,
    store_inv h → stamps ≠ [] → length stamps ≤ rounds →
    has_msgs h stamps msgs →
    ∃ h' tip m,
      make_merkle_tree_rounds rounds stamps h = (h', Ok (Some tip))
      ∧ merkle_msg_rounds rounds msgs = Some m
      ∧ arg_msg h' tip = Some m
      ∧ store_inv h' ∧ extends h h'
      ∧ ∀ u, covers h stamps u → covers h' [tip] u.
Proof.
  induction rounds as [|rounds IH]; intros stamps h msgs Hh Hne Hlen Hmsgs.
  { destruct stamps; [done | simpl in Hlen; lia]. }
  destruct stamps as [|p stamps]; [done|].
  apply Forall2_cons_inv_l in Hmsgs as (pm & msgs' & Hp & Hmsgs & ->).
  cbn [make_merkle_tree_rounds merkle_msg_rounds].
  destruct (pair_stamps_spec stamps [] (Some p) h msgs' [] (Some pm))
    as (h1 & next' & prev' & Hpair & Hh1 & Hext1 & Hn' & Hp' & Hcov);
    [done.. | constructor | by constructor |].
  pose proof (pair_msgs_length msgs' [] (Some pm)) as Hlens.
  pose proof (Forall2_length _ _ _ Hmsgs) as Hlm.
  pose proof (Forall2_length _ _ _ Hn') as Hln.
  rewrite state_bind_unfold, Hpair.
  destruct (pair_msgs msgs' [] (Some pm)) as [nmsgs pmsg] eqn:Hpm.
  cbn [fst snd] in *. simpl in Hlen, Hlens.
  assert (∀ u, covers h (p :: stamps) u
               → covers h1 (next' ++ option_list prev') u) as Hcov1.
  { intros u Hu. apply Hcov. eapply covers_subseteq; [|exact Hu].
    solve_members. }
  destruct next' as [|n1 next'].
  - apply Forall2_nil_inv_l in Hn' as ->.
    destruct Hp' as [tip m Htip|]; [|simpl in Hlens; lia].
    exists h1, tip, m. split_and!; try done.
  - destruct nmsgs as [|nm1 nmsgs]; [by apply Forall2_length in Hn'|].
    set (stamps' := match prev' with
                    | Some prev => (n1 :: next') ++ [prev]
                    | None => n1 :: next'
                    end).
    set (msgs'' := match pmsg with
                   | Some prev => (nm1 :: nmsgs) ++ [prev]
                   | None => nm1 :: nmsgs
                   end).
    assert (stamps' = (n1 :: next') ++ option_list prev') as Hs'.
    { unfold stamps'. destruct prev'; [done|]. by rewrite app_nil_r. }
    assert (has_msgs h1 stamps' msgs'') as Hmsgs''.
    { unfold stamps', msgs''. destruct Hp'; [|done].
      apply Forall2_app; [done | by repeat constructor]. }
    destruct (IH stamps' h1 msgs'')
      as (h' & tip & m & Hrun & Hmm & Htip & Hh' & Hext' & Hcov');
      [done | by rewrite Hs' | | done |].
    { rewrite Hs', length_app. simpl in *.
      assert (length (option_list prev') = length (option_list pmsg))
        as Hlp by (by destruct Hp').
      lia. }
    exists h', tip, m. split_and!; try done.
    + by eapply extends_trans.
    + intros u Hu. apply Hcov'. rewrite Hs'. by apply Hcov1.
Qed.

(** X15.  [make_merkle_tree] on a list that is not empty returns a tip, and
    the message of the tip is a function of the messages of the elements
    alone: the fold [merkle_msg], which pairs neighbours under SHA-256
    round after round and carries an odd last element to the next round
    as it is. *)
Theorem make_merkle_tree_returns h stamps msgs :
  store_ok h = true → stamps ≠ [] →
  Forall2 (λ (x : arg) m, arg_msg h x = Some m) stamps msgs →
  ∃ h' tip m,
    make_merkle_tree stamps h = (h', Ok (Some tip))
    ∧ merkle_msg msgs = Some m
    ∧ arg_msg h' tip = Some m
    ∧ store_ok h' = true.
Proof.
  intros Hh%store_ok_inv Hne Hmsgs.
  destruct (make_merkle_tree_rounds_spec (S (length stamps)) stamps h msgs)
    as (h' & tip & m & Hrun & Hmm & Htip & Hh' & _); [done.. | lia | done |].
  exists h', tip, m. split_and!; [done | | done | by apply store_ok_inv].
  unfold merkle_msg. by rewrite <-(Forall2_length _ _ _ Hmsgs).
Qed.

(** X16.  The tip of [make_merkle_tree] commits to every element: from each
    timestamp of the list, a path of operations leads to the tip, also
    when timestamps of the list share objects or were paired before. *)
Theorem make_merkle_tree_commits h stamps msgs :
  store_ok h = true → stamps ≠ [] →
  Forall2 (λ (x : arg) m, arg_msg h x = Some m) stamps msgs →
  ∃ h' tip,
    make_merkle_tree stamps h = (h', Ok (Some tip))
    ∧ ∀ r, ATimestamp r ∈ stamps →
           ∃ q path, tip = ATimestamp q ∧ descend h' r path = Some q.
Proof.
  intros Hh%store_ok_inv Hne Hmsgs.
  destruct (make_merkle_tree_rounds_spec (S (length stamps)) stamps h msgs)
    as (h' & tip & m & Hrun & _ & _ & _ & _ & Hcov); [done.. | lia | done |].
  exists h', tip. split; [done|]. intros r Hr.
  destruct (Hcov r) as (q & Hq & path & Hpath).
  { exists r. split; [done | apply reaches_refl]. }
  apply list_elem_of_singleton in Hq. by exists q, path.
Qed.

(** X17.  The edges of [make_merkle_tree]: an empty list raises
    [ValueError], and a list of one element returns that element as it
    is, bytes included; neither changes any timestamp. *)
Theorem make_merkle_tree_short h (x : arg) :
  make_merkle_tree [] h = (h, Raise ValueError)
  ∧ make_merkle_tree [x] h = (h, Ok (Some x)).
Proof. done. Qed.
End merkle.

(** ** Merging in place keeps what the timestamps hold *)

Section merge_keeps.
Context {Op Att : Type} `{OpCatalogue Op} `{AttestationCatalogue Att}.
Import Store.
Implicit Types (h : store Op Att) (o : object Op Att) (r self other : ref).

Lemma keeps_refl h : keeps h h.
Proof. intros r o Hr. by exists o. Qed.

Lemma keeps_trans h1 h2 h3 : keeps h1 h2 → keeps h2 h3 → keeps h1 h3.
Proof.
  intros H12 H23 r o Hr.
  destruct (H12 _ _ Hr) as (o2 & Hr2 & Hm2 & Ha2 & Ho2).
  destruct (H23 _ _ Hr2) as (o3 & Hr3 & Hm3 & Ha3 & Ho3).
  exists o3. split_and!; [done | congruence | auto | auto].
Qed.

Lemma keeps_alloc h o : keeps h (h ++ [o]).
Proof.
  intros r o' Hr. exists o'. split; [by apply lookup_app_l_Some | done].
Qed.

Lemma keeps_insert h self o o' :
  h !! self = Some o → obj_msg o' = obj_msg o →
  (∀ a, a ∈ obj_attestations o → a ∈ obj_attestations o') →
  (∀ k c, dict_get k (obj_ops o) = Some c → dict_get k (obj_ops o') = Some c) →
  keeps h (<[self := o']> h).
Proof.
  intros Hself Hm Ha Ho r o1 Hr.
  destruct (decide (r = self)) as [->|Hne].
  - exists o'. rewrite list_lookup_insert_eq by (by eapply lookup_lt_Some).
    assert (o1 = o) as -> by congruence. done.
  - exists o1. by rewrite list_lookup_insert_ne.
Qed.

Lemma keeping_ret {A} (a : A) : keeping (mret a : state Op Att A).
Proof. intros h. apply keeps_refl. Qed.

Lemma keeping_raise {A} e : keeping (raise e : state Op Att A).
Proof. intros h. apply keeps_refl. Qed.

Lemma keeping_bind {A B} (c : state Op Att A) (k : A → state Op Att B) :
  keeping c → (∀ a, keeping (k a)) → keeping (c ≫= k).
Proof.
  intros Hc Hk h. rewrite state_bind_unfold. specialize (Hc h).
  destruct (c h) as [h1 [a|e]]; [|done].
  eapply keeps_trans; [done | apply Hk].
Qed.

Lemma keeping_add self key : keeping (add self key : state Op Att ref).
Proof.
  intros h. destruct (h !! self) as [o|] eqn:Hself.
  - destruct (dict_get key (obj_ops o)) as [v|] eqn:Hget.
    + rewrite (add_existing h self key v); [apply keeps_refl|].
      unfold child_of. by rewrite Hself.
    + rewrite (add_missing _ _ _ _ Hself Hget). cbn [fst].
      eapply keeps_trans; [apply keeps_alloc|].
      eapply keeps_insert; [by apply lookup_app_l_Some | done..|].
      intros k c Hc. cbn [obj_ops].
      rewrite <-(dict_set_fresh (obj_ops o) key (length h))
        by (by apply dict_get_None).
      rewrite dict_get_set, decide_False; [done|]. intros ->. congruence.
  - unfold add. rewrite state_bind_unfold. unfold get. rewrite Hself.
    apply keeps_refl.
Qed.

Lemma keeping_get r : keeping (get r : state Op Att (object Op Att)).
Proof. intros h. unfold get. destruct (h !! r); apply keeps_refl. Qed.

Lemma keeping_merge_items (merge : ref → ref → state Op Att unit)
    self other size todo :
  (∀ ours theirs, keeping (merge ours theirs)) →
  keeping (merge_items merge self other size todo).
Proof.
  intros Hmerge. induction todo as [|todo IH]; cbn [merge_items].
  - apply keeping_bind; [apply keeping_get|]. intros o.
    case_decide; [apply keeping_raise | apply keeping_ret].
  - apply keeping_bind; [apply keeping_get|]. intros o.
    case_decide; [apply keeping_raise|].
    destruct (obj_ops o !! _) as [[other_op other_op_stamp]|];
      [|apply keeping_ret].
    apply keeping_bind; [apply keeping_add|]. intros ours.
    apply keeping_bind; [apply Hmerge|]. by intros [].
Qed.

Lemma keeping_merge_timestamp depth self other :
  keeping (merge_timestamp depth self other : state Op Att unit).
Proof.
  revert self other. induction depth as [|depth IH]; intros self other.
  { apply keeping_raise. }
  cbn [merge_timestamp]. intros h.
  rewrite state_bind_unfold. unfold get at 1.
  destruct (h !! self) as [s|] eqn:Hself; [|apply keeps_refl].
  rewrite state_bind_unfold. unfold get at 1.
  destruct (h !! other) as [o|] eqn:Hother; [|apply keeps_refl].
  case_decide; [apply keeps_refl|].
  rewrite state_bind_unfold. unfold put. cbn [fst snd].
  match goal with |- keeps h (_ ?h1).1 => apply (keeps_trans h h1) end.
  - eapply (keeps_insert h self s); [done | done | | done].
    intros a Ha. cbn [obj_attestations]. apply elem_of_set_update. by left.
  - apply (keeping_bind (get other)); [apply keeping_get|].
    intros o'. by apply keeping_merge_items.
Qed.

Lemma keeping_merge depth self (other : arg) :
  keeping (merge depth self other : state Op Att unit).
Proof.
  destruct other as [other|b]; [|apply keeping_raise].
  apply keeping_merge_timestamp.
Qed.

(** X18.  [merge] in place only adds: whatever the two arguments are,
    however the timestamps share objects, and whether the call returns or
    raises, every timestamp keeps its message, every attestation it held
    and every entry of its op set. *)
Theorem merge_keeps depth self (other : arg) h r o :
  h !! r = Some o →
  ∃ o', (merge depth self other h).1 !! r = Some o'
        ∧ obj_msg o' = obj_msg o
        ∧ (∀ a, a ∈ obj_attestations o → a ∈ obj_attestations o')
        ∧ ∀ k c, dict_get k (obj_ops o) = Some c
                 → dict_get k (obj_ops o') = Some c.
Proof. apply keeping_merge. Qed.
End merge_keeps.

(** ** Serialization contexts *)

Section context_lemmas.

Lemma to_nat_byte_of_nat n : n < 256 → Byte.to_nat (byte_of_nat n) = n.
Proof.
  intros Hn. unfold byte_of_nat.
  destruct (Byte.of_nat n) as [b|] eqn:Hb.
  - by apply Byte.to_of_nat.
  - apply Byte.of_nat_None_iff in Hb. lia.
Qed.

Lemma read_bytes_app b rest : read_bytes (length b) (b ++ rest) = Ok (b, rest).
Proof.
  unfold read_bytes. rewrite decide_False by (rewrite length_app; lia).
  by rewrite take_app_length, drop_app_length.
Qed.

Lemma read_bytes_Ok n ctx b rest :
  read_bytes n ctx = Ok (b, rest) → ctx = b ++ rest ∧ length b = n.
Proof.
  unfold read_bytes. case_decide; [done|]. intros [= <- <-].
  split; [by rewrite take_drop | rewrite length_take; lia].
Qed.

Lemma read_write_varuint_groups groups :
  ∀ value acc scale rest, value < groups →
  read_varuint_from acc scale (write_varuint_groups groups value ++ rest)
  = Ok (acc + value * scale, rest).
Proof.
  induction groups as [|groups IH]; intros value acc scale rest Hlt; [lia|].
  cbn [write_varuint_groups]. case_decide as Hsmall.
  - cbn [app read_varuint_from]. cbn zeta.
    rewrite to_nat_byte_of_nat by lia.
    rewrite decide_True by done. by rewrite Nat.mod_small.
  - pose proof (Nat.mod_upper_bound value 128 ltac:(done)) as Hmod.
    change ((?b :: ?l) ++ rest) with (b :: (l ++ rest)).
    cbn [read_varuint_from]. cbn zeta.
    rewrite to_nat_byte_of_nat by lia.
    rewrite decide_False by lia.
    replace ((128 + value `mod` 128) `mod` 128) with (value `mod` 128).
    2:{ rewrite <-(Nat.Div0.add_mod_idemp_l 128), Nat.Div0.mod_same.
        by rewrite Nat.add_0_l, Nat.Div0.mod_mod. }
    pose proof (Nat.Div0.div_mod value 128) as Hdm.
    rewrite IH by lia. do 2 f_equal. nia.
Qed.

Lemma read_write_varuint value rest :
  read_varuint (write_varuint value ++ rest) = Ok (value, rest).
Proof.
  unfold read_varuint, write_varuint.
  rewrite read_write_varuint_groups by lia. do 2 f_equal. lia.
Qed.

Lemma read_write_varbytes max_len min_len value rest :
  min_len ≤ length value ≤ max_len →
  read_varbytes max_len min_len (write_varbytes value ++ rest)
  = Ok (value, rest).
Proof.
  intros Hlen. unfold read_varbytes, write_varbytes.
  rewrite <-app_assoc, read_write_varuint. simpl.
  rewrite !decide_False by lia. apply read_bytes_app.
Qed.

Lemma read_write_varbytes_bounds max_len min_len value rest :
  ¬ (min_len ≤ length value ≤ max_len) →
  read_varbytes max_len min_len (write_varbytes value ++ rest)
  = Raise DeserializationError.
Proof.
  intros Hlen. unfold read_varbytes, write_varbytes.
  rewrite <-app_assoc, read_write_varuint. simpl.
  case_decide; [done|]. rewrite decide_True by lia. done.
Qed.

Lemma read_varbytes_Ok max_len min_len ctx value rest :
  read_varbytes max_len min_len ctx = Ok (value, rest) →
  min_len ≤ length value ≤ max_len.
Proof.
  unfold read_varbytes. destruct (read_varuint ctx) as [[l ctx']|]; [|done].
  simpl. repeat case_decide; try done.
  intros [_ <-]%read_bytes_Ok. lia.
Qed.
End context_lemmas.

(** ** Detached timestamp files *)

Section detached_file.
Context {Op Att : Type} `{OpCatalogue Op} `{AttestationCatalogue Att}.
Context `{CryptOpCatalogue Op}.
Implicit Types (self d : Detached.DetachedTimestampFile Op Att).

Lemma detached_serialize_unfold self :
  Detached.serialize self
  = (Detached.HEADER_MAGIC ++ write_varbytes (Detached.file_digest self)
       ++ op_serialize (Detached.file_hash_op self) ++ (serialize (Detached.timestamp self)).1,
     (serialize (Detached.timestamp self)).2).
Proof. unfold Detached.serialize. by destruct (serialize (Detached.timestamp self)). Qed.

Lemma read_header rest :
  read_bytes (length Detached.HEADER_MAGIC) (Detached.HEADER_MAGIC ++ rest)
  = Ok (Detached.HEADER_MAGIC, rest).
Proof. apply read_bytes_app. Qed.

(** The parse of a file that begins with the header. *)
Lemma detached_deserialize_header rest :
  Detached.deserialize (Att := Att) (Detached.HEADER_MAGIC ++ rest)
  = ('(file_hash, ctx) ← Detached.lift (read_varbytes Detached.MAX_FILE_DIGEST_LENGTH
                                 Detached.MIN_FILE_DIGEST_LENGTH rest);
     '(file_hash_op, ctx) ← Detached.lift (of_option (crypt_op_deserialize ctx));
     '(timestamp, ctx) ← Detached.lift (deserialize ctx file_hash);
     mret (Detached.mkDetachedTimestampFile file_hash_op timestamp, ctx)).
Proof.
  unfold Detached.deserialize. rewrite read_header. cbn [Detached.lift mbind Detached.outcome_bind].
  rewrite decide_False; [done|]. intros Hne. by apply Hne.
Qed.

Lemma detached_deserialize_cases ctx :
  (length ctx < 32 ∧ Detached.deserialize (Att := Att) ctx
                     = Detached.Failure DeserializationError)
  ∨ (32 ≤ length ctx ∧ take 32 ctx ≠ Detached.HEADER_MAGIC
     ∧ Detached.deserialize (Att := Att) ctx
       = Detached.BadMagicError Detached.HEADER_MAGIC (take 32 ctx))
  ∨ (∃ rest, ctx = Detached.HEADER_MAGIC ++ rest).
Proof.
  destruct (decide (length ctx < 32)) as [Hlt|Hge].
  - left. split; [done|]. unfold Detached.deserialize, read_bytes.
    by rewrite decide_True.
  - right. destruct (decide (take 32 ctx = Detached.HEADER_MAGIC)) as [Heq|Hne].
    + right. exists (drop 32 ctx). by rewrite <-Heq, take_drop.
    + left. split_and!; [lia | done |].
      unfold Detached.deserialize, read_bytes. rewrite decide_False by done.
      cbn [Detached.lift mbind Detached.outcome_bind]. by rewrite decide_True.
Qed.

Lemma detached_deserialize_not_bad_magic rest expected actual :
  Detached.deserialize (Att := Att) (Detached.HEADER_MAGIC ++ rest)
  ≠ Detached.BadMagicError expected actual.
Proof.
  rewrite detached_deserialize_header.
  destruct (read_varbytes _ _ rest) as [[file_hash ctx]|]; [|done].
  cbn [Detached.lift mbind Detached.outcome_bind].
  destruct (crypt_op_deserialize ctx) as [[op ctx']|]; [|done].
  cbn [of_option Detached.lift mbind Detached.outcome_bind].
  by destruct (deserialize ctx' file_hash) as [[t ctx'']|].
Qed.

(** X20.  [DetachedTimestampFile.deserialize] raises [BadMagicError] exactly
    when the input has the 32 bytes of a header and they are not
    [HEADER_MAGIC]; the error carries [HEADER_MAGIC] and the 32 bytes
    read.  On a shorter input the context's error is raised instead, also
    when the input disagrees with the header. *)
Theorem detached_deserialize_bad_magic ctx expected actual :
  (Detached.deserialize (Att := Att) ctx = Detached.BadMagicError expected actual
   ↔ 32 ≤ length ctx ∧ expected = Detached.HEADER_MAGIC ∧ actual = take 32 ctx
     ∧ actual ≠ Detached.HEADER_MAGIC)
  ∧ (length ctx < 32
     → Detached.deserialize (Att := Att) ctx = Detached.Failure DeserializationError).
Proof.
  destruct (detached_deserialize_cases ctx)
    as [[Hlt Hd]|[(Hge & Hne & Hd)|[rest ->]]].
  - rewrite Hd. split; [|done]. split; [done | lia].
  - rewrite Hd. split; [|lia]. split.
    + by intros [= <- <-].
    + by intros (_ & -> & -> & _).
  - split.
    + split.
      * by intros ?%detached_deserialize_not_bad_magic.
      * intros (_ & _ & -> & Hne). by rewrite take_app_length' in Hne.
    + rewrite length_app. simpl. lia.
Qed.

(** X21.  [serialize] does not check the length of the digest that
    [deserialize] bounds: a file whose digest is shorter than 20 bytes or
    longer than 32 is written without an error, and reading what was
    written raises, whatever the operation and the timestamp are. *)
Theorem detached_serialize_unchecked_digest self rest :
  nonempty_ok (Detached.timestamp self) = true →
  ¬ (20 ≤ length (Detached.file_digest self) ≤ 32) →
  ∃ b, Detached.serialize self = (b, Ok ())
       ∧ Detached.deserialize (Att := Att) (b ++ rest)
         = Detached.Failure DeserializationError.
Proof.
  intros Hn Hlen. eexists. split.
  - rewrite detached_serialize_unfold. f_equal. by apply serialize_returns.
  - rewrite <-!app_assoc, detached_deserialize_header.
    by rewrite read_write_varbytes_bounds.
Qed.

(** X23.  The file that [from_fd] returns cannot be written as it is: its
    timestamp is empty, and [serialize] raises [ValueError] after the
    header, the digest and the operation have been written. *)
Theorem from_fd_serialize file_hash_op fd :
  Detached.serialize (Att := Att) (Detached.from_fd file_hash_op fd)
  = (Detached.HEADER_MAGIC ++ write_varbytes (op_call file_hash_op fd)
       ++ op_serialize file_hash_op,
     Raise ValueError).
Proof.
  rewrite detached_serialize_unfold. by rewrite !app_nil_r.
Qed.

Section detached_codec.
Context `{!OpCodec} `{!AttCodec} `{!CryptOpCodec}.

(** X19.  Decoding is the inverse of encoding for detached files: when the
    operation is a crypto operation, the digest has 20 to 32 bytes and the
    timestamp can be written, [deserialize] on the bytes that [serialize]
    wrote returns the operation and the timestamp, in sorted order, and
    leaves the bytes that follow unread. *)
Theorem detached_deserialize_serialize self rest :
  is_crypt_op (Detached.file_hash_op self) = true →
  20 ≤ length (Detached.file_digest self) ≤ 32 →
  well_formed (Detached.timestamp self) = true →
  nonempty_ok (Detached.timestamp self) = true →
  ∃ b, Detached.serialize self = (b, Ok ())
       ∧ Detached.deserialize (b ++ rest)
         = Detached.Return (Detached.mkDetachedTimestampFile (Detached.file_hash_op self)
                     (normalize (Detached.timestamp self)), rest)
       ∧ equals (normalize (Detached.timestamp self)) (Detached.timestamp self) = true.
Proof.
  intros Hcrypt Hlen Hwf Hn. eexists. split_and!.
  - rewrite detached_serialize_unfold. f_equal. by apply serialize_returns.
  - rewrite <-!app_assoc, detached_deserialize_header.
    rewrite read_write_varbytes by done. cbn [Detached.lift mbind Detached.outcome_bind].
    rewrite crypt_op_codec by done. cbn [of_option Detached.lift mbind Detached.outcome_bind].
    unfold Detached.file_digest. by rewrite deserialize_serialize_rest.
  - apply equals_normalize. by apply andb_true_iff in Hwf as [? _].
Qed.

(** X22.  Whatever the input, a file that [deserialize] returns was read
    after the header, has a digest of 20 to 32 bytes, which is the message
    of its timestamp, and a crypto operation, and can be written again. *)
Theorem detached_deserialize_returns ctx d rest :
  Detached.deserialize ctx = Detached.Return (d, rest) →
  (∃ body, ctx = Detached.HEADER_MAGIC ++ body)
  ∧ 20 ≤ length (Detached.file_digest d) ≤ 32
  ∧ is_crypt_op (Detached.file_hash_op d) = true
  ∧ well_formed (Detached.timestamp d) = true
  ∧ (Detached.serialize d).2 = Ok ().
Proof.
  destruct (detached_deserialize_cases ctx)
    as [[_ Hd]|[(_ & _ & Hd)|[body ->]]]; [by rewrite Hd..|].
  rewrite detached_deserialize_header.
  destruct (read_varbytes _ _ body) as [[file_hash ctx]|] eqn:Hhash; [|done].
  cbn [Detached.lift mbind Detached.outcome_bind].
  destruct (crypt_op_deserialize ctx) as [[op ctx']|] eqn:Hop; [|done].
  cbn [of_option Detached.lift mbind Detached.outcome_bind].
  destruct (deserialize ctx' file_hash) as [[t ctx'']|] eqn:Ht; [|done].
  cbn [Detached.lift mbind Detached.outcome_bind]. intros [= <- <-].
  apply deserialize_depth_building in Ht as (Hm & Hwf & Hn).
  apply read_varbytes_Ok in Hhash.
  unfold Detached.MAX_FILE_DIGEST_LENGTH, Detached.MIN_FILE_DIGEST_LENGTH
    in Hhash.
  split_and!;
    [by eexists | unfold Detached.file_digest; simpl; rewrite Hm; lia ..| | |].
  - by eapply crypt_op_deserialize_crypt.
  - done.
  - rewrite detached_serialize_unfold. simpl. by apply serialize_returns.
Qed.
End detached_codec.
End detached_file.

(** ** Timestamps as trees of objects *)

Section footprints.
Context {Op Att : Type} `{OpCatalogue Op} `{AttestationCatalogue Att}.
Import Store.
Implicit Types (h : store Op Att) (t : Timestamp Op Att) (r : ref).
Implicit Types (o : list (Op * Timestamp Op Att)) (l : list (Op * ref)).
Implicit Types (F : list ref).

Lemma levels_unfold m a o :
  levels (mkTimestamp m a o)
  = S (max_list ((λ item : Op * Timestamp Op Att, levels item.2) <$> o)).
Proof. done. Qed.

Lemma levels_pos t : 0 < levels t.
Proof. destruct t. rewrite levels_unfold. lia. Qed.

Lemma levels_child t i op c :
  ops t !! i = Some (op, c) → levels c < levels t.
Proof.
  destruct t as [m a o]. rewrite levels_unfold. cbn [ops]. intros Hi.
  assert (levels c ∈ (λ item : Op * Timestamp Op Att, levels item.2) <$> o)
    as Hin.
  { apply list_elem_of_fmap. exists (op, c). split; [done|].
    by eapply list_elem_of_lookup_2. }
  apply max_list_elem_of_le in Hin. lia.
Qed.

Lemma footprint_Some h t r F :
  footprint h t r = Some F
  ↔ ∃ l Fc, h !! r = Some (mkObject (msg t) (attestations t) l)
            ∧ footprint_items (footprint h) (ops t) l = Some Fc
            ∧ F = r :: Fc.
Proof.
  destruct t as [m a o]. cbn [footprint msg attestations ops]. split.
  - destruct (h !! r) as [[m' a' l]|]; [|done]. simpl.
    case_decide as Heq; [|done]. destruct Heq as [-> ->].
    destruct (footprint_items _ o l) as [Fc|] eqn:Hc; [|done].
    intros [= <-]. by exists l, Fc.
  - intros (l & Fc & -> & Hc & ->). simpl.
    rewrite decide_True by done.
    change (λ child, footprint h child) with (footprint h).
    by rewrite Hc.
Qed.

Lemma footprint_items_cons f op t o op' r l F :
  footprint_items f ((op, t) :: o) ((op', r) :: l) = Some F
  ↔ op = op' ∧ ∃ F1 F2, f t r = Some F1 ∧ footprint_items f o l = Some F2
                        ∧ F = F1 ++ F2.
Proof.
  cbn [footprint_items]. split.
  - case_decide; [|done]. destruct (f t r) as [F1|]; [|done]. simpl.
    destruct (footprint_items f o l) as [F2|]; [|done]. simpl.
    intros [= <-]. split; [done|]. by exists F1, F2.
  - intros (-> & F1 & F2 & -> & -> & ->). by rewrite decide_True.
Qed.

Lemma footprint_items_length f o l F :
  footprint_items f o l = Some F → length l = length o.
Proof.
  revert l F. induction o as [|[op t] o IH]; intros [|[op' r] l] F; try done.
  intros (_ & F1 & F2 & _ & Hrest & _)%footprint_items_cons.
  simpl. f_equal. by eapply IH.
Qed.

(** The entry at a position of the op set and the child at the same
    position of the tree. *)
Lemma footprint_items_lookup f o l F i op r :
  footprint_items f o l = Some F → l !! i = Some (op, r) →
  ∃ t Fi, o !! i = Some (op, t) ∧ f t r = Some Fi ∧ ∀ x, x ∈ Fi → x ∈ F.
Proof.
  revert l F i. induction o as [|[op0 t0] o IH]; intros [|[op' r'] l] F i;
    try done.
  intros (-> & F1 & F2 & Hf & Hrest & ->)%footprint_items_cons.
  destruct i as [|i]; simpl.
  - intros [= -> ->]. exists t0, F1. split_and!; [done..|].
    intros x Hx. apply elem_of_app. by left.
  - intros Hi. destruct (IH _ _ _ Hrest Hi) as (t & Fi & ? & ? & Hsub).
    exists t, Fi. split_and!; [done..|].
    intros x Hx. apply elem_of_app. right. by apply Hsub.
Qed.

(** A footprint is read from the objects it lists. *)
Lemma footprint_items_ext f f' o l F :
  footprint_items f o l = Some F →
  Forall (λ item, ∀ r Fi, f item.2 r = Some Fi → (∀ x, x ∈ Fi → x ∈ F)
                          → f' item.2 r = Some Fi) o →
  footprint_items f' o l = Some F.
Proof.
  revert l F. induction o as [|[op t] o IH]; intros [|[op' r] l] F; try done.
  intros (-> & F1 & F2 & Hf & Hrest & ->)%footprint_items_cons.
  intros [Ht Ho]%Forall_cons. apply footprint_items_cons. split; [done|].
  exists F1, F2. split_and!; [| |done].
  - apply Ht; [done|]. intros x Hx. apply elem_of_app. by left.
  - apply IH; [done|]. eapply Forall_impl; [exact Ho|].
    intros item Hitem r' Fi Hfi Hsub. apply Hitem; [done|].
    intros x Hx. apply elem_of_app. right. by apply Hsub.
Qed.

Lemma footprint_frame h h' t :
  ∀ r F, footprint h t r = Some F → (∀ x, x ∈ F → h' !! x = h !! x) →
  footprint h' t r = Some F.
Proof.
  induction t as [m a o IH] using Timestamp_children_ind.
  intros r F (l & Fc & Hr & Hc & ->)%footprint_Some Hsame.
  apply footprint_Some. exists l, Fc. split_and!; [| |done].
  - rewrite Hsame; [done|]. by left.
  - cbn [ops] in *. eapply footprint_items_ext; [exact Hc|].
    eapply Forall_impl; [exact IH|]. intros item Hitem r' Fi Hfi Hsub.
    apply Hitem; [done|]. intros x Hx. apply Hsame. right. by apply Hsub.
Qed.

Lemma footprint_items_bound h o l F :
  Forall (λ item, ∀ r Fi, footprint h item.2 r = Some Fi
                          → ∀ x, x ∈ Fi → x < length h) o →
  footprint_items (footprint h) o l = Some F → ∀ x, x ∈ F → x < length h.
Proof.
  revert l F. induction o as [|[op t] o IH]; intros [|[op' r] l] F; try done.
  - intros _ [= <-] x Hx. by apply elem_of_nil in Hx.
  - intros [Ht Ho]%Forall_cons.
    intros (-> & F1 & F2 & Hf & Hrest & ->)%footprint_items_cons x.
    rewrite elem_of_app. intros [Hx|Hx]; [by eapply Ht | by eapply IH].
Qed.

Lemma footprint_bound h t :
  ∀ r F, footprint h t r = Some F → ∀ x, x ∈ F → x < length h.
Proof.
  induction t as [m a o IH] using Timestamp_children_ind.
  intros r F (l & Fc & Hr & Hc & ->)%footprint_Some x.
  rewrite elem_of_cons. intros [->|Hx].
  - by eapply lookup_lt_Some.
  - cbn [ops] in Hc. by eapply footprint_items_bound.
Qed.

(** The child under a key of the tree is the entry under the key of the
    op set, and it can be replaced. *)
Lemma footprint_items_get h o l Fc op t :
  footprint_items (footprint h) o l = Some Fc → dict_get op o = Some t →
  ∃ r F1 Fpre Fpost,
    dict_get op l = Some r ∧ footprint h t r = Some F1
    ∧ Fc = Fpre ++ F1 ++ Fpost
    ∧ ∀ h' t' F1', footprint h' t' r = Some F1' →
        (∀ x, x ∈ Fpre ++ Fpost → h' !! x = h !! x) →
        footprint_items (footprint h') (dict_set op t' o) l
        = Some (Fpre ++ F1' ++ Fpost).
Proof.
  revert l Fc. induction o as [|[op0 t0] o IH]; intros [|[op' r'] l] Fc;
    try done.
  intros (-> & F1 & F2 & Hf & Hrest & ->)%footprint_items_cons.
  cbn [dict_get dict_set]. case_decide as Hop.
  - subst op'. intros [= ->]. exists r', F1, [], F2.
    split_and!; [done..|]. intros h' t' F1' Ht' Hsame.
    apply footprint_items_cons. split; [done|]. exists F1', F2.
    split_and!; [done| |done].
    eapply footprint_items_ext; [exact Hrest|]. apply Forall_forall.
    intros item _ r Fi Hfi Hsub. eapply footprint_frame; [exact Hfi|].
    intros x Hx. apply Hsame. simpl. by apply Hsub.
  - intros Hget.
    destruct (IH _ _ Hrest Hget) as (r & Fi & Fpre & Fpost & ? & ? & -> & Hset).
    exists r, Fi, (F1 ++ Fpre), Fpost. split_and!; [done..| |].
    { by rewrite <-!app_assoc. }
    intros h' t' F1' Ht' Hsame. apply footprint_items_cons. split; [done|].
    exists F1, (Fpre ++ F1' ++ Fpost). split_and!.
    + eapply footprint_frame; [exact Hf|]. intros x Hx. apply Hsame.
      rewrite <-app_assoc. apply elem_of_app. by left.
    + apply Hset; [done|]. intros x Hx. apply Hsame.
      rewrite <-app_assoc. apply elem_of_app. by right.
    + by rewrite <-!app_assoc.
Qed.

(** A key that the tree does not have is not in the op set, and a child
    can be added under it. *)
Lemma footprint_items_fresh h o l Fc op :
  footprint_items (footprint h) o l = Some Fc → dict_get op o = None →
  dict_get op l = None
  ∧ ∀ h' t' r' F1', footprint h' t' r' = Some F1' →
      (∀ x, x ∈ Fc → h' !! x = h !! x) →
      footprint_items (footprint h') (dict_set op t' o) (l ++ [(op, r')])
      = Some (Fc ++ F1').
Proof.
  revert l Fc. induction o as [|[op0 t0] o IH]; intros [|[op' r0] l] Fc;
    try done.
  - intros [= <-] _. split; [done|]. intros h' t' r' F1' Ht' _. simpl.
    rewrite decide_True by done. rewrite Ht'. simpl. by rewrite app_nil_r.
  - intros (-> & F1 & F2 & Hf & Hrest & ->)%footprint_items_cons.
    cbn [dict_get dict_set]. case_decide as Hop; [done|]. intros Hget.
    destruct (IH _ _ Hrest Hget) as [Hl Hset]. split; [done|].
    intros h' t' r' F1' Ht' Hsame. rewrite <-app_comm_cons.
    apply footprint_items_cons. split; [done|].
    exists F1, (F2 ++ F1'). split_and!.
    + eapply footprint_frame; [exact Hf|]. intros x Hx. apply Hsame.
      apply elem_of_app. by left.
    + apply Hset; [done|]. intros x Hx. apply Hsame.
      apply elem_of_app. by right.
    + by rewrite app_assoc.
Qed.
End footprints.

(** ** Merging separate trees in place *)

Section separate_merge.
Context {Op Att : Type} `{OpCatalogue Op} `{AttestationCatalogue Att}.
#[local] Abbreviation merge_trees := (merge_timestamp (Op := Op) (Att := Att)).
#[local] Abbreviation merge_tree_items := (merge_items (Op := Op) (Att := Att)).
#[local] Abbreviation leaf_for := (new (Op := Op) (Att := Att)).
Import Store.
Implicit Types (h : store Op Att) (t ts : Timestamp Op Att) (r a b : ref).
Implicit Types (F : list ref).

Lemma NoDup_replace (pre mid mid' post : list nat) n :
  NoDup (pre ++ mid ++ post) → NoDup mid' →
  (∀ x, x ∈ mid' → x ∈ mid ∨ n ≤ x) →
  (∀ x, x ∈ pre ++ post → x < n) →
  NoDup (pre ++ mid' ++ post).
Proof.
  rewrite !NoDup_app. intros (Hpre & Hd1 & Hmid & Hd2 & Hpost) Hmid' Hin Hlt.
  split_and!; try done.
  - intros x Hx. rewrite elem_of_app. intros [Hm|Hp].
    + destruct (Hin _ Hm) as [?|?].
      * apply (Hd1 x Hx). apply elem_of_app. by left.
      * assert (x < n) by (apply Hlt, elem_of_app; by left). lia.
    + apply (Hd1 x Hx). apply elem_of_app. by right.
  - intros x Hx Hp. destruct (Hin _ Hx) as [?|?]; [by apply (Hd2 x)|].
    assert (x < n) by (apply Hlt, elem_of_app; by right). lia.
Qed.

Lemma turns_into_after run h h1 a F F1 t' res :
  length h ≤ length h1 →
  (∀ x, x ∈ F1 → x ∈ F ∨ length h ≤ x) →
  (∀ x, x < length h → x ∉ F → h1 !! x = h !! x) →
  turns_into run h1 a F1 t' res → turns_into run h a F t' res.
Proof.
  intros Hlen Hin Hframe (h' & F' & Hrun & Hf & Hnd & Hin' & Hframe' & Hlen').
  exists h', F'. split_and!; [done..| | |lia].
  - intros x Hx. destruct (Hin' _ Hx) as [?|?]; [auto|right; lia].
  - intros x Hx HF. rewrite Hframe'; [by apply Hframe | lia |].
    intros Hx1. destruct (Hin _ Hx1) as [?|?]; [done | lia].
Qed.

(** [self.ops.add(op)] on a timestamp that shares no object: the value is
    the child under [op], or a new leaf, and the child can be replaced by
    what a merge makes of it. *)
Lemma add_separate h ts a F op :
  footprint h ts a = Some F → NoDup F →
  ∃ h1 ca F1 pre post,
    add a op h = (h1, Ok ca)
    ∧ footprint h1
        (default (leaf_for (op_call op (msg ts))) (dict_get op (ops ts))) ca
      = Some F1
    ∧ NoDup (pre ++ F1 ++ post)
    ∧ (∀ x, x ∈ pre ++ post → x ∈ F)
    ∧ (∀ x, x ∈ F1 → x ∈ F ∨ length h ≤ x)
    ∧ (∀ x, x < length h → x ∉ F → h1 !! x = h !! x)
    ∧ length h ≤ length h1
    ∧ (∀ x, x ∈ pre ++ post → x < length h)
    ∧ ∀ h' t' F1', footprint h' t' ca = Some F1' →
        (∀ x, x ∈ pre ++ post → h' !! x = h1 !! x) →
        footprint h'
          (mkTimestamp (msg ts) (attestations ts) (dict_set op t' (ops ts))) a
        = Some (pre ++ F1' ++ post).
Proof.
  intros Hfa Hnd. pose proof (footprint_bound _ _ _ _ Hfa) as Hbound.
  apply footprint_Some in Hfa as (la & Fc & Ha & Hc & ->).
  destruct (dict_get op (ops ts)) as [cat|] eqn:Hget; cbn [default].
  - destruct (footprint_items_get _ _ _ _ _ _ Hc Hget)
      as (ca & F1 & Fpre & Fpost & Hca & Hf1 & -> & Hset).
    exists h, ca, F1, (a :: Fpre), Fpost. split_and!; try done.
    + apply add_existing. unfold child_of. by rewrite Ha.
    + intros x. rewrite <-app_comm_cons, !elem_of_cons, !elem_of_app.
      naive_solver.
    + intros x Hx. left. rewrite elem_of_cons, !elem_of_app. naive_solver.
    + intros x Hx. apply Hbound. revert Hx.
      rewrite <-app_comm_cons, !elem_of_cons, !elem_of_app. naive_solver.
    + intros h' t' F1' Ht' Hsame. apply footprint_Some.
      exists la, (Fpre ++ F1' ++ Fpost). split_and!; [| |done].
      * rewrite Hsame; [done|]. by left.
      * cbn [ops]. apply Hset; [done|]. intros x Hx. apply Hsame.
        rewrite <-app_comm_cons. by right.
  - destruct (footprint_items_fresh _ _ _ _ _ Hc Hget) as [Hla Hset].
    assert (a < length h) as Halt by (by eapply lookup_lt_Some).
    assert (a ∉ Fc) as HaFc by (by apply NoDup_cons in Hnd as [? _]).
    eexists _, (length h), [length h], (a :: Fc), [].
    split_and!.
    + by apply add_missing.
    + apply footprint_Some. eexists [], []. split_and!; [|done..].
      rewrite list_lookup_insert_ne by lia. by apply list_lookup_middle.
    + rewrite app_nil_r. apply NoDup_app. split_and!; [done| |].
      * intros x Hx [->|[]%elem_of_nil]%elem_of_cons.
        specialize (Hbound _ Hx). lia.
      * apply NoDup_singleton.
    + intros x. by rewrite app_nil_r.
    + intros x [->|[]%elem_of_nil]%elem_of_cons. by right.
    + intros x Hx HF. rewrite list_lookup_insert_ne.
      * by apply lookup_app_l.
      * intros <-. apply HF. by left.
    + rewrite length_insert, length_app. lia.
    + intros x. rewrite app_nil_r. apply Hbound.
    + intros h' t' F1' Ht' Hsame. rewrite app_nil_r in *.
      apply footprint_Some.
      exists (la ++ [(op, length h)]), (Fc ++ F1'). split_and!; [| |done].
      * rewrite Hsame by (by left).
        rewrite list_lookup_insert_eq; [done|]. rewrite length_app. lia.
      * cbn [ops]. apply Hset; [done|]. intros x Hx.
        rewrite Hsame by (by right).
        assert (x < length h) by (apply Hbound; by right).
        rewrite list_lookup_insert_ne by (by intros <-).
        by apply lookup_app_l.
Qed.

(** The loop of [merge] over the children of [other], when [self] shares
    no object, with [other] or within itself. *)
Lemma merge_items_separate d (mb : bytes) (ab : list Att) ob lb b FBc h0 :
  h0 !! b = Some (mkObject mb ab lb) →
  footprint_items (footprint h0) ob lb = Some FBc →
  (∀ x, x ∈ b :: FBc → x < length h0) →
  Forall (λ item, ∀ ta h a' b' FA FB',
            footprint h ta a' = Some FA → footprint h item.2 b' = Some FB' →
            NoDup FA → (∀ x, x ∈ FA → x ∉ FB') →
            turns_into (merge_timestamp d a' b' h) h a' FA
              (merge_trees ta item.2).1 (merge_trees ta item.2).2) ob →
  ∀ todo ts h a F,
    todo ≤ length lb →
    (∀ x, x ∈ b :: FBc → h !! x = h0 !! x) → length h0 ≤ length h →
    footprint h ts a = Some F → NoDup F → (∀ x, x ∈ F → x ∉ b :: FBc) →
    turns_into (merge_items (merge_timestamp d) a b (length lb) todo h) h a F
      (merge_tree_items merge_trees (drop (length lb - todo) ob) ts).1
      (merge_tree_items merge_trees (drop (length lb - todo) ob) ts).2.
Proof.
  intros Hb0 HFB HFBlt Hsim.
  pose proof (footprint_items_length _ _ _ _ HFB) as Hlen_ob.
  induction todo as [|todo IH]; intros ts h a F Htodo Hsame Hlen Hfa Hnd Hdisj.
  all: assert (h !! b = Some (mkObject mb ab lb)) as Hb
         by (rewrite Hsame; [done | by left]).
  all: cbn [merge_items]; rewrite state_bind_unfold; unfold get at 1;
       rewrite Hb; cbn [obj_ops];
       rewrite decide_False by (intros Hne; by apply Hne).
  - rewrite Nat.sub_0_r, drop_ge by lia. exists h, F.
    split_and!; [done..| by left | done | done].
  - destruct (lookup_lt_is_Some_2 lb (length lb - S todo)) as [[op cb] Hi];
      [lia|].
    rewrite Hi.
    destruct (footprint_items_lookup _ _ _ _ _ _ _ HFB Hi)
      as (cbt & Fcb & Hobi & Hfcb & Hsub).
    replace (length lb - todo) with (S (length lb - S todo)) in IH by lia.
    rewrite (drop_S _ _ _ Hobi), merge_items_cons. cbn zeta.
    destruct (add_separate h ts a F op Hfa Hnd)
      as (h1 & ca & F1 & pre & post & Hadd & Hf1 & Hnd1 & Hpp & HF1 & Hframe1
          & Hlen1 & Hpplt & Hset).
    rewrite state_bind_unfold, Hadd.
    set (our := default (leaf_for (op_call op (msg ts))) (dict_get op (ops ts)))
      in *.
    assert (∀ x, x ∈ b :: FBc → h1 !! x = h0 !! x) as Hsame1.
    { intros x Hx. rewrite <-(Hsame _ Hx). apply Hframe1.
      - specialize (HFBlt _ Hx). lia.
      - intros HxF. by apply (Hdisj _ HxF). }
    assert (∀ x, x ∈ F1 → x ∉ b :: FBc) as Hdisj1.
    { intros x Hx1 Hx. destruct (HF1 _ Hx1) as [HxF|Hge].
      - by apply (Hdisj _ HxF).
      - specialize (HFBlt _ Hx). lia. }
    rewrite Forall_forall in Hsim.
    destruct (Hsim _ (list_elem_of_lookup_2 _ _ _ Hobi) our h1 ca cb F1 Fcb)
      as (h2 & F1' & Hrun & Hf2 & Hnd2 & Hin2 & Hframe2 & Hlen2).
    { done. }
    { eapply footprint_frame; [exact Hfcb|]. intros x Hx. apply Hsame1.
      right. by apply Hsub. }
    { apply NoDup_app in Hnd1 as (_ & _ & Hnd1).
      by apply NoDup_app in Hnd1 as (? & _ & _). }
    { intros x Hx1 Hx. apply (Hdisj1 _ Hx1). right. by apply Hsub. }
    cbn [snd] in Hrun. rewrite state_bind_unfold, Hrun.
    set (child' := (merge_trees our cbt).1) in *.
    set (ts' := mkTimestamp (msg ts) (attestations ts)
                  (dict_set op child' (ops ts))).
    assert (∀ x, x ∈ pre ++ post → x ∉ F1) as Hpp1.
    { intros x Hx Hx1. apply NoDup_app in Hnd1 as (_ & Hd1 & Hnd1).
      apply NoDup_app in Hnd1 as (_ & Hd2 & _).
      apply elem_of_app in Hx as [Hx|Hx].
      - apply (Hd1 _ Hx). apply elem_of_app. by left.
      - by apply (Hd2 _ Hx1). }
    assert (footprint h2 ts' a = Some (pre ++ F1' ++ post)) as Hf'.
    { apply Hset; [done|]. intros x Hx. apply Hframe2; [|by apply Hpp1].
      specialize (Hpplt _ Hx). lia. }
    assert (NoDup (pre ++ F1' ++ post)) as Hnd'.
    { apply (NoDup_replace pre F1 F1' post (length h1)); [done..| |].
      - intros x Hx. destruct (Hin2 _ Hx); [by left | by right].
      - intros x Hx. specialize (Hpplt _ Hx). lia. }
    assert (∀ x, x ∈ pre ++ F1' ++ post → x ∈ F ∨ length h ≤ x) as Hin'.
    { intros x. rewrite !elem_of_app. intros [Hx|[Hx|Hx]].
      - left. apply Hpp. apply elem_of_app. by left.
      - destruct (Hin2 _ Hx) as [Hx1|?]; [by apply HF1 | right; lia].
      - left. apply Hpp. apply elem_of_app. by right. }
    assert (∀ x, x < length h → x ∉ F → h2 !! x = h !! x) as Hframe'.
    { intros x Hx HxF. rewrite Hframe2; [by apply Hframe1 | lia |].
      intros Hx1. destruct (HF1 _ Hx1); [done | lia]. }
    apply (turns_into_after _ h h2 a F (pre ++ F1' ++ post));
      [lia | done | done |].
    destruct (merge_trees our cbt).2 as [[]|e] eqn:Hres.
    + apply IH; [lia| | lia | done | done |].
      * intros x Hx. rewrite <-(Hsame1 _ Hx). apply Hframe2.
        -- specialize (HFBlt _ Hx). lia.
        -- intros Hx1. by apply (Hdisj1 _ Hx1).
      * intros x Hx' Hx. destruct (Hin' _ Hx') as [HxF|Hge].
        -- by apply (Hdisj _ HxF).
        -- specialize (HFBlt _ Hx). lia.
    + exists h2, (pre ++ F1' ++ post).
      split_and!; [done..| by left | done | done].
Qed.

(** [self.merge(other)] in place does what the merge of the trees does,
    also when it raises, if [self] shares no object, with [other] or
    within itself: the timestamp at [self] becomes the merged tree, on its
    own objects and on new ones, and no other object changes. *)
Lemma merge_timestamp_separate tb :
  ∀ depth ta h a b FA FB,
    levels tb ≤ depth →
    footprint h ta a = Some FA → footprint h tb b = Some FB →
    NoDup FA → (∀ x, x ∈ FA → x ∉ FB) →
    turns_into (merge_timestamp depth a b h) h a FA
      (merge_trees ta tb).1 (merge_trees ta tb).2.
Proof.
  induction tb as [mb ab ob IH] using Timestamp_children_ind.
  intros depth ta h a b FA FB Hlev Hfa Hfb Hnd Hdisj.
  rewrite levels_unfold in Hlev.
  destruct depth as [|d]; [lia|].
  pose proof (footprint_bound _ _ _ _ Hfb) as HFBlt.
  pose proof Hfa as (la & FAc & Ha & Hac & ->)%footprint_Some.
  pose proof Hfb as (lb & FBc & Hb & Hbc & ->)%footprint_Some.
  cbn [msg attestations ops] in Hb, Hbc.
  assert (a ≠ b) as Hab.
  { intros ->. apply (Hdisj b); by left. }
  cbn [merge_timestamp]. rewrite state_bind_unfold. unfold get at 1.
  rewrite Ha. rewrite state_bind_unfold. unfold get at 1. rewrite Hb.
  cbn [obj_msg obj_attestations obj_ops].
  rewrite merge_timestamp_unfold. cbn [msg attestations ops].
  destruct (decide (msg ta ≠ mb)) as [Hne|Heq].
  { exists h, (a :: FAc). split_and!; [done..| by left | done | done]. }
  rewrite state_bind_unfold. unfold put. cbn [fst snd].
  set (s1 := mkObject (msg ta) (set_update (attestations ta) ab) la).
  set (h1 := <[a := s1]> h).
  set (ts := mkTimestamp (msg ta) (set_update (attestations ta) ab) (ops ta)).
  assert (a < length h) as Halt by (by eapply lookup_lt_Some).
  assert (∀ x, x ≠ a → h1 !! x = h !! x) as Hh1.
  { intros x Hx. unfold h1. by rewrite list_lookup_insert_ne. }
  assert (h1 !! b = Some (mkObject mb ab lb)) as Hb1.
  { rewrite Hh1; [done | by intros ->]. }
  rewrite state_bind_unfold. unfold get at 1. rewrite Hb1. cbn [obj_ops].
  assert (footprint h1 ts a = Some (a :: FAc)) as Hf1.
  { apply footprint_Some. exists la, FAc. split_and!; [| |done].
    - unfold h1. by rewrite list_lookup_insert_eq.
    - cbn [ops]. eapply footprint_items_ext; [exact Hac|].
      apply Forall_forall. intros item _ r Fi Hfi Hsub.
      eapply footprint_frame; [exact Hfi|]. intros x Hx. apply Hh1.
      intros ->. apply NoDup_cons in Hnd as [Hna _]. by apply Hna, Hsub. }
  assert (length h1 = length h) as Hlen1 by apply length_insert.
  apply (turns_into_after _ h h1 a (a :: FAc) (a :: FAc)).
  { lia. }
  { intros x Hx. by left. }
  { intros x _ Hx. apply Hh1. intros ->. apply Hx. by left. }
  pose proof (merge_items_separate d mb ab ob lb b FBc h1) as Hloop.
  specialize (Hloop Hb1).
  assert (footprint_items (footprint h1) ob lb = Some FBc) as Hbc1.
  { eapply footprint_items_ext; [exact Hbc|].
    apply Forall_forall. intros item _ r Fi Hfi Hsub.
    eapply footprint_frame; [exact Hfi|]. intros x Hx. apply Hh1.
    intros ->. apply (Hdisj a); [by left|]. right. by apply Hsub. }
  specialize (Hloop Hbc1).
  assert (∀ x, x ∈ b :: FBc → x < length h1) as HFBlt1.
  { intros x Hx. rewrite Hlen1. by apply HFBlt. }
  specialize (Hloop HFBlt1).
  assert (Forall (λ item, ∀ ta h a' b' FA FB',
            footprint h ta a' = Some FA → footprint h item.2 b' = Some FB' →
            NoDup FA → (∀ x, x ∈ FA → x ∉ FB') →
            turns_into (merge_timestamp d a' b' h) h a' FA
              (merge_trees ta item.2).1 (merge_trees ta item.2).2) ob)
    as Hsim.
  { rewrite Forall_forall in IH |- *. intros item Hitem ta' h' a' b' FA' FB'.
    apply (IH _ Hitem).
    assert (levels item.2
            ∈ (λ item : Op * Timestamp Op Att, levels item.2) <$> ob) as Hin.
    { apply list_elem_of_fmap. by exists item. }
    apply max_list_elem_of_le in Hin. lia. }
  specialize (Hloop Hsim (length lb) ts h1 a (a :: FAc)).
  rewrite Nat.sub_diag, drop_0 in Hloop.
  apply Hloop; [lia | done | lia | done | done |].
  intros x Hx. by apply Hdisj.
Qed.
End separate_merge.

Section merge_levels.
Context {Op Att : Type} `{OpCatalogue Op} `{AttestationCatalogue Att}.
Implicit Types (t ts : Timestamp Op Att).
Implicit Types (o items : list (Op * Timestamp Op Att)).

Lemma levels_le t n :
  levels t ≤ S n ↔ Forall (λ item, levels item.2 ≤ n) (ops t).
Proof.
  destruct t as [m a o]. rewrite levels_unfold. cbn [ops].
  induction o as [|[op c] o IH].
  - simpl. split; [by constructor | lia].
  - rewrite Forall_cons, <-IH. simpl. unfold fmap. lia.
Qed.

Lemma Forall_dict_set {K V} `{EqDecision K} (P : K * V → Prop) k v
    (d : list (K * V)) :
  P (k, v) → Forall P d → Forall P (dict_set k v d).
Proof.
  intros Hkv. induction 1 as [|[k' v'] d Hx Hd IH]; cbn [dict_set].
  - by repeat constructor.
  - case_decide; by constructor.
Qed.

Lemma levels_merge_items items :
  Forall (λ item, ∀ ta, levels (merge_timestamp ta item.2).1
                         ≤ levels ta `max` levels item.2) items →
  ∀ ts n, levels ts ≤ S n → Forall (λ item, levels item.2 ≤ n) items →
  levels (merge_items merge_timestamp items ts).1 ≤ S n.
Proof.
  induction items as [|[op c] items IH]; intros Hitems ts n Hts Hn; [done|].
  apply Forall_cons in Hitems as [Hc Hitems].
  apply Forall_cons in Hn as [Hcn Hn]. cbn [fst snd] in Hc, Hcn.
  rewrite merge_items_cons. cbn zeta.
  set (our := default (new (op_call op (msg ts))) (dict_get op (ops ts))).
  assert (levels our ≤ n) as Hour.
  { unfold our. destruct (dict_get op (ops ts)) as [c0|] eqn:Hget.
    - apply levels_le in Hts. rewrite Forall_forall in Hts.
      by apply (Hts (op, c0)), dict_get_Some.
    - pose proof (levels_pos c). cbn [default new levels fmap list_fmap
        max_list]. lia. }
  set (ts' := mkTimestamp (msg ts) (attestations ts)
                (dict_set op (merge_timestamp our c).1 (ops ts))).
  assert (levels ts' ≤ S n) as Hts'.
  { apply levels_le. cbn [ops]. apply Forall_dict_set.
    - cbn [snd]. specialize (Hc our). lia.
    - by apply levels_le. }
  destruct (merge_timestamp our c).2; [by apply IH | done].
Qed.

(** Merging adds no level below the deeper of the two trees. *)
Lemma levels_merge_timestamp tb :
  ∀ ta, levels (merge_timestamp ta tb).1 ≤ levels ta `max` levels tb.
Proof.
  induction tb as [mb ab ob IH] using Timestamp_children_ind. intros ta.
  rewrite merge_timestamp_unfold. case_decide; [simpl; lia|].
  cbn [msg attestations ops].
  pose proof (levels_pos ta) as Hta.
  destruct (levels ta `max` levels (mkTimestamp mb ab ob)) as [|n] eqn:Hn;
    [lia|].
  apply levels_merge_items; [done| |].
  - assert (levels (mkTimestamp (msg ta) (set_update (attestations ta) ab)
                      (ops ta)) = levels ta) as -> by (by destruct ta).
    lia.
  - apply (levels_le (mkTimestamp mb ab ob)). lia.
Qed.
End merge_levels.

(** * The claims on merging in place *)

Section merge_in_place.
Context {Op Att : Type} `{OpCatalogue Op} `{AttestationCatalogue Att}.
#[local] Abbreviation tree_merge := (merge_timestamp (Op := Op) (Att := Att)).
Import Store.
Implicit Types (h : store Op Att) (A B : Timestamp Op Att) (a b : ref).

(** In place, on two timestamps that share no object, [merge] does what
    the merge of the trees does. *)
Lemma merge_separate depth h a b A B FA FB :
  footprint h A a = Some FA → footprint h B b = Some FB →
  NoDup FA → (∀ x, x ∈ FA → x ∉ FB) → levels B ≤ depth →
  ∃ h' FA',
    merge depth a (ATimestamp b) h = (h', (tree_merge A B).2)
    ∧ footprint h' (tree_merge A B).1 a = Some FA'
    ∧ footprint h' B b = Some FB
    ∧ NoDup FA'
    ∧ (∀ x, x ∈ FA' → x ∉ FB)
    ∧ length h ≤ length h'.
Proof.
  intros Hfa Hfb Hnd Hdisj Hlev.
  destruct (merge_timestamp_separate B depth A h a b FA FB)
    as (h' & FA' & Hrun & Hf' & Hnd' & Hin' & Hframe & Hlen); [done..|].
  pose proof (footprint_bound _ _ _ _ Hfb) as HFB.
  exists h', FA'. split_and!; [done..| | done | | done].
  - eapply footprint_frame; [exact Hfb|]. intros x Hx.
    apply Hframe; [by apply HFB|]. intros HxA. by apply (Hdisj _ HxA).
  - intros x Hx HxB. destruct (Hin' _ Hx) as [HxA|Hge].
    + by apply (Hdisj _ HxA).
    + specialize (HFB _ HxB). lia.
Qed.

(** C7, as the code has it.  [merge] commutes on separate trees: when the
    timestamps at [a] and [b] are trees [A] and [B] of the data model with
    the same message that share no object, with each other or within
    themselves, both merges return, and [A] after [A.merge(B)] equals [B]
    after [B.merge(A)], whether the second merge starts from the objects
    as they were or from the objects as the first merge has left them. *)
Theorem merge_commutative depth h a b A B FA FB :
  footprint h A a = Some FA → footprint h B b = Some FB →
  NoDup (FA ++ FB) →
  well_formed A = true → well_formed B = true → msg A = msg B →
  levels A ≤ depth → levels B ≤ depth →
  ∃ hA hB hAB A' B' B'',
    merge depth a (ATimestamp b) h = (hA, Ok ())
    ∧ is_Some (footprint hA A' a)
    ∧ merge depth b (ATimestamp a) h = (hB, Ok ())
    ∧ is_Some (footprint hB B' b)
    ∧ equals A' B' = true
    ∧ merge depth b (ATimestamp a) hA = (hAB, Ok ())
    ∧ is_Some (footprint hAB A' a)
    ∧ is_Some (footprint hAB B'' b)
    ∧ equals A' B'' = true.
Proof.
  intros Hfa Hfb (HndA & Hdisj & HndB)%NoDup_app HwfA HwfB Hm HlevA HlevB.
  destruct (merge_timestamp_spec B HwfB A HwfA Hm) as (HAB & HmAB & HwfAB & _).
  destruct (merge_timestamp_spec A HwfA B HwfB (eq_sym Hm)) as (HBA & _).
  destruct (merge_separate depth h a b A B FA FB)
    as (hA & FA' & HrunA & HfA' & HfB & HndA' & HdisjA' & HlenA); [done..|].
  destruct (merge_separate depth h b a B A FB FA)
    as (hB & FB' & HrunB & HfB' & _); [done..| |done|].
  { intros x HxB HxA. by apply (Hdisj _ HxA). }
  set (A' := (tree_merge A B).1) in *.
  assert (levels A' ≤ depth) as HlevA'.
  { pose proof (levels_merge_timestamp B A). unfold A'. lia. }
  destruct (merge_timestamp_spec A' HwfAB B HwfB) as (HBA' & _);
    [congruence|].
  destruct (merge_separate depth hA b a B A' FB FA')
    as (hAB & FB'' & HrunAB & HfB'' & HfA'' & _); [done..| |done|].
  { intros x HxB HxA. by apply (HdisjA' _ HxA). }
  rewrite HAB in HrunA. rewrite HBA in HrunB. rewrite HBA' in HrunAB.
  exists hA, hB, hAB, A', (tree_merge B A).1, (tree_merge B A').1.
  split_and!; [done | by eexists | done | by eexists | | done | by eexists
               | by eexists |].
  - by apply merge_timestamp_commutes.
  - by apply merge_timestamp_absorbs.
Qed.

(** C10, as the code has it.  [merge] raises [TypeError] when [other] is
    not a timestamp and [ValueError] when it carries another message, and
    then no timestamp has changed.  While the child-message invariant
    holds, no merge of a child raises [ValueError]; and on two trees of
    the data model that share no object these are the only exceptions. *)
Theorem merge_atomic depth h self s :
  h !! self = Some s → 0 < depth →
  (∀ x : bytes, merge depth self (ABytes x) h = (h, Raise TypeError))
  ∧ (∀ other o, h !! other = Some o → obj_msg s ≠ obj_msg o →
       merge depth self (ATimestamp other) h = (h, Raise ValueError))
  ∧ (∀ other o, h !! other = Some o → obj_msg s = obj_msg o →
       store_ok h = true →
       (merge depth self (ATimestamp other) h).2 ≠ Raise ValueError)
  ∧ (∀ other A B FA FB,
       footprint h A self = Some FA → footprint h B other = Some FB →
       NoDup FA → (∀ x, x ∈ FA → x ∉ FB) →
       well_formed A = true → well_formed B = true → levels B ≤ depth →
       (merge depth self (ATimestamp other) h).2
       = if decide (msg A ≠ msg B) then Raise ValueError else Ok ()).
Proof.
  intros Hself Hdepth. split_and!.
  - done.
  - intros other o Hother Hne. destruct depth as [|depth]; [lia|].
    by eapply store_merge_other_message.
  - intros other o Hother Hm Hok%store_ok_inv.
    apply never_merge_timestamp; [done| |by eexists..].
    rewrite (msg_of_lookup _ _ _ Hself), (msg_of_lookup _ _ _ Hother). done.
  - intros other A B FA FB Hfa Hfb Hnd Hdisj HwfA HwfB Hlev.
    destruct (merge_separate depth h self other A B FA FB)
      as (h' & FA' & Hrun & _); [done..|].
    rewrite Hrun. cbn [snd]. destruct (decide (msg A ≠ msg B)) as [Hm|Hm].
    { rewrite merge_timestamp_unfold. by rewrite decide_True. }
    assert (msg A = msg B) as Hm'.
    { destruct (decide (msg A = msg B)); [done|]. by destruct Hm. }
    by destruct (merge_timestamp_spec B HwfB A HwfA Hm') as (-> & _).
Qed.
End merge_in_place.

(** * The small catalogue satisfies the contracts *)

Section demo_laws.
Import Demo.

Lemma encode_lt_strict_total {A} `{Countable A} :
  StrictTotal (λ x y : A, bool_decide (encode x < encode y)%positive).
Proof.
  split.
  - intros x. apply bool_decide_eq_false. lia.
  - intros x y z. rewrite !bool_decide_eq_true. lia.
  - intros x y Hne. rewrite !bool_decide_eq_true.
    assert (encode x ≠ encode y) by (by intros ?%(inj encode)). lia.
Qed.

Lemma demo_op_lt_strict_total : StrictTotal (op_lt (Op := op)).
Proof. apply encode_lt_strict_total. Qed.

Lemma demo_att_lt_strict_total : StrictTotal (att_lt (Att := byte)).
Proof. apply encode_lt_strict_total. Qed.

Lemma read_write_payload b rest :
  read_payload (write_payload b ++ rest) = Some (b, rest).
Proof.
  unfold write_payload. induction b as [|x b IH]; [done|].
  rewrite fmap_cons. simpl. simpl in IH. by rewrite IH.
Qed.

Lemma demo_op_codec : OpCodec (Op := op).
Proof.
  split. intros [|b|b] rest; simpl.
  - by exists x08, [].
  - exists xf0, (write_payload b). split_and!; [done..|].
    by rewrite read_write_payload.
  - exists xf1, (write_payload b). split_and!; [done..|].
    by rewrite read_write_payload.
Qed.

Lemma demo_op_concat : OpConcat (Op := op).
Proof. by split. Qed.

Lemma demo_att_codec : AttCodec (Att := byte).
Proof. by split. Qed.

Lemma demo_crypt_op_codec : CryptOpCodec (Op := op).
Proof.
  split.
  - by intros [] rest.
  - intros [|[] ctx] o rest; try done. by intros [= <- <-].
Qed.
End demo_laws.

(** * The claims on the small catalogue *)

Section demo_claims.
Import Demo.
#[local] Existing Instance demo_op_codec.
#[local] Existing Instance demo_op_concat.
#[local] Existing Instance demo_att_codec.

(** C1.  The code's [__eq__] compares [msg] and [ops] only: two timestamps
    with the same message and different attestation sets compare equal,
    against the equality that the specification requires. *)
Theorem timestamp_eq_ignores_attestations :
  timestamp_eq (leaf [x01] [x61]) (leaf [x01] []) = true
  ∧ set_eq (attestations (leaf [x01] [x61])) (attestations (leaf [x01] []))
    = false
  ∧ equals (leaf [x01] [x61]) (leaf [x01] []) = false.
Proof. by vm_compute. Qed.

(** C4.  Two serializable timestamps that the code's [__eq__] takes for
    equal are written as different bytes: they differ in an attestation,
    which [__eq__] does not compare. *)
Theorem timestamp_eq_not_canonical :
  timestamp_eq (leaf [x01] [x61]) (leaf [x01] [x62]) = true
  ∧ serialize (leaf [x01] [x61]) = ([x00; x61], Ok ())
  ∧ serialize (leaf [x01] [x62]) = ([x00; x62], Ok ()).
Proof. by vm_compute. Qed.

(** C6, as stated, fails: with no entry for the operation, a child whose
    message is not [op(parent.msg)] is inserted and nothing is raised. *)
Lemma setitem_accepts_inconsistent_child :
  Store.msg_of parent_and_stranger 1
    ≠ op_call SHA256 (Store.msg_of parent_and_stranger 0)
  ∧ (Store.setitem 0 SHA256 1 parent_and_stranger).2 = Ok ()
  ∧ child_of (Store.setitem 0 SHA256 1 parent_and_stranger).1 0 SHA256
    = Some 1.
Proof. by vm_compute. Qed.

Lemma setitem_checks_existing_witness :
  parent_and_stranger !! 0 = Some (Store.mkObject [x01] [] [])
  ∧ Store.setitem 0 SHA256 1 parent_and_stranger
    = (<[0 := Store.mkObject [x01] [] [(SHA256, 1)]]> parent_and_stranger,
       Ok ()).
Proof.
  split; [reflexivity|].
  apply (setitem_checks_existing parent_and_stranger 0 1 SHA256
           (Store.mkObject [x01] [] [])).
  reflexivity.
Defined.

Lemma deserialize_serialize_witness :
  well_formed tree = true ∧ nonempty_ok tree = true
  ∧ ∃ b t', serialize tree = (b, Ok ())
            ∧ deserialize b (msg tree) = Ok (t', [])
            ∧ equals t' tree = true.
Proof.
  split; [reflexivity|]. split; [reflexivity|].
  apply (deserialize_serialize tree); reflexivity.
Defined.

(** C7, as stated, fails: a timestamp with two children joined by
    [cat_sha256], and a tree for the same message, both built by public
    calls under the child-message invariant.  Both merges return, and the
    results differ: the joined object receives the attestation on both
    paths, the tree on one. *)
Lemma merge_not_commutative :
  store_ok diamond_and_tree = true
  ∧ Store.msg_of diamond_and_tree 6 = Store.msg_of diamond_and_tree 0
  ∧ ∃ hA hB hAB A' B' B'',
      Store.merge 8 6 (Store.ATimestamp 0) diamond_and_tree = (hA, Ok ())
      ∧ Store.merge 8 0 (Store.ATimestamp 6) diamond_and_tree = (hB, Ok ())
      ∧ Store.merge 8 0 (Store.ATimestamp 6) hA = (hAB, Ok ())
      ∧ tree_of 8 hA 6 = Some A' ∧ tree_of 8 hB 0 = Some B'
      ∧ tree_of 8 hAB 6 = Some A' ∧ tree_of 8 hAB 0 = Some B''
      ∧ equals A' B' = false ∧ equals B' A' = false
      ∧ equals A' B'' = false ∧ equals B'' A' = false.
Proof.
  split; [reflexivity|]. split; [reflexivity|].
  exists (Store.merge 8 6 (Store.ATimestamp 0) diamond_and_tree).1,
    (Store.merge 8 0 (Store.ATimestamp 6) diamond_and_tree).1,
    (Store.merge 8 0 (Store.ATimestamp 6)
       (Store.merge 8 6 (Store.ATimestamp 0) diamond_and_tree).1).1,
    (default tree
       (tree_of 8 (Store.merge 8 6 (Store.ATimestamp 0) diamond_and_tree).1
          6)),
    (default tree
       (tree_of 8 (Store.merge 8 0 (Store.ATimestamp 6) diamond_and_tree).1
          0)),
    (default tree
       (tree_of 8
          (Store.merge 8 0 (Store.ATimestamp 6)
             (Store.merge 8 6 (Store.ATimestamp 0) diamond_and_tree).1).1
          0)).
  by vm_compute.
Qed.

Lemma merge_commutative_witness :
  footprint two_trees tree 3 = Some [3; 0; 2; 1]
  ∧ footprint two_trees tree' 6 = Some [6; 4; 5]
  ∧ ∃ hA hB hAB A' B' B'',
      Store.merge 8 3 (Store.ATimestamp 6) two_trees = (hA, Ok ())
      ∧ is_Some (footprint hA A' 3)
      ∧ Store.merge 8 6 (Store.ATimestamp 3) two_trees = (hB, Ok ())
      ∧ is_Some (footprint hB B' 6)
      ∧ equals A' B' = true
      ∧ Store.merge 8 6 (Store.ATimestamp 3) hA = (hAB, Ok ())
      ∧ is_Some (footprint hAB A' 3)
      ∧ is_Some (footprint hAB B'' 6)
      ∧ equals A' B'' = true.
Proof.
  split; [reflexivity|]. split; [reflexivity|].
  apply (merge_commutative 8 two_trees 3 6 tree tree'
           [3; 0; 2; 1] [6; 4; 5]);
    [reflexivity | reflexivity
     | apply (bool_decide_unpack _); vm_compute; exact I
     | reflexivity | reflexivity | reflexivity
     | vm_compute; lia | vm_compute; lia].
Defined.

(** C10, as stated, fails.  With equal root messages, under the
    child-message invariant, on timestamps built by public calls, [merge]
    raises [RuntimeError] after it has added an attestation to [self];
    and where [ops[op] = child] has stored a child for another message, a
    merge of children raises [ValueError], again after [self] has
    changed. *)
Lemma merge_not_atomic :
  store_ok nested_same_message = true
  ∧ Store.msg_of nested_same_message 0 = Store.msg_of nested_same_message 1
  ∧ (Store.merge 8 0 (Store.ATimestamp 1) nested_same_message).2
    = Raise RuntimeError
  ∧ Store.obj_attestations <$> nested_same_message !! 0 = Some []
  ∧ Store.obj_attestations
      <$> (Store.merge 8 0 (Store.ATimestamp 1) nested_same_message).1 !! 0
    = Some [x61]
  ∧ Store.msg_of stranger_child 0 = Store.msg_of stranger_child 2
  ∧ (Store.merge 8 0 (Store.ATimestamp 2) stranger_child).2
    = Raise ValueError
  ∧ Store.obj_attestations <$> stranger_child !! 0 = Some []
  ∧ Store.obj_attestations
      <$> (Store.merge 8 0 (Store.ATimestamp 2) stranger_child).1 !! 0
    = Some [x61].
Proof. by vm_compute. Qed.

Lemma merge_atomic_witness :
  two_leaves !! 0 = Some (Store.mkObject [x01] [] [])
  ∧ (∀ x : bytes,
       Store.merge 8 0 (Store.ABytes x) two_leaves
       = (two_leaves, Raise TypeError))
  ∧ (∀ other o, two_leaves !! other = Some o → [x01] ≠ Store.obj_msg o →
       Store.merge 8 0 (Store.ATimestamp other) two_leaves
       = (two_leaves, Raise ValueError))
  ∧ (∀ other o, two_leaves !! other = Some o → [x01] = Store.obj_msg o →
       store_ok two_leaves = true →
       (Store.merge 8 0 (Store.ATimestamp other) two_leaves).2
       ≠ Raise ValueError)
  ∧ (∀ other A B FA FB,
       footprint two_leaves A 0 = Some FA →
       footprint two_leaves B other = Some FB →
       NoDup FA → (∀ x, x ∈ FA → x ∉ FB) →
       well_formed A = true → well_formed B = true → levels B ≤ 8 →
       (Store.merge 8 0 (Store.ATimestamp other) two_leaves).2
       = if decide (msg A ≠ msg B) then Raise ValueError else Ok ()).
Proof.
  split; [reflexivity|].
  apply (merge_atomic 8 two_leaves 0 (Store.mkObject [x01] [] []));
    [reflexivity | lia].
Defined.

Lemma child_message_invariant_witness :
  descend (run_all program) 0 [Append [x02]] = Some 3
  ∧ run_all program !! 3
    = Some (Store.mkObject [x01; x02] [] [(SHA256, 4)])
  ∧ ∃ oc, run_all program !! 4 = Some oc
          ∧ Store.obj_msg oc = op_call SHA256 [x01; x02].
Proof.
  split; [reflexivity|]. split; [reflexivity|].
  apply (child_message_invariant program 0 3
           [Append [x02]] (Store.mkObject [x01; x02] [] [(SHA256, 4)])
           SHA256 4); reflexivity.
Defined.

Lemma cat_sha256_shares_witness :
  store_ok two_leaves = true
  ∧ ∃ h' t x ox ot,
      Store.cat_sha256 (Store.ATimestamp 0) (Store.ATimestamp 1) two_leaves
      = (h', Ok t)
      ∧ child_of h' 0 (Append [x02]) = Some x
      ∧ child_of h' 1 (Prepend [x01]) = Some x
      ∧ h' !! x = Some ox ∧ Store.obj_msg ox = [x01; x02]
      ∧ child_of h' x SHA256 = Some t
      ∧ h' !! t = Some ot
      ∧ Store.obj_msg ot = digest [x01; x02].
Proof.
  split; [reflexivity|].
  exact (cat_sha256_shares two_leaves 0 1
           (Store.mkObject [x01] [] []) (Store.mkObject [x02] [] [])
           eq_refl eq_refl eq_refl).
Defined.

Lemma make_merkle_tree_three_witness :
  store_ok (Op := op) (Att := byte) [] = true
  ∧ ∃ (h1 : Store.store op byte) p12 h2 tip otip,
      Store.cat_sha256 (Store.ABytes [x01]) (Store.ABytes [x02]) []
      = (h1, Ok p12)
      ∧ Store.cat_sha256 (Store.ATimestamp p12) (Store.ABytes [x03]) h1
        = (h2, Ok tip)
      ∧ Store.make_merkle_tree
          [Store.ABytes [x01]; Store.ABytes [x02]; Store.ABytes [x03]] []
        = (h2, Ok (Some (Store.ATimestamp tip)))
      ∧ h2 !! tip = Some otip
      ∧ Store.obj_msg otip = digest (digest ([x01] ++ [x02]) ++ [x03]).
Proof.
  split; [reflexivity|].
  exact (make_merkle_tree_three (Att := byte)
           [] (Store.ABytes [x01]) (Store.ABytes [x02]) (Store.ABytes [x03])
           [x01] [x02] [x03] eq_refl eq_refl eq_refl eq_refl).
Defined.
(** On [tree] and [tree'], the merge of the objects in place and the merge
    of the trees give the same tree. *)
Example store_merge_agrees :
  match merged_objects with
  | (h, Ok a) => tree_of 8 h a = Some (merge tree (VTimestamp tree')).1
  | (_, Raise _) => False
  end.
Proof. by vm_compute. Qed.
End demo_claims.

(** * Further properties on the small catalogue *)

Section demo_extras.
Import Demo.
#[local] Existing Instance demo_op_codec.
#[local] Existing Instance demo_op_concat.
#[local] Existing Instance demo_att_codec.
#[local] Existing Instance demo_op_lt_strict_total.
#[local] Existing Instance demo_att_lt_strict_total.

Lemma serialize_canonical_bytes_witness :
  containers_ok tree = true ∧ containers_ok tree_reordered = true
  ∧ equals tree tree_reordered = true
  ∧ serialize tree = serialize tree_reordered.
Proof.
  split; [reflexivity|]. split; [reflexivity|]. split; [reflexivity|].
  apply (serialize_canonical_bytes tree tree_reordered); reflexivity.
Defined.

Lemma serialize_injective_witness :
  well_formed tree = true ∧ well_formed tree_reordered = true
  ∧ nonempty_ok tree = true ∧ nonempty_ok tree_reordered = true
  ∧ msg tree = msg tree_reordered
  ∧ (serialize tree).1 = (serialize tree_reordered).1
  ∧ equals tree tree_reordered = true.
Proof.
  do 6 (split; [reflexivity|]).
  apply (serialize_injective tree tree_reordered); reflexivity.
Defined.

Lemma deserialize_leaves_rest_witness :
  well_formed tree = true ∧ nonempty_ok tree = true
  ∧ ∃ b, serialize tree = (b, Ok ())
         ∧ deserialize (b ++ [x2a; xff]) (msg tree)
           = Ok (normalize tree, [x2a; xff])
         ∧ equals (normalize tree) tree = true.
Proof.
  split; [reflexivity|]. split; [reflexivity|].
  apply (deserialize_leaves_rest tree [x2a; xff]); reflexivity.
Defined.

Lemma deserialize_returns_timestamp_witness :
  deserialize [xff; x00; x62; x08; x00; x61] [x01]
  = Ok (mkTimestamp [x01] [x62] [(SHA256, leaf (digest [x01]) [x61])], [])
  ∧ msg (mkTimestamp [x01] [x62] [(SHA256, leaf (digest [x01]) [x61])])
    = [x01]
  ∧ well_formed
      (mkTimestamp [x01] [x62] [(SHA256, leaf (digest [x01]) [x61])]) = true
  ∧ nonempty_ok
      (mkTimestamp [x01] [x62] [(SHA256, leaf (digest [x01]) [x61])]) = true.
Proof.
  split; [reflexivity|].
  apply (deserialize_returns_timestamp
           [xff; x00; x62; x08; x00; x61] [x01] _ []).
  reflexivity.
Defined.

Lemma deserialize_reserialize_witness :
  deserialize [xff; x00; x62; xff; x00; x61; x08; x00; x61] [x01]
  = Ok (mkTimestamp [x01] [x62; x61]
          [(SHA256, leaf (digest [x01]) [x61])], [])
  ∧ ∃ b t',
      serialize (mkTimestamp [x01] [x62; x61]
                   [(SHA256, leaf (digest [x01]) [x61])]) = (b, Ok ())
      ∧ deserialize b [x01] = Ok (t', [])
      ∧ equals t' (mkTimestamp [x01] [x62; x61]
                     [(SHA256, leaf (digest [x01]) [x61])]) = true.
Proof.
  split; [reflexivity|].
  apply (deserialize_reserialize
           [xff; x00; x62; xff; x00; x61; x08; x00; x61] [x01] _ []).
  reflexivity.
Defined.

Lemma merge_idempotent_witness :
  containers_ok tree = true ∧ merge tree (VTimestamp tree) = (tree, Ok ()).
Proof.
  split; [reflexivity|]. apply (merge_idempotent tree). reflexivity.
Defined.


Lemma all_attestations_paths_witness :
  well_formed tree = true
  ∧ (([x05; x08; x01], x65) ∈ all_attestations tree
     ↔ ∃ path node, walk tree path = Some node ∧ x65 ∈ attestations node
                    ∧ msg node = [x05; x08; x01]
                    ∧ [x05; x08; x01] = apply_path (msg tree) path).
Proof.
  split; [reflexivity|].
  apply (all_attestations_paths tree [x05; x08; x01] x65). reflexivity.
Defined.
End demo_extras.

Section demo_store_extras.
Import Demo.
#[local] Existing Instance demo_op_concat.

Lemma ops_add_idempotent_witness :
  two_leaves !! 0 = Some (Store.mkObject [x01] [] [])
  ∧ ∃ (h1 : Store.store op byte) r,
      Store.add 0 SHA256 two_leaves = (h1, Ok r)
      ∧ Store.add 0 SHA256 h1 = (h1, Ok r)
      ∧ child_of h1 0 SHA256 = Some r
      ∧ (∀ k c, child_of two_leaves 0 k = Some c → child_of h1 0 k = Some c)
      ∧ r = 2
      ∧ h1 !! r = Some (Store.mkObject (digest [x01]) [] []).
Proof.
  split; [reflexivity|].
  exact (ops_add_idempotent two_leaves 0 SHA256
           (Store.mkObject [x01] [] []) eq_refl).
Defined.

Lemma cat_then_unary_op_idempotent_witness :
  store_ok two_leaves = true
  ∧ ∃ (h' : Store.store op byte) t,
      Store.cat_then_unary_op SHA256 (Store.ATimestamp 0)
        (Store.ATimestamp 1) two_leaves = (h', Ok t)
      ∧ Store.cat_then_unary_op SHA256 (Store.ATimestamp 0)
          (Store.ATimestamp 1) h' = (h', Ok t).
Proof.
  split; [reflexivity|].
  apply (cat_then_unary_op_idempotent SHA256 0 1 two_leaves);
    [reflexivity | eexists; reflexivity | eexists; reflexivity].
Defined.

Lemma cat_then_unary_op_keeps_right_witness :
  store_ok left_and_right = true
  ∧ child_of left_and_right 0 (Append [x02]) = Some 2
  ∧ child_of left_and_right 1 (Prepend [x01]) = Some 3
  ∧ ∃ (h' : Store.store op byte) t,
      Store.cat_then_unary_op SHA256 (Store.ATimestamp 0)
        (Store.ATimestamp 1) left_and_right = (h', Ok t)
      ∧ child_of h' 0 (Append [x02]) = Some 3
      ∧ child_of h' 1 (Prepend [x01]) = Some 3
      ∧ child_of h' 3 SHA256 = Some t.
Proof.
  split; [reflexivity|]. split; [reflexivity|]. split; [reflexivity|].
  exact (cat_then_unary_op_keeps_right SHA256 0 1 left_and_right
           (Store.mkObject [x01] [] [(Append [x02], 2)])
           (Store.mkObject [x02] [] [(Prepend [x01], 3)]) 3
           eq_refl eq_refl eq_refl eq_refl).
Defined.

Lemma cat_sha256d_returns_witness :
  store_ok (Op := op) (Att := byte) [] = true
  ∧ ∃ (h1 : Store.store op byte) t (h2 : Store.store op byte) d
      (od : Store.object op byte),
      Store.cat_sha256 (Store.ABytes [x01]) (Store.ABytes [x02]) []
      = (h1, Ok t)
      ∧ Store.cat_sha256d (Store.ABytes [x01]) (Store.ABytes [x02]) []
        = (h2, Ok d)
      ∧ child_of h2 t SHA256 = Some d
      ∧ h2 !! d = Some od
      ∧ Store.obj_msg od = digest (digest ([x01] ++ [x02])).
Proof.
  split; [reflexivity|].
  exact (cat_sha256d_returns (Att := byte) []
           (Store.ABytes [x01]) (Store.ABytes [x02]) [x01] [x02]
           eq_refl eq_refl eq_refl).
Defined.

Lemma make_merkle_tree_returns_witness :
  store_ok two_leaves = true
  ∧ merkle_msg (Op := op) [[x01]; [x02]; [x03]; [x04]; [x05]]
    = Some (digest (digest (digest ([x01] ++ [x02])
                            ++ digest ([x03] ++ [x04])) ++ [x05]))
  ∧ ∃ (h' : Store.store op byte) tip m,
      Store.make_merkle_tree
        [Store.ATimestamp 0; Store.ATimestamp 1; Store.ABytes [x03];
         Store.ABytes [x04]; Store.ABytes [x05]] two_leaves
      = (h', Ok (Some tip))
      ∧ merkle_msg [[x01]; [x02]; [x03]; [x04]; [x05]] = Some m
      ∧ arg_msg h' tip = Some m
      ∧ store_ok h' = true.
Proof.
  split; [reflexivity|]. split; [reflexivity|].
  apply (make_merkle_tree_returns two_leaves
           [Store.ATimestamp 0; Store.ATimestamp 1; Store.ABytes [x03];
            Store.ABytes [x04]; Store.ABytes [x05]]
           [[x01]; [x02]; [x03]; [x04]; [x05]]).
  - reflexivity.
  - discriminate.
  - repeat constructor.
Defined.

Lemma make_merkle_tree_commits_witness :
  store_ok left_and_right = true
  ∧ ∃ (h' : Store.store op byte) tip,
      Store.make_merkle_tree
        [Store.ATimestamp 0; Store.ATimestamp 1; Store.ATimestamp 0;
         Store.ATimestamp 3] left_and_right
      = (h', Ok (Some tip))
      ∧ ∀ r, Store.ATimestamp r
             ∈ [Store.ATimestamp 0; Store.ATimestamp 1; Store.ATimestamp 0;
                Store.ATimestamp 3] →
             ∃ q path, tip = Store.ATimestamp q
                       ∧ descend h' r path = Some q.
Proof.
  split; [reflexivity|].
  apply (make_merkle_tree_commits left_and_right
           [Store.ATimestamp 0; Store.ATimestamp 1; Store.ATimestamp 0;
            Store.ATimestamp 3]
           [[x01]; [x02]; [x01]; [x01; x02]]).
  - reflexivity.
  - discriminate.
  - repeat constructor.
Defined.
Lemma merge_keeps_witness :
  left_and_right !! 2 = Some (Store.mkObject [x01; x02] [x61] [])
  ∧ ∃ o', (Store.merge 8 2 (Store.ATimestamp 3) left_and_right).1 !! 2
          = Some o'
          ∧ Store.obj_msg o' = [x01; x02]
          ∧ (∀ a, a ∈ [x61] → a ∈ Store.obj_attestations o')
          ∧ ∀ k c, dict_get k [] = Some c
                   → dict_get k (Store.obj_ops o') = Some c.
Proof.
  split; [reflexivity|].
  exact (merge_keeps 8 2 (Store.ATimestamp 3) left_and_right 2
           (Store.mkObject [x01; x02] [x61] []) eq_refl).
Defined.
End demo_store_extras.

Section demo_detached.
Import Demo.
#[local] Existing Instance demo_op_codec.
#[local] Existing Instance demo_att_codec.
#[local] Existing Instance demo_crypt_op_codec.

Lemma detached_deserialize_serialize_witness :
  is_crypt_op (Detached.file_hash_op detached_file) = true
  ∧ 20 ≤ length (Detached.file_digest detached_file) ≤ 32
  ∧ ∃ b, Detached.serialize detached_file = (b, Ok ())
         ∧ Detached.deserialize (b ++ [x2a])
           = Detached.Return
               (Detached.mkDetachedTimestampFile
                  (Detached.file_hash_op detached_file)
                  (normalize (Detached.timestamp detached_file)), [x2a])
         ∧ equals (normalize (Detached.timestamp detached_file))
             (Detached.timestamp detached_file) = true.
Proof.
  split; [reflexivity|]. split; [vm_compute; lia|].
  apply (detached_deserialize_serialize detached_file [x2a]);
    [reflexivity | vm_compute; lia | reflexivity | reflexivity].
Defined.

Lemma detached_serialize_unchecked_digest_witness :
  length (Detached.file_digest short_digest_file) = 1
  ∧ ∃ b, Detached.serialize short_digest_file = (b, Ok ())
         ∧ Detached.deserialize (Att := byte) (b ++ [])
           = Detached.Failure DeserializationError.
Proof.
  split; [reflexivity|].
  apply (detached_serialize_unchecked_digest short_digest_file []);
    [reflexivity | vm_compute; lia].
Defined.

Lemma detached_deserialize_returns_witness :
  Detached.deserialize ((Detached.serialize detached_file).1 ++ [x2a])
  = Detached.Return (detached_file, [x2a])
  ∧ (∃ body, (Detached.serialize detached_file).1 ++ [x2a]
             = Detached.HEADER_MAGIC ++ body)
  ∧ 20 ≤ length (Detached.file_digest detached_file) ≤ 32
  ∧ is_crypt_op (Detached.file_hash_op detached_file) = true
  ∧ well_formed (Detached.timestamp detached_file) = true
  ∧ (Detached.serialize detached_file).2 = Ok ().
Proof.
  split; [by vm_compute|].
  apply (detached_deserialize_returns
           ((Detached.serialize detached_file).1 ++ [x2a])
           detached_file [x2a]).
  by vm_compute.
Defined.
End demo_detached.
